(** * TOKTUNE lyrics player ([play.py]): model and verified properties

    The development embeds the time codec, the LRC parser, the text
    wrapper, the per-character delay function, the word-timing exporter,
    the schedule printer, the realtime scheduler and [main] of [play.py].
    The calls of [animate_text] and of the loading and completion bars are
    recorded in the trace with their arguments; their bodies only print and
    sleep.  A call of [animate_text] sleeps a positive multiple of the
    delay it is given after each character, so it returns unless that
    delay is negative; the statements about whole runs of [play_realtime]
    are made for a genre delay that is not negative and a positive
    multiplier, where no call gets a negative delay.

    Number model.  Python [float] values are finite dyadic rationals, and
    the program only adds, subtracts, multiplies, divides, compares, floors
    and rounds them.  They are modelled by [Q] with exact arithmetic: the
    binary64 rounding of each operation is outside the model.  The one
    function that needs [math.sin], [get_animation_delay], is modelled over
    [R] with the real sine.

    String model.  A Python [str] is modelled by [list ascii], one [ascii]
    per code point below 256 (Latin-1); whitespace, line boundaries, digits
    and case conversion are those of Python on that range. *)

From Stdlib Require Import ZArith QArith Qround Qabs Qminmax Lqa Lia.
From Stdlib Require Import Reals Lra.
From Stdlib Require Import List Ascii String Bool Permutation Sorted.
Import ListNotations.
Open Scope list_scope.

(* ================================================================== *)
(** * Python strings *)
(* ================================================================== *)

Definition str := list ascii.

(** String literals of the source are written [s2l "..."]. *)
Definition s2l (s : string) : str := list_ascii_of_string s.

Definition chr (n : nat) : ascii := ascii_of_nat n.
Definition ord (c : ascii) : nat := nat_of_ascii c.

Definition LF : ascii := chr 10.
Definition CR : ascii := chr 13.
Definition ESC : ascii := chr 27.

(** [str.isspace] on one code point below 256: TAB, LF, VT, FF, CR,
    FS, GS, RS, US, SPACE, NEL and NBSP. *)
Definition is_space (c : ascii) : bool :=
  let n := ord c in
  ((9 <=? n) && (n <=? 13) || (28 <=? n) && (n <=? 32)
   || (n =? 133) || (n =? 160))%nat.

(** Line boundaries of [str.splitlines]: LF, VT, FF, CR, FS, GS, RS, NEL. *)
Definition is_linebreak (c : ascii) : bool :=
  let n := ord c in
  ((10 <=? n) && (n <=? 13) || (28 <=? n) && (n <=? 30) || (n =? 133))%nat.

(** [\d] of [re] and the digits [int] accepts, below 256: ['0'..'9']. *)
Definition is_digit (c : ascii) : bool :=
  let n := ord c in ((48 <=? n) && (n <=? 57))%nat.

Definition digit_val (c : ascii) : Z := Z.of_nat (ord c) - 48.
Definition digit_char (d : Z) : ascii := chr (Z.to_nat (d + 48)).

(** [str.lower] on one code point below 256. *)
Definition lower_char (c : ascii) : ascii :=
  let n := ord c in
  if ((65 <=? n) && (n <=? 90)
      || (192 <=? n) && (n <=? 222) && negb (n =? 215))%nat
  then chr (n + 32) else c.

Definition lower (s : str) : str := map lower_char s.

Definition str_eqb (a b : str) : bool :=
  if list_eq_dec ascii_dec a b then true else false.

Fixpoint lstrip_by (p : ascii -> bool) (s : str) : str :=
  match s with
  | [] => []
  | c :: s' => if p c then lstrip_by p s' else s
  end.

Definition rstrip_by (p : ascii -> bool) (s : str) : str :=
  rev (lstrip_by p (rev s)).

Definition strip_by (p : ascii -> bool) (s : str) : str :=
  rstrip_by p (lstrip_by p s).

(** [s.strip()] *)
Definition strip (s : str) : str := strip_by is_space s.

(** [s.strip(chars)] *)
Definition strip_chars (chars : str) (s : str) : str :=
  strip_by (fun c => existsb (Ascii.eqb c) chars) s.

(** [c in s] for a one-character [c] *)
Definition contains (c : ascii) (s : str) : bool := existsb (Ascii.eqb c) s.

Fixpoint startswith (p s : str) : bool :=
  match p, s with
  | [], _ => true
  | _ :: _, [] => false
  | a :: p', b :: s' => Ascii.eqb a b && startswith p' s'
  end.

(** [s.split(sep)] for a one-character separator: empty pieces are kept
    and the result is never empty. *)
Fixpoint split_on (sep : ascii) (s : str) : list str :=
  match s with
  | [] => [[]]
  | c :: s' =>
      if Ascii.eqb c sep then [] :: split_on sep s'
      else match split_on sep s' with
           | [] => [[c]]
           | p :: ps => (c :: p) :: ps
           end
  end.

(** [s.split()]: pieces between runs of whitespace, none of them empty.
    [cur] is the word being read, in reverse. *)
Fixpoint split_ws_aux (cur : str) (s : str) : list str :=
  match s with
  | [] => match cur with [] => [] | _ => [rev cur] end
  | c :: s' =>
      if is_space c
      then match cur with
           | [] => split_ws_aux [] s'
           | _ => rev cur :: split_ws_aux [] s'
           end
      else split_ws_aux (c :: cur) s'
  end.

Definition split_ws (s : str) : list str := split_ws_aux [] s.

(** [s.splitlines()]: CR LF counts as one boundary, and a trailing
    boundary does not open an empty last line.  [cur] is the line being
    read, in reverse; [after_cr] says that the previous character was a
    CR, so that an LF here belongs to the same boundary. *)
Fixpoint splitlines_aux (cur : str) (after_cr : bool) (s : str) : list str :=
  match s with
  | [] => match cur with [] => [] | _ => [rev cur] end
  | c :: s' =>
      if after_cr && Ascii.eqb c LF then splitlines_aux cur false s'
      else if is_linebreak c
           then rev cur :: splitlines_aux [] (Ascii.eqb c CR) s'
           else splitlines_aux (c :: cur) false s'
  end.

Definition splitlines (s : str) : list str := splitlines_aux [] false s.

(* ================================================================== *)
(** * Python numbers *)
(* ================================================================== *)

(** Exceptions the modelled code can raise. *)
Inductive exn : Type :=
| ValueError
| ZeroDivisionError
| IndexError
| SystemExit (code : Z).

Inductive result (A : Type) : Type :=
| Ok (a : A)
| Raise (e : exn).
Arguments Ok {A} a.
Arguments Raise {A} e.

Definition bind {A B} (r : result A) (k : A -> result B) : result B :=
  match r with
  | Ok a => k a
  | Raise e => Raise e
  end.

Declare Scope result_scope.
Delimit Scope result_scope with result.
Notation "x <- r ;; k" := (bind r (fun x => k))
  (at level 61, r at next level, right associativity) : result_scope.

(** [a / b] on floats: division by zero raises. *)
Definition py_div (a b : Q) : result Q :=
  if Qeq_bool b 0 then Raise ZeroDivisionError else Ok (a / b)%Q.

(** [int(x)] on a float: truncation towards zero. *)
Definition trunc (x : Q) : Z := Z.quot (Qnum x) (Zpos (Qden x)).

(** [x // y] and [x % y] on floats, for [y > 0]. *)
Definition floordiv (x y : Q) : Q := inject_Z (Qfloor (x / y)).
Definition pymod (x y : Q) : Q := (x - y * floordiv x y)%Q.

(** [round(x)]: to the nearest integer, ties to the even one. *)
Definition py_round (x : Q) : Z :=
  let f := Qfloor x in
  let d := (x - inject_Z f)%Q in
  match (d ?= 1 # 2)%Q with
  | Lt => f
  | Gt => (f + 1)%Z
  | Eq => if Z.even f then f else (f + 1)%Z
  end.

(** Value of a run of decimal digits, most significant first. *)
Definition digits_value (ds : str) : Z :=
  fold_left (fun acc c => (acc * 10 + digit_val c)%Z) ds 0%Z.

(** The digit groups of an integer literal: digits with single
    underscores allowed between them.  Returns the digits without the
    underscores, or [None] when the text is not of that shape. *)
Fixpoint int_digits (prev_digit : bool) (s : str) : option str :=
  match s with
  | [] => if prev_digit then Some [] else None
  | c :: s' =>
      if is_digit c
      then option_map (cons c) (int_digits true s')
      else if Ascii.eqb c "_"%char && prev_digit
           then match s' with
                | d :: _ => if is_digit d then int_digits false s' else None
                | [] => None
                end
           else None
  end.

(** [int(s)] on a string: surrounding whitespace, an optional sign,
    digits; anything else raises [ValueError]. *)
Definition py_int (s : str) : result Z :=
  let t := strip s in
  let '(neg, body) :=
    match t with
    | c :: t' =>
        if Ascii.eqb c "-"%char then (true, t')
        else if Ascii.eqb c "+"%char then (false, t')
        else (false, t)
    | [] => (false, t)
    end in
  match int_digits false body with
  | Some ds => Ok (if neg then (- digits_value ds)%Z else digits_value ds)
  | None => Raise ValueError
  end.

(** Decimal digits of a non-negative integer.  The fuel bounds the number
    of digits; [str_of_Z] supplies one more than the binary length. *)
Fixpoint dec_digits (fuel : nat) (n : Z) : str :=
  match fuel with
  | O => []
  | S f =>
      if (n <? 10)%Z then [digit_char n]
      else dec_digits f (n / 10)%Z ++ [digit_char (n mod 10)%Z]
  end.

Definition str_of_nonneg (n : Z) : str :=
  dec_digits (S (Z.to_nat (Z.log2 n))) n.

(** [s.rjust(w, fill)] and [s.ljust(w, fill)] *)
Definition rjust (w : nat) (fill : ascii) (s : str) : str :=
  repeat fill (w - List.length s) ++ s.
Definition ljust (w : nat) (fill : ascii) (s : str) : str :=
  s ++ repeat fill (w - List.length s).

(** [f"{n:02d}"]: zero padding goes between the sign and the digits. *)
Definition fmt_02d (n : Z) : str :=
  if (n <? 0)%Z
  then "-"%char :: rjust 1 "0"%char (str_of_nonneg (- n))
  else rjust 2 "0"%char (str_of_nonneg n).

(* ================================================================== *)
(** * Time codec *)
(* ================================================================== *)

Section Codec.

(** [float(s)] on a string is the interpreter's; the codec only calls it
    on text without a colon. *)
Variable py_float : str -> result Q.

Local Open Scope result_scope.

(** [lrc_time_to_seconds(t)] *)
Definition lrc_time_to_seconds (t : str) : result Q :=
  let t := strip_chars (s2l "[]") (strip t) in
  if contains ":" t then
    let parts := split_on ":" t in
    minutes <- py_int (nth 0 parts []) ;;
    let seconds_part := nth 1 parts [] in
    if contains "." seconds_part then
      match split_on "." seconds_part with
      | [seconds; frac] =>
          seconds <- py_int seconds ;;
          if (List.length frac =? 2)%nat then
            f <- py_int frac ;;
            Ok (inject_Z (minutes * 60 + seconds) + inject_Z f / 100)%Q
          else
            f <- py_int frac ;;
            Ok (inject_Z (minutes * 60 + seconds) + inject_Z f / 1000)%Q
      | _ => Raise ValueError
      end
    else
      s <- py_int seconds_part ;;
      Ok (inject_Z (minutes * 60 + s))
  else py_float t.

(** [parse_time_input(time_str)] *)
Definition parse_time_input (time_str : str) : result Q :=
  if contains ":" time_str then lrc_time_to_seconds time_str
  else py_float time_str.

End Codec.

(** [seconds_to_lrc_time(sec)] *)
Definition seconds_to_lrc_time (sec : Q) : str :=
  let sec := if Qlt_le_dec sec 0 then 0%Q else sec in
  let minutes := trunc (floordiv sec 60) in
  let seconds := trunc (pymod sec 60) in
  let centiseconds := py_round ((sec - inject_Z (trunc sec)) * 100)%Q in
  let '(minutes, seconds, centiseconds) :=
    if (centiseconds =? 100)%Z then
      let seconds := (seconds + 1)%Z in
      if (seconds =? 60)%Z then ((minutes + 1)%Z, 0%Z, 0%Z)
      else (minutes, seconds, 0%Z)
    else (minutes, seconds, centiseconds) in
  fmt_02d minutes ++ s2l ":" ++ fmt_02d seconds ++ s2l "." ++
  fmt_02d centiseconds.

(* ================================================================== *)
(** * Lyric parser *)
(* ================================================================== *)

(** A lyric entry: the dict with keys ["start"], ["end"] and ["text"]. *)
Record entry : Type := mkEntry {
  start : Q;
  end_ : Q;
  text : str
}.

(** One match of [time_pattern],
    [\[(\d{1,2}):(\d{2})\.(\d{2,3})\]], at the head of [s]: the three
    groups and the number of characters matched.  After the first minute
    digit the next character is a digit or the colon, and after the second
    fraction digit it is a digit or the bracket, so the greedy choice never
    has to be undone. *)
Definition match_seconds_frac (m : str) (len_m : nat) (s : str)
  : option (str * str * str * nat) :=
  match s with
  | c0 :: s1 :: s2 :: c1 :: f1 :: f2 :: r =>
      if Ascii.eqb c0 ":" && is_digit s1 && is_digit s2 && Ascii.eqb c1 "."
         && is_digit f1 && is_digit f2
      then match r with
           | c2 :: r' =>
               if Ascii.eqb c2 "]"
               then Some (m, [s1; s2], [f1; f2], (len_m + 8)%nat)
               else if is_digit c2
                    then match r' with
                         | c3 :: _ =>
                             if Ascii.eqb c3 "]"
                             then Some (m, [s1; s2], [f1; f2; c2],
                                        (len_m + 9)%nat)
                             else None
                         | [] => None
                         end
                    else None
           | [] => None
           end
      else None
  | _ => None
  end.

Definition match_time (s : str) : option (str * str * str * nat) :=
  match s with
  | c0 :: m1 :: r =>
      if Ascii.eqb c0 "[" && is_digit m1
      then match r with
           | m2 :: r' =>
               if is_digit m2 then match_seconds_frac [m1; m2] 2 r'
               else match_seconds_frac [m1] 1 r
           | [] => None
           end
      else None
  | _ => None
  end.

(** [time_pattern.findall(line)] together with [time_pattern.sub('', line)]:
    the matches from left to right, not overlapping, and the text that is
    left.  [skip] counts the characters of the current match still to be
    passed over. *)
Fixpoint scan_times (skip : nat) (s : str) : list (str * str * str) * str :=
  match s with
  | [] => ([], [])
  | c :: s' =>
      match skip with
      | S k => scan_times k s'
      | O =>
          match match_time s with
          | Some (m, sec, ms, n) =>
              let '(ts, rest) := scan_times (n - 1) s' in
              ((m, sec, ms) :: ts, rest)
          | None =>
              let '(ts, rest) := scan_times 0 s' in
              (ts, c :: rest)
          end
      end
  end.

Definition findall_times (line : str) : list (str * str * str) :=
  fst (scan_times 0 line).
Definition sub_times (line : str) : str := snd (scan_times 0 line).

(** [meta_pattern.search(line)] for
    [^\[(ti|ar|al|by|offset|re|title|artist|album):] with [re.IGNORECASE]:
    the line starts with an opening bracket, one of the tags in any case,
    and a colon. *)
Definition meta_tags : list str :=
  map s2l ["ti"; "ar"; "al"; "by"; "offset"; "re"; "title"; "artist";
           "album"]%string.

Definition is_meta (line : str) : bool :=
  existsb (fun tag => startswith (s2l "[" ++ tag ++ s2l ":") (lower line))
          meta_tags.

(** [minutes * 60 + seconds + frac] of one timestamp match. *)
Definition stamp_seconds (t : str * str * str) : Q :=
  let '(m, s, ms) := t in
  let minutes := digits_value m in
  let seconds := digits_value s in
  let frac :=
    if (List.length ms =? 2)%nat then (inject_Z (digits_value ms) / 100)%Q
    else (inject_Z (digits_value ms) / 1000)%Q in
  (inject_Z (minutes * 60 + seconds) + frac)%Q.

Definition new_entry (text : str) (t : str * str * str) : entry :=
  let start_time := stamp_seconds t in
  mkEntry start_time (start_time + 3.0) text.

(** [lyrics[-1]["text"] += "\n" + text] *)
Fixpoint append_to_last (lyrics : list entry) (more : str) : list entry :=
  match lyrics with
  | [] => []
  | [e] => [mkEntry (start e) (end_ e) (text e ++ LF :: more)]
  | e :: rest => e :: append_to_last rest more
  end.

(** One iteration of the loop over the lines. *)
Definition parse_line (lyrics : list entry) (line : str) : list entry :=
  let line := strip line in
  match line with
  | [] => lyrics
  | _ =>
      if is_meta line then lyrics
      else
        let timestamps := findall_times line in
        let text := strip (sub_times line) in
        match timestamps with
        | [] =>
            match lyrics, text with
            | _ :: _, _ :: _ => append_to_last lyrics text
            | _, _ => lyrics
            end
        | _ => lyrics ++ map (new_entry text) timestamps
        end
  end.

(** [lyrics.sort(key=lambda x: x["start"])]: the sort is stable, so the
    result is the one of a stable insertion sort.  [sort_by_start] inserts
    the entries from the last one to the first, so an entry is placed
    before the entries of the same start, which come later in the file. *)
Fixpoint insert_by_start (e : entry) (l : list entry) : list entry :=
  match l with
  | [] => [e]
  | x :: l' =>
      if Qle_bool (start e) (start x) then e :: l
      else x :: insert_by_start e l'
  end.

Definition sort_by_start (l : list entry) : list entry :=
  fold_right insert_by_start [] l.

(** [for i in range(len(lyrics) - 1): lyrics[i]["end"] = lyrics[i+1]["start"]] *)
Fixpoint update_ends (lyrics : list entry) : list entry :=
  match lyrics with
  | e :: ((n :: _) as rest) =>
      mkEntry (start e) (start n) (text e) :: update_ends rest
  | _ => lyrics
  end.

Definition estimated_duration (e : entry) : Q :=
  Qmax 2.0 (inject_Z (Z.of_nat (List.length (text e))) * 0.1).

(** The last entry: [if last["end"] <= last["start"]: ...] *)
Fixpoint estimate_last (lyrics : list entry) : list entry :=
  match lyrics with
  | [] => []
  | [last] =>
      if Qle_bool (end_ last) (start last)
      then [mkEntry (start last) (start last + estimated_duration last)
                    (text last)]
      else [last]
  | e :: rest => e :: estimate_last rest
  end.

(** The body of [parse_lrc] once the file has been read. *)
Definition parse_lrc_text (raw : str) : list entry :=
  let lines := splitlines (strip raw) in
  let lyrics := fold_left parse_line lines [] in
  estimate_last (update_ends (sort_by_start lyrics)).

(* ================================================================== *)
(** * Text wrapper *)
(* ================================================================== *)

Definition len (s : str) : Z := Z.of_nat (List.length s).

(** The loop over the words of one over-long line: [current_line] is the
    line being filled, the result is what gets appended to [wrapped]. *)
Fixpoint wrap_words (width : Z) (current_line : str) (words : list str)
  : list str :=
  match words with
  | [] => match current_line with [] => [] | _ => [current_line] end
  | word :: rest =>
      let candidate :=
        match current_line with
        | [] => word
        | _ => current_line ++ s2l " " ++ word
        end in
      if (len candidate <=? width)%Z then wrap_words width candidate rest
      else match current_line with
           | [] => wrap_words width word rest
           | _ => current_line :: wrap_words width word rest
           end
  end.

(** [wrap_text(text, width)] *)
Definition wrap_text (text : str) (width : Z) : list str :=
  flat_map (fun line =>
              if (len line <=? width)%Z then [line]
              else wrap_words width [] (split_ws line))
           (split_on LF text).

(* ================================================================== *)
(** * Animation delay *)
(* ================================================================== *)

Definition effect_is (effect : str) (name : string) : bool :=
  str_eqb effect (s2l name).

(** [get_animation_delay(effect, base_speed, char_index)].  [rnd] is the
    value [random.random()] draws when the branch asks for one. *)
Definition get_animation_delay (effect : str) (base_speed : R)
  (char_index : Z) (rnd : R) : R :=
  if effect_is effect "bounce" then
    (base_speed * (0.8 + rnd * 0.4))%R
  else if effect_is effect "wave" then
    (base_speed * (1.0 + 0.3 * sin (IZR char_index * 0.5)))%R
  else if effect_is effect "swing" then
    (base_speed * (1.0 + 0.2 * sin (IZR char_index * 0.3)))%R
  else if effect_is effect "shake" || effect_is effect "heavy_shake" then
    if (char_index mod 3 =? 0)%Z then (base_speed * 0.5)%R else base_speed
  else if effect_is effect "glitch" then
    (base_speed * (0.5 + rnd * 1.0))%R
  else if effect_is effect "vibrate" then
    (base_speed * (1.0 + 0.15 * sin (IZR char_index * 0.7)))%R
  else if effect_is effect "salsa" then
    (base_speed * (1.0 + 0.25 * sin (IZR char_index * 0.4)))%R
  else if effect_is effect "reggae_wave" then
    (base_speed * (1.0 + 0.2 * sin (IZR char_index * 0.35 + 0.5)))%R
  else base_speed.

(* ================================================================== *)
(** * Configuration *)
(* ================================================================== *)

(** One value of [config["genres"]]. *)
Record genre : Type := mkGenre {
  color : str;
  speed : Q;
  effect : str;
  description : str
}.

(** The configuration dict.  [genres] keeps the insertion order of the
    dict, which is the order [main] lists the genres in. *)
Record config : Type := mkConfig {
  wrap_width : Z;
  margin_between_lines : Q;
  block_margin : Q;
  auto_close_seconds : Q;
  loading_opening : Q;
  loading_ending : Q;
  lrc_start_minute : Q;
  lrc_start_second : Q;
  show_time_display : bool;
  default_genre : str;
  genres : list (str * genre)
}.

(** [genres[key]], and [key in genres] as [lookup_genre] being [Some]. *)
Fixpoint lookup_genre (key : str) (gs : list (str * genre)) : option genre :=
  match gs with
  | [] => None
  | (k, g) :: rest => if str_eqb k key then Some g else lookup_genre key rest
  end.

Definition esc (code : string) : str := ESC :: s2l code.

Definition YELLOW : str := esc "[93m".
Definition RED : str := esc "[91m".
Definition GREEN : str := esc "[92m".
Definition GRAY : str := esc "[90m".
Definition BOLD : str := esc "[1m".
Definition DIM : str := esc "[2m".
Definition RESET : str := esc "[0m".

(** The dash of the descriptions lies outside Latin-1 and stands here as
    its UTF-8 bytes; descriptions are only ever printed. *)
Definition default_genres : list (str * genre) :=
  [ (s2l "rnb_soul", mkGenre (esc "[95m") 0.035 (s2l "smooth_fade")
       (s2l "R&B / Soul — smooth, warm, slow fade-in"));
    (s2l "jazz", mkGenre (esc "[94m") 0.06 (s2l "swing")
       (s2l "Jazz — swing timing, subtle wander"));
    (s2l "blues", mkGenre (esc "[34m") 0.055 (s2l "wave")
       (s2l "Blues — slow, mournful wave"));
    (s2l "childrens", mkGenre (esc "[96m") 0.045 (s2l "bounce")
       (s2l "Children's — playful bounce and bright color"));
    (s2l "classical", mkGenre (esc "[97m") 0.085 (s2l "elegant_fade")
       (s2l "Classical — slow and stately"));
    (s2l "country", mkGenre (esc "[33m") 0.05 (s2l "typewriter")
       (s2l "Country — clear typewriter style"));
    (s2l "easy_listening", mkGenre (esc "[37m") 0.065 (s2l "smooth")
       (s2l "Easy Listening — mellow and unobtrusive"));
    (s2l "electronic", mkGenre (esc "[96m") 0.01 (s2l "glitch")
       (s2l "Electronic — fast, glitchy, bright"));
    (s2l "folk_world", mkGenre (esc "[92m") 0.05 (s2l "vibrate")
       (s2l "Folk / World — organic, gentle vibrato"));
    (s2l "hiphop", mkGenre (esc "[93m") 0.012 (s2l "shake")
       (s2l "Hip Hop — smooth, rhythmic, punchy"));
    (s2l "rap", mkGenre (esc "[91m") 0.008 (s2l "heavy_shake")
       (s2l "Rap — fast, aggressive, intense"));
    (s2l "holiday_religious", mkGenre (esc "[33m") 0.04 (s2l "glow")
       (s2l "Holiday / Religious — warm glow"));
    (s2l "latin", mkGenre (esc "[91m") 0.035 (s2l "salsa")
       (s2l "Latin — rhythmic, lively"));
    (s2l "pop", mkGenre (esc "[95m") 0.02 (s2l "bounce")
       (s2l "Pop — bright, per-word bounce"));
    (s2l "reggae", mkGenre (esc "[92m") 0.045 (s2l "reggae_wave")
       (s2l "Reggae — laid-back, offbeat wave"));
    (s2l "rock", mkGenre (esc "[31m") 0.013 (s2l "heavy_shake")
       (s2l "Rock — aggressive, strong hits"));
    (s2l "soundtrack_library", mkGenre (esc "[97m") 0.05 (s2l "cinematic")
       (s2l "Soundtrack / Library — cinematic, neutral")) ].

Definition DEFAULT_CONFIG : config :=
  mkConfig 48 0.15 0.4 5.0 300 300 0 0 true (s2l "hiphop") default_genres.

(* ================================================================== *)
(** * Effects: output, sleeping and the monotonic clock *)
(* ================================================================== *)

(** One word of the export, the dict [wt]. *)
Record word_timing : Type := mkWord {
  word : str;
  w_start : Q;
  w_end : Q;
  w_start_time : str;
  w_end_time : str
}.

(** One element of [result["captions"]]. *)
Record caption_timing : Type := mkCaption {
  c_start : Q;
  c_end : Q;
  c_start_time : str;
  c_end_time : str;
  c_text : str;
  c_words : list word_timing
}.

(** The dict [result] of [export_json]. *)
Record export : Type := mkExport {
  words : list word_timing;
  captions : list caption_timing
}.

(** What the program does to the outside, in order.  Calls of the
    cosmetic routines and of [animate_text] are recorded with their
    arguments. *)
Inductive event : Type :=
| Print (s : str)
| Sleep (d : Q)
| AnimateText (text color : str) (speed : Q) (effect : str)
| AnimateLoading (message : str) (duration_ms : Q)
| AnimateCompletion (completion_duration_ms : Z)
| Banner
| JsonDump (output_file : str) (result : export).

(** The world: [time.monotonic()] returns [clock ticks] at its
    [ticks]-th call, whatever the clock does between two calls; [out] is
    the trace so far. *)
Record world : Type := mkWorld {
  clock : nat -> Q;
  ticks : nat;
  out : list event
}.

Definition IO (A : Type) : Type := world -> result A * world.

Definition ret {A} (a : A) : IO A := fun w => (Ok a, w).

Definition raise {A} (e : exn) : IO A := fun w => (Raise e, w).

Definition iobind {A B} (c : IO A) (k : A -> IO B) : IO B :=
  fun w => match c w with
           | (Ok a, w') => k a w'
           | (Raise e, w') => (Raise e, w')
           end.

Definition lift {A} (r : result A) : IO A := fun w => (r, w).

Declare Scope io_scope.
Delimit Scope io_scope with io.
Notation "x <- c ;; k" := (iobind c (fun x => k))
  (at level 61, c at next level, right associativity) : io_scope.
Notation "c ;; k" := (iobind c (fun _ => k))
  (at level 61, right associativity) : io_scope.

Definition emit (e : event) : IO unit :=
  fun w => (Ok tt, mkWorld (clock w) (ticks w) (out w ++ [e])).

(** [print(s)] writes [s] and a newline, [print(s, end="")] only [s]. *)
Definition print (s : str) : IO unit := emit (Print (s ++ [LF])).
Definition print_noend (s : str) : IO unit := emit (Print s).

(** [time.sleep(d)] raises on a negative duration. *)
Definition sleep (d : Q) : IO unit :=
  if Qlt_le_dec d 0 then raise ValueError else emit (Sleep d).

(** [time.monotonic()] *)
Definition monotonic : IO Q :=
  fun w => (Ok (clock w (ticks w)), mkWorld (clock w) (S (ticks w)) (out w)).

(** [sys.exit(code)] *)
Definition sys_exit {A} (code : Z) : IO A := raise (SystemExit code).

Definition when (b : bool) (c : IO unit) : IO unit :=
  if b then c else ret tt.

(** [for x in l: body(x)] *)
Fixpoint for_each {A} (l : list A) (body : A -> IO unit) : IO unit :=
  match l with
  | [] => ret tt
  | x :: rest => iobind (body x) (fun _ => for_each rest body)
  end.

(** [enumerate(l)] *)
Definition enumerate {A} (l : list A) : list (nat * A) :=
  combine (seq 0 (List.length l)) l.

Definition run {A} (c : IO A) (clk : nat -> Q) : result A * list event :=
  let '(r, w) := c (mkWorld clk 0 []) in (r, out w).

(* ================================================================== *)
(** * Word-timing exporter *)
(* ================================================================== *)

(** The timings of the words of one caption, the list [word_timings]. *)
Definition caption_words (caption : entry) : list word_timing :=
  let words := split_ws (text caption) in
  let duration := Qmax 0.0001 (end_ caption - start caption) in
  let step :=
    match words with
    | [] => duration
    | _ => (duration / inject_Z (Z.of_nat (List.length words)))%Q
    end in
  map (fun '(idx, word) =>
         let word_start :=
           (start caption + inject_Z (Z.of_nat idx) * step)%Q in
         let word_end := (word_start + step)%Q in
         mkWord word word_start word_end
                (seconds_to_lrc_time word_start)
                (seconds_to_lrc_time word_end))
      (enumerate words).

(** The dict [result] that [export_json] builds. *)
Definition export_result (lyrics : list entry) : export :=
  mkExport
    (flat_map caption_words lyrics)
    (map (fun caption =>
            mkCaption (start caption) (end_ caption)
                      (seconds_to_lrc_time (start caption))
                      (seconds_to_lrc_time (end_ caption))
                      (text caption) (caption_words caption))
         lyrics).

(** [export_json(lyrics, output_file, config)]; the function does not
    look at [config]. *)
Definition export_json (lyrics : list entry) (output_file : str)
  (cfg : config) : IO unit :=
  (emit (JsonDump output_file (export_result lyrics)) ;;
   print (GREEN ++ s2l "[OK] JSON exported ke: " ++ output_file ++ RESET))%io.

(* ================================================================== *)
(** * Schedule printer and realtime scheduler *)
(* ================================================================== *)

(** [format_time_display(seconds, config)] *)
Definition format_time_display (seconds : Q) (cfg : config) : str :=
  let start_minute := lrc_start_minute cfg in
  let start_second := lrc_start_second cfg in
  let start_offset := (start_minute * 60 + start_second)%Q in
  let total_seconds := (seconds + start_offset)%Q in
  let minutes := trunc (floordiv total_seconds 60) in
  let secs := trunc (pymod total_seconds 60) in
  fmt_02d minutes ++ s2l ":" ++ fmt_02d secs.

(** [start_time if start_time is not None else 0.0] *)
Definition baseline_of (start_time : option Q) : Q :=
  match start_time with
  | Some t => t
  | None => 0.0
  end.

Definition first_start (lyrics : list entry) : Q :=
  match lyrics with
  | e :: _ => start e
  | [] => 0
  end.

Definition empty_lrc_message : str :=
  RED ++ s2l "[ERROR] LRC kosong atau format salah." ++ RESET.

(** The start [print_schedule] reports for [line]: [adjusted_start]. *)
Definition adjusted_start (first_time baseline offset speed_multiplier : Q)
  (line : entry) : result Q :=
  (relative_start <- py_div (start line - first_time) speed_multiplier ;;
   Ok (baseline + relative_start + offset)%Q)%result.

Definition adjusted_end (first_time baseline offset speed_multiplier : Q)
  (line : entry) : result Q :=
  (relative_end <- py_div (end_ line - first_time) speed_multiplier ;;
   Ok (baseline + relative_end + offset)%Q)%result.

(** The start [play_realtime] aims at for [line]: [absolute_start]. *)
Definition absolute_start (first_time baseline offset speed_multiplier : Q)
  (line : entry) : result Q :=
  (relative_start <- py_div (start line - first_time) speed_multiplier ;;
   Ok (baseline + relative_start + offset)%Q)%result.

(** The per-character delay of one wrapped sub-line, from the clock
    reading [now] taken just before it. *)
Definition current_drift (now playback_start absolute_start : Q) : Q :=
  ((now - playback_start) - absolute_start)%Q.

Definition current_speed (base_speed drift : Q) : Q :=
  if Qlt_le_dec 0 drift then
    let catchup := Qmin 3.0 (1.0 + drift * 2.0) in
    Qmax (base_speed / catchup) 0.001
  else base_speed.

(** [s[a:b]] for [0 <= a <= b] *)
Definition slice (s : str) (a b : nat) : str := firstn (b - a) (skipn a s).

(** The spans of [re.finditer(r"\([^)]*\)", s)]: each opening parenthesis
    up to the next closing one; an opening parenthesis that is never
    closed gives no span.  [opened] is the position of the opening
    parenthesis of the span being read. *)
Fixpoint paren_spans (pos : nat) (opened : option nat) (s : str)
  : list (nat * nat) :=
  match s with
  | [] => []
  | c :: s' =>
      match opened with
      | None =>
          if Ascii.eqb c "(" then paren_spans (S pos) (Some pos) s'
          else paren_spans (S pos) None s'
      | Some i =>
          if Ascii.eqb c ")" then (i, S pos) :: paren_spans (S pos) None s'
          else paren_spans (S pos) (Some i) s'
      end
  end.

Section Playback.

Variable genre_config : genre.
Variable cfg : config.

Local Open Scope io_scope.

(** [animate_text(text, color, speed, effect)]: the call is recorded with
    its arguments.  Its body prints the characters of [text] and sleeps
    [get_animation_delay(effect, speed, i)] after each of them, [speed]
    times a factor between 0.5 and 1.5: it returns whenever [speed] is
    not negative, which [no_negative_wait] states of a recorded call. *)
Definition animate_text (text color : str) (speed : Q) (effect : str)
  : IO unit :=
  emit (AnimateText text color speed effect).

(** The loop over the parenthesised spans of a wrapped line; returns
    [last_idx]. *)
Fixpoint animate_spans (wrapped_line color dim_color : str) (speed : Q)
  (effect : str) (last_idx : nat) (spans : list (nat * nat)) : IO nat :=
  match spans with
  | [] => ret last_idx
  | (a, b) :: rest =>
      when (last_idx <? a)%nat
           (animate_text (slice wrapped_line last_idx a) color speed effect) ;;
      animate_text (slice wrapped_line a b) dim_color speed effect ;;
      animate_spans wrapped_line color dim_color speed effect b rest
  end.

(** The body of the loop over the wrapped lines. *)
Definition play_wrapped_line (base_speed playback_start abs_start : Q)
  (wrapped_line : str) : IO unit :=
  now <- monotonic ;;
  let speed := current_speed base_speed
                 (current_drift now playback_start abs_start) in
  let trimmed_line := strip wrapped_line in
  let dim_color := DIM ++ color genre_config in
  (if startswith (s2l "-") trimmed_line then
     animate_text wrapped_line dim_color speed (effect genre_config)
   else
     let spans := paren_spans 0 None wrapped_line in
     last_idx <- animate_spans wrapped_line (color genre_config) dim_color
                   speed (effect genre_config) 0 spans ;;
     match spans with
     | [] => animate_text wrapped_line (color genre_config) speed
               (effect genre_config)
     | _ => when (last_idx <? List.length wrapped_line)%nat
              (animate_text (skipn last_idx wrapped_line)
                 (color genre_config) speed (effect genre_config))
     end) ;;
  print [] ;;
  sleep (margin_between_lines cfg).

(** The body of the loop over the entries; [next] is [lyrics[idx + 1]]
    when [idx < len(lyrics) - 1]. *)
Definition play_entry (first_time baseline offset speed_multiplier : Q)
  (wrap_w : Z) (base_speed playback_start : Q) (line : entry)
  (next : option entry) : IO unit :=
  abs_start <- lift (absolute_start first_time baseline offset
                       speed_multiplier line) ;;
  now <- monotonic ;;
  let elapsed := (now - playback_start)%Q in
  let wait_time := (abs_start - elapsed)%Q in
  when (if Qlt_le_dec 0 wait_time then true else false) (sleep wait_time) ;;
  when (show_time_display cfg)
       (print (GRAY ++ s2l "[" ++ format_time_display abs_start cfg ++
               s2l "]" ++ RESET)) ;;
  for_each (split_on LF (text line)) (fun text_line =>
    for_each (wrap_text text_line wrap_w)
      (play_wrapped_line base_speed playback_start abs_start)) ;;
  print [] ;;
  match next with
  | Some next_line =>
      next_absolute_start <- lift (absolute_start first_time baseline
                                     offset speed_multiplier next_line) ;;
      now <- monotonic ;;
      let elapsed := (now - playback_start)%Q in
      let remaining := (next_absolute_start - elapsed)%Q in
      let extra_sleep := Qmin (block_margin cfg) (Qmax 0.0 remaining) in
      when (if Qlt_le_dec 0 extra_sleep then true else false)
           (sleep extra_sleep)
  | None =>
      when (if Qlt_le_dec 0 (block_margin cfg) then true else false)
           (sleep (block_margin cfg))
  end.

(** The loop over [enumerate(lyrics)]. *)
Fixpoint play_entries (first_time baseline offset speed_multiplier : Q)
  (wrap_w : Z) (base_speed playback_start : Q) (lyrics : list entry)
  : IO unit :=
  match lyrics with
  | [] => ret tt
  | line :: rest =>
      play_entry first_time baseline offset speed_multiplier wrap_w
        base_speed playback_start line (hd_error rest) ;;
      play_entries first_time baseline offset speed_multiplier wrap_w
        base_speed playback_start rest
  end.

(** [play_realtime(lyrics, genre_config, config, offset, start_time,
    wrap_width, speed_multiplier)] *)
Definition play_realtime (lyrics : list entry) (offset : Q)
  (start_time : option Q) (wrap_width_arg : option Z)
  (speed_multiplier : Q) : IO unit :=
  match lyrics with
  | [] => print empty_lrc_message
  | _ =>
      base_speed <- lift (py_div (speed genre_config) speed_multiplier) ;;
      let wrap_w := match wrap_width_arg with
                    | Some w => w
                    | None => wrap_width cfg
                    end in
      let first_time := first_start lyrics in
      let baseline := baseline_of start_time in
      playback_start <- monotonic ;;
      play_entries first_time baseline offset speed_multiplier wrap_w
        base_speed playback_start lyrics
  end.

(** [repr] of a float, as an f-string renders it. *)
Variable repr_float : Q -> str.

(** The body of the loop of [print_schedule]. *)
Definition print_schedule_entry (first_time baseline offset
  speed_multiplier : Q) (line : entry) : IO unit :=
  a_start <- lift (adjusted_start first_time baseline offset
                     speed_multiplier line) ;;
  _ <- lift (adjusted_end first_time baseline offset speed_multiplier
               line) ;;
  let time_display := format_time_display a_start cfg in
  print (s2l "[" ++ seconds_to_lrc_time a_start ++ s2l "] (" ++
         time_display ++ s2l ")") ;;
  for_each (split_on LF (text line))
           (fun text_line => print (s2l "  " ++ text_line)) ;;
  print [].

(** [print_schedule(lyrics, genre_config, config, offset, start_time,
    speed_multiplier)] *)
Definition print_schedule (lyrics : list entry) (offset : Q)
  (start_time : option Q) (speed_multiplier : Q) : IO unit :=
  match lyrics with
  | [] => print empty_lrc_message
  | _ =>
      let first_time := first_start lyrics in
      let baseline := baseline_of start_time in
      print (LF :: YELLOW ++ s2l "=== SCHEDULE LIRIK ===" ++ RESET ++ [LF]) ;;
      when (negb (Qeq_bool speed_multiplier 1.0))
           (print (YELLOW ++ s2l "Speed multiplier: " ++
                   repr_float speed_multiplier ++ s2l "x" ++ RESET ++ [LF])) ;;
      for_each lyrics
               (print_schedule_entry first_time baseline offset
                  speed_multiplier)
  end.

End Playback.

(* ================================================================== *)
(** * The program *)
(* ================================================================== *)

(** The namespace [argparse] returns. *)
Record args : Type := mkArgs {
  a_file : str;
  a_genre : option str;
  a_realtime : bool;
  a_offset : option str;
  a_start : option str;
  a_wrap_width : option Z;
  a_auto_close : option Q;
  a_export_json : option str;
  a_speed : option Q;
  a_banner : bool
}.

(** Truthiness of an optional string: [None] and [""] are false. *)
Definition truthy (o : option str) : option str :=
  match o with
  | Some (_ :: _) => o
  | _ => None
  end.

(** [(args.genre or config.get("default_genre", "hiphop")).lower()] *)
Definition genre_key (a : args) (cfg : config) : str :=
  lower match truthy (a_genre a) with
        | Some g => g
        | None => default_genre cfg
        end.

(** Reading a file: its text, [FileNotFoundError], or another exception
    with its message. *)
Inductive read_outcome : Type :=
| FileText (raw : str)
| FileNotFound
| ReadError (message : str).

Section Main.

Variable py_float : str -> result Q.
Variable repr_float : Q -> str.

(** The file system: what opening and reading a file gives. *)
Variable read_file : str -> read_outcome.

Local Open Scope io_scope.

(** [parse_lrc(file)] *)
Definition parse_lrc (file : str) : IO (list entry) :=
  match read_file file with
  | FileNotFound =>
      print (RED ++ s2l "[ERROR] File tidak ditemukan: " ++ file ++ RESET) ;;
      sys_exit 1
  | ReadError e =>
      print (RED ++ s2l "[ERROR] Error membaca file: " ++ e ++ RESET) ;;
      sys_exit 1
  | FileText raw => ret (parse_lrc_text raw)
  end.

(** The lines [main] prints for an unknown genre, before it exits. *)
Definition genre_listing (cfg : config) : IO unit :=
  for_each (genres cfg)
           (fun '(key, genre_data) =>
              print (s2l "  " ++ ljust 20 " " key ++ s2l " - " ++
                     description genre_data)).

Definition optional_time (o : option str) : IO (option Q) :=
  match truthy o with
  | Some t => v <- lift (parse_time_input py_float t) ;; ret (Some v)
  | None => ret None
  end.

(** [main()], from the parsed arguments [a] and the configuration [cfg]
    that [load_config()] returned.  No interrupt arrives during the
    playback, so the [except KeyboardInterrupt] branch is not taken. *)
Definition main (a : args) (cfg : config) : IO unit :=
  let genre_key := genre_key a cfg in
  match lookup_genre genre_key (genres cfg) with
  | None =>
      print (RED ++ s2l "[ERROR] Genre '" ++ genre_key ++
             s2l "' tidak ditemukan." ++ RESET ++ [LF]) ;;
      print (YELLOW ++ s2l "Genre yang tersedia:" ++ RESET) ;;
      genre_listing cfg ;;
      sys_exit 1
  | Some genre_config =>
      offset <- optional_time (a_offset a) ;;
      let offset := match offset with Some v => v | None => 0.0 end in
      start_time <- optional_time (a_start a) ;;
      let speed_multiplier :=
        match a_speed a with Some v => v | None => 1.0 end in
      (if Qlt_le_dec 0 speed_multiplier then ret tt
       else
         print (RED ++ s2l "[ERROR] Speed multiplier harus > 0" ++ RESET) ;;
         sys_exit 1) ;;
      when (a_banner a) (emit Banner) ;;
      emit (AnimateLoading (s2l "TokTune @username") (loading_opening cfg)) ;;
      lyrics <- parse_lrc (a_file a) ;;
      match lyrics with
      | [] => print empty_lrc_message ;; sys_exit 1
      | _ => ret tt
      end ;;
      match truthy (a_export_json a) with
      | Some output_file => export_json lyrics output_file cfg
      | None => ret tt
      end ;;
      (if a_realtime a then
         play_realtime genre_config cfg lyrics offset start_time
           (a_wrap_width a) speed_multiplier
       else
         print_schedule cfg repr_float lyrics offset start_time
           speed_multiplier) ;;
      let completion_ms :=
        trunc (match a_auto_close a with
               | Some v => v
               | None => loading_ending cfg
               end * 1000) in
      emit (AnimateCompletion completion_ms)
  end.

End Main.

(* ================================================================== *)
(** * Vocabulary of the statements *)
(* ================================================================== *)

(** [c] always ends with [r], having written [evs] and read no clock. *)
Definition yields {A} (c : IO A) (r : result A) (evs : list event) : Prop :=
  forall w, c w = (r, mkWorld (clock w) (ticks w) (out w ++ evs)).

(** What [c] adds to the trace when started in [w]. *)
Definition emitted {A} (c : IO A) (w : world) : list event :=
  skipn (List.length (out w)) (out (snd (c w))).

(** What [print_schedule] writes before its loop. *)
Definition schedule_preamble (repr_float : Q -> str) (speed_multiplier : Q)
  : list event :=
  Print ((LF :: YELLOW ++ s2l "=== SCHEDULE LIRIK ===" ++ RESET ++ [LF])
         ++ [LF])
  :: (if Qeq_bool speed_multiplier 1.0 then []
      else [Print ((YELLOW ++ s2l "Speed multiplier: " ++
                    repr_float speed_multiplier ++ s2l "x" ++ RESET ++ [LF])
                   ++ [LF])]).

(** What [print_schedule] writes for an entry whose reported start is
    [t]. *)
Definition schedule_block (cfg : config) (tl : Q * entry) : list event :=
  let '(t, line) := tl in
  Print ((s2l "[" ++ seconds_to_lrc_time t ++ s2l "] (" ++
          format_time_display t cfg ++ s2l ")") ++ [LF])
  :: map (fun text_line => Print ((s2l "  " ++ text_line) ++ [LF]))
         (split_on LF (text line))
  ++ [Print [LF]].

(** The [animate_text] calls of the loop over the parenthesised spans,
    and the final [last_idx]. *)
Fixpoint span_calls (wrapped_line color dim_color : str) (speed : Q)
  (effect : str) (last_idx : nat) (spans : list (nat * nat))
  : list event * nat :=
  match spans with
  | [] => ([], last_idx)
  | (a, b) :: rest =>
      let '(evs, last) :=
        span_calls wrapped_line color dim_color speed effect b rest in
      ((if (last_idx <? a)%nat
        then [AnimateText (slice wrapped_line last_idx a) color speed effect]
        else [])
       ++ AnimateText (slice wrapped_line a b) dim_color speed effect :: evs,
       last)
  end.

(** The [animate_text] calls for one wrapped line at a given delay. *)
Definition line_calls (g : genre) (wrapped_line : str) (speed : Q)
  : list event :=
  let dim_color := DIM ++ color g in
  if startswith (s2l "-") (strip wrapped_line)
  then [AnimateText wrapped_line dim_color speed (effect g)]
  else
    let spans := paren_spans 0 None wrapped_line in
    let '(evs, last_idx) :=
      span_calls wrapped_line (color g) dim_color speed (effect g) 0 spans in
    evs ++ match spans with
           | [] => [AnimateText wrapped_line (color g) speed (effect g)]
           | _ => if (last_idx <? List.length wrapped_line)%nat
                  then [AnimateText (skipn last_idx wrapped_line) (color g)
                          speed (effect g)]
                  else []
           end.

Definition is_animate_at (speed : Q) (e : event) : Prop :=
  exists t c ef, e = AnimateText t c speed ef.

(** Every entry the loop creates carries the placeholder end. *)
Definition has_placeholder (e : entry) : Prop := end_ e = start e + 3.0.

Definition starts_le (a b : entry) : Prop := start a <= start b.

(** After the finalization of a sorted list of placeholder entries: the
    shape of the list, entry by entry. *)
Inductive finalized : list entry -> list entry -> Prop :=
| finalized_nil : finalized [] []
| finalized_last (e : entry) : finalized [e] [e]
| finalized_cons (e n : entry) (rest out : list entry) :
    finalized (n :: rest) out ->
    finalized (e :: n :: rest)
              (mkEntry (start e) (start n) (text e) :: out).

(** The minutes, seconds and centiseconds [seconds_to_lrc_time] prints. *)
Definition lrc_fields (sec : Q) : Z * Z * Z :=
  let sec := if Qlt_le_dec sec 0 then 0%Q else sec in
  let minutes := trunc (floordiv sec 60) in
  let seconds := trunc (pymod sec 60) in
  let centiseconds := py_round ((sec - inject_Z (trunc sec)) * 100)%Q in
  if (centiseconds =? 100)%Z then
    let seconds := (seconds + 1)%Z in
    if (seconds =? 60)%Z then ((minutes + 1)%Z, 0%Z, 0%Z)
    else (minutes, seconds, 0%Z)
  else (minutes, seconds, centiseconds).

(** [ds] is a decimal numeral of [n]: digits only, at least one. *)
Definition numeral (ds : str) (n : Z) : Prop :=
  ds <> [] /\ Forall (fun c => is_digit c = true) ds /\ digits_value ds = n.

(* ================================================================== *)
(** * Further vocabulary *)
(* ================================================================== *)

(** The number of entries a line of the file contributes. *)
Definition stamp_count (line : str) : nat :=
  if is_meta (strip line) then 0%nat
  else List.length (findall_times (strip line)).

(** A valid match of [time_pattern]: the shapes of the three groups. *)
Definition stamp_groups (t : str * str * str) : Prop :=
  let '(m, s, ms) := t in
  Forall (fun c => is_digit c = true) m
  /\ Forall (fun c => is_digit c = true) s
  /\ Forall (fun c => is_digit c = true) ms
  /\ (List.length m = 1 \/ List.length m = 2)%nat
  /\ List.length s = 2%nat
  /\ (List.length ms = 2 \/ List.length ms = 3)%nat.

(** The text a match of [time_pattern] covers. *)
Definition stamp_text (t : str * str * str) : str :=
  let '(m, s, ms) := t in
  s2l "[" ++ m ++ s2l ":" ++ s ++ s2l "." ++ ms ++ s2l "]".

(** The characters [strip("[]")] removes. *)
Definition is_bracket (c : ascii) : Prop := c = "["%char \/ c = "]"%char.

(** The starts a timestamp can denote. *)
Definition start_in_range (e : entry) : Prop :=
  0 <= start e /\ start e < 6040.

(** A word: not empty and free of whitespace. *)
Definition is_word (w : str) : Prop :=
  w <> [] /\ Forall (fun c => is_space c = false) w.

(** The text an [animate_text] call types; other events type none. *)
Definition event_text (e : event) : str :=
  match e with
  | AnimateText t _ _ _ => t
  | _ => []
  end.

(** Spans that follow one another between [lo] and [hi]. *)
Inductive spans_in_order : nat -> list (nat * nat) -> nat -> Prop :=
| spans_done (lo hi : nat) : (lo <= hi)%nat -> spans_in_order lo [] hi
| spans_next (lo a b hi : nat) (rest : list (nat * nat)) :
    (lo <= a)%nat -> (a <= b)%nat -> (b <= hi)%nat ->
    spans_in_order b rest hi -> spans_in_order lo ((a, b) :: rest) hi.

(* ================================================================== *)
(** * Character effects and progress bars *)
(* ================================================================== *)

Definition BS : ascii := chr 8.

Definition glitch_chars : str := s2l "!@#$%^&*".

(** [apply_effect(char, effect, index)].  [choice] is what
    [random.choice(glitch_chars)] returns when the branch asks for it. *)
Definition apply_effect (char : ascii) (effect : str) (index : Z)
  (choice : ascii) : str :=
  if effect_is effect "shake" || effect_is effect "heavy_shake" then
    if (index mod 3 =? 0)%Z then [char; BS; char] else [char]
  else if effect_is effect "glitch" then
    if (index mod 5 =? 0)%Z then [choice; BS; char] else [char]
  else if effect_is effect "vibrate" then
    if (index mod 4 =? 0)%Z then [char; BS; char] else [char]
  else [char].

Definition bar_width : Z := 20.

(** [progress = step / total_steps] and the bar drawn for it; a negative
    repeat count gives the empty string. *)
Definition progress_of (step steps : Z) : Q := inject_Z step / inject_Z steps.

Definition bar_of (step steps : Z) : str :=
  let filled := trunc (progress_of step steps * inject_Z bar_width) in
  repeat "#"%char (Z.to_nat filled)
  ++ repeat "-"%char (Z.to_nat (bar_width - filled)).

Definition percentage_of (step steps : Z) : Z :=
  trunc (progress_of step steps * 100).

Definition full_bar : str := repeat "#"%char (Z.to_nat bar_width).

(** Events that type lyrics, sleep or write the export. *)
Definition is_quiet (e : event) : Prop :=
  match e with
  | AnimateText _ _ _ _ | Sleep _ | JsonDump _ _ => False
  | _ => True
  end.

(** An optional time argument of the command line is absent (or empty)
    and gives [None], or parses to the value [v] holds. *)
Definition time_option (py_float : str -> result Q) (o : option str)
  (v : option Q) : Prop :=
  match truthy o with
  | None => v = None
  | Some t => exists q, parse_time_input py_float t = Ok q /\ v = Some q
  end.

(** [args.speed if args.speed is not None else 1.0] *)
Definition speed_of (a : args) : Q :=
  match a_speed a with Some v => v | None => 1.0 end.

(** What [main] writes before it opens the file. *)
Definition opening (a : args) (cfg : config) : list event :=
  (if a_banner a then [Banner] else [])
  ++ [AnimateLoading (s2l "TokTune @username") (loading_opening cfg)].

(* ================================================================== *)
(** * Vocabulary of the runs of the realtime scheduler *)
(* ================================================================== *)

(** The wrapped sub-lines of an entry, in the order in which
    [play_realtime] goes through them: the lines of the text, each one
    wrapped. *)
Definition sub_lines (wrap_w : Z) (line : entry) : list str :=
  flat_map (fun text_line => wrap_text text_line wrap_w)
           (split_on LF (text line)).

(** The clock readings [play_realtime] takes for entries that have a
    successor: for each of them one on reaching it, one before each of
    its sub-lines and one for the margin that follows it. *)
Definition readings (wrap_w : Z) (entries : list entry) : nat :=
  list_sum (map (fun line => (2 + List.length (sub_lines wrap_w line))%nat)
                entries).

(** The text a trace types, call after call. *)
Definition typed (evs : list event) : str :=
  List.concat (map event_text evs).

(** The text of entries, sub-line after sub-line. *)
Definition lines_text (wrap_w : Z) (entries : list entry) : str :=
  List.concat (flat_map (sub_lines wrap_w) entries).

(** No [time.sleep] of the trace was asked for a negative time, and no
    [animate_text] call was given a negative delay: the body of
    [animate_text] sleeps [get_animation_delay effect speed i] after each
    character, a positive multiple of [speed], and [time.sleep] raises
    [ValueError] on a negative argument. *)
Definition no_negative_wait (e : event) : Prop :=
  match e with
  | AnimateText _ _ speed _ => 0 <= speed
  | Sleep d => 0 <= d
  | _ => True
  end.

(** [c], started in [w], returns [a] after [n] clock readings, having
    written [evs]. *)
Definition leads {A} (c : IO A) (w : world) (a : A) (n : nat)
  (evs : list event) : Prop :=
  c w = (Ok a, mkWorld (clock w) (ticks w + n) (out w ++ evs)).

(** [c] ends normally from every world, after [n] clock readings: it
    types [txt] and asks for no negative wait. *)
Definition plays (c : IO unit) (n : nat) (txt : str) : Prop :=
  forall w, exists evs,
    leads c w tt n evs /\ typed evs = txt /\ Forall no_negative_wait evs.

(** What [play_realtime] does on reaching an entry it aims at [target],
    [elapsed] seconds after the start of the playback: it sleeps until
    the target when that lies ahead, and shows the target when the
    configuration asks for the time display. *)
Definition entry_opening (cfg : config) (target elapsed : Q) : list event :=
  (if Qlt_le_dec 0 (target - elapsed) then [Sleep (target - elapsed)] else [])
  ++ (if show_time_display cfg
      then [Print ((GRAY ++ s2l "[" ++ format_time_display target cfg ++
                    s2l "]" ++ RESET) ++ [LF])]
      else []).

(* ================================================================== *)
(** * Properties of the animation delay *)
(* ================================================================== *)

Lemma scaled_between (b f : R) :
  (0 <= b -> 0.5 <= f <= 1.5 -> 0.5 * b <= b * f <= 1.5 * b)%R.
Proof. intros Hb [Hlo Hhi]. split; nra. Qed.

Lemma sine_factor_between (a x : R) :
  (0 <= a <= 0.5 -> 0.5 <= 1.0 + a * sin x <= 1.5)%R.
Proof.
  intros [Ha0 Ha1]. destruct (SIN_bound x) as [Hlo Hhi]. split; nra.
Qed.

(** C10.  For every effect tag, character index and base speed >= 0, and
    every random draw in [0, 1), the delay of [get_animation_delay] lies
    between half the base speed and one and a half times the base speed;
    it is strictly positive when the base speed is. *)
Theorem get_animation_delay_bounds (effect : str) (base_speed : R)
  (char_index : Z) (rnd : R) :
  (0 <= base_speed)%R -> (0 <= rnd < 1)%R ->
  (0.5 * base_speed
   <= get_animation_delay effect base_speed char_index rnd
   <= 1.5 * base_speed)%R
  /\ ((0 < base_speed)%R ->
      (0 < get_animation_delay effect base_speed char_index rnd)%R).
Proof.
  intros Hb [Hr0 Hr1].
  assert (Hrange :
    (0.5 * base_speed
     <= get_animation_delay effect base_speed char_index rnd
     <= 1.5 * base_speed)%R).
  { unfold get_animation_delay.
    repeat match goal with
           | |- context [if ?c then _ else _] => destruct c
           end;
      try (apply scaled_between;
           [assumption | first [apply sine_factor_between; lra | lra]]);
      lra. }
  split; [exact Hrange | intros Hpos; lra].
Qed.

Lemma get_animation_delay_bounds_witness :
  (0.5 * 1 <= get_animation_delay (s2l "glitch") 1 5 0.25 <= 1.5 * 1)%R
  /\ ((0 < 1)%R -> (0 < get_animation_delay (s2l "glitch") 1 5 0.25)%R).
Proof.
  apply (get_animation_delay_bounds (s2l "glitch") 1%R 5%Z 0.25%R); lra.
Defined.

(* ================================================================== *)
(** * Properties of the timing transform *)
(* ================================================================== *)

Lemma py_div_ok (a b : Q) : ~ b == 0 -> py_div a b = Ok (a / b).
Proof.
  intros Hb. unfold py_div.
  destruct (Qeq_bool b 0) eqn:E; [|reflexivity].
  apply Qeq_bool_eq in E. contradiction.
Qed.

Lemma absolute_start_ok (first_time baseline offset speed_multiplier : Q)
  (line : entry) :
  ~ speed_multiplier == 0 ->
  absolute_start first_time baseline offset speed_multiplier line
  = Ok (baseline + (start line - first_time) / speed_multiplier + offset).
Proof.
  intros Hs. unfold absolute_start. rewrite py_div_ok by exact Hs. reflexivity.
Qed.

(** C5, as the code has it.  With offset zero, doubling the speed
    multiplier halves the distance of every scheduled start from the
    baseline, in the realtime scheduler and in the schedule printer alike;
    without a start time the baseline is zero and the start itself is
    halved. *)
Theorem speed_two_halves_relative_start (first_time : Q)
  (start_time : option Q) (line : entry) :
  let baseline := baseline_of start_time in
  exists a1 a2 : Q,
    absolute_start first_time baseline 0 1.0 line = Ok a1
    /\ absolute_start first_time baseline 0 2.0 line = Ok a2
    /\ adjusted_start first_time baseline 0 1.0 line = Ok a1
    /\ adjusted_start first_time baseline 0 2.0 line = Ok a2
    /\ a2 - baseline == (a1 - baseline) / 2
    /\ (start_time = None -> a2 == a1 / 2).
Proof.
  intros baseline.
  exists (baseline + (start line - first_time) / 1.0 + 0),
         (baseline + (start line - first_time) / 2.0 + 0).
  repeat split; try reflexivity.
  - field.
  - intros ->. subst baseline. unfold baseline_of. field.
Qed.

Lemma speed_two_halves_relative_start_witness :
  exists a1 a2 : Q,
    absolute_start 1 (baseline_of None) 0 1.0 (mkEntry 5 8 (s2l "la"))
    = Ok a1
    /\ absolute_start 1 (baseline_of None) 0 2.0 (mkEntry 5 8 (s2l "la"))
       = Ok a2
    /\ a2 == a1 / 2.
Proof.
  destruct (speed_two_halves_relative_start 1 None (mkEntry 5 8 (s2l "la")))
    as (a1 & a2 & H1 & H2 & _ & _ & _ & Hhalf).
  exists a1, a2. repeat split; try assumption. apply Hhalf. reflexivity.
Defined.

(** C5 as stated fails once a start time is given: for entries starting
    at 0 and 4 played from start time 10 with offset 0, the second entry
    is scheduled at 14 with multiplier 1.0 and at 12, not 7, with
    multiplier 2.0. *)
Lemma speed_two_not_half_with_start_time :
  let lyrics := [mkEntry 0 4 (s2l "a"); mkEntry 4 7 (s2l "b")] in
  let line := mkEntry 4 7 (s2l "b") in
  exists a1 a2 : Q,
    absolute_start (first_start lyrics) (baseline_of (Some 10)) 0 1.0 line
    = Ok a1
    /\ absolute_start (first_start lyrics) (baseline_of (Some 10)) 0 2.0 line
       = Ok a2
    /\ a1 == 14 /\ a2 == 12 /\ ~ a2 == a1 / 2.
Proof.
  cbv zeta.
  eexists. eexists.
  split; [reflexivity|]. split; [reflexivity|].
  repeat split; try reflexivity.
  intros H. vm_compute in H. discriminate H.
Qed.

(* ================================================================== *)
(** * Traces *)
(* ================================================================== *)

Lemma yields_ret {A} (a : A) : yields (ret a) (Ok a) [].
Proof. intros w. unfold ret. rewrite app_nil_r. destruct w; reflexivity. Qed.

Lemma yields_lift {A} (r : result A) : yields (lift r) r [].
Proof. intros w. unfold lift. rewrite app_nil_r. destruct w; reflexivity. Qed.

Lemma yields_raise {A} (e : exn) : yields (@raise A e) (Raise e) [].
Proof. intros w. unfold raise. rewrite app_nil_r. destruct w; reflexivity. Qed.

Lemma yields_emit (e : event) : yields (emit e) (Ok tt) [e].
Proof. intros w. reflexivity. Qed.

Lemma yields_print (s : str) : yields (print s) (Ok tt) [Print (s ++ [LF])].
Proof. apply yields_emit. Qed.

Lemma yields_bind {A B} (c : IO A) (k : A -> IO B) (a : A) (r : result B)
  (e1 e2 : list event) :
  yields c (Ok a) e1 -> yields (k a) r e2 -> yields (iobind c k) r (e1 ++ e2).
Proof.
  intros Hc Hk w. unfold iobind. rewrite Hc, Hk. cbn. rewrite app_assoc.
  reflexivity.
Qed.

Lemma yields_bind_raise {A B} (c : IO A) (k : A -> IO B) (e : exn)
  (e1 : list event) :
  yields c (Raise e) e1 -> yields (iobind c k) (Raise e) e1.
Proof. intros Hc w. unfold iobind. rewrite Hc. reflexivity. Qed.

Lemma yields_when (b : bool) (c : IO unit) (evs : list event) :
  yields c (Ok tt) evs ->
  yields (when b c) (Ok tt) (if b then evs else []).
Proof. intros Hc. destruct b; [exact Hc | apply yields_ret]. Qed.

Lemma yields_for_each {A} (l : list A) (body : A -> IO unit)
  (f : A -> list event) :
  (forall x, In x l -> yields (body x) (Ok tt) (f x)) ->
  yields (for_each l body) (Ok tt) (flat_map f l).
Proof.
  induction l as [|x l IH]; intros Hbody; cbn [for_each flat_map].
  - apply yields_ret.
  - eapply yields_bind.
    + apply Hbody. left. reflexivity.
    + apply IH. intros y Hy. apply Hbody. right. exact Hy.
Qed.

Lemma yields_run {A} (c : IO A) (r : result A) (evs : list event)
  (clk : nat -> Q) :
  yields c r evs -> run c clk = (r, evs).
Proof. intros Hc. unfold run. rewrite Hc. reflexivity. Qed.

Lemma adjusted_end_ok (first_time baseline offset speed_multiplier : Q)
  (line : entry) :
  ~ speed_multiplier == 0 ->
  adjusted_end first_time baseline offset speed_multiplier line
  = Ok (baseline + (end_ line - first_time) / speed_multiplier + offset).
Proof.
  intros Hs. unfold adjusted_end. rewrite py_div_ok by exact Hs. reflexivity.
Qed.

Lemma yields_eq {A} (c : IO A) (r : result A) (e e' : list event) :
  yields c r e -> e = e' -> yields c r e'.
Proof. intros H <-. exact H. Qed.

Lemma flat_map_singleton {A B} (f : A -> B) (l : list A) :
  flat_map (fun x => [f x]) l = map f l.
Proof. induction l as [|x l IH]; cbn; [reflexivity | now rewrite IH]. Qed.

Lemma yields_print_schedule_entry (cfg : config)
  (first_time baseline offset speed_multiplier : Q) (line : entry) :
  ~ speed_multiplier == 0 ->
  yields (print_schedule_entry cfg first_time baseline offset
            speed_multiplier line)
         (Ok tt)
         (schedule_block cfg
            (baseline + (start line - first_time) / speed_multiplier + offset,
             line)).
Proof.
  intros Hs. unfold print_schedule_entry.
  change (adjusted_start first_time baseline offset speed_multiplier line)
    with (absolute_start first_time baseline offset speed_multiplier line).
  rewrite absolute_start_ok, adjusted_end_ok by exact Hs.
  eapply yields_eq.
  - eapply yields_bind; [apply yields_lift|].
    eapply yields_bind; [apply yields_lift|].
    eapply yields_bind; [apply yields_print|].
    eapply yields_bind; [|apply yields_print].
    apply (yields_for_each _ _
             (fun text_line => [Print ((s2l "  " ++ text_line) ++ [LF])])).
    intros x _. apply yields_print.
  - cbn [app schedule_block]. rewrite flat_map_singleton. reflexivity.
Qed.

Lemma yields_print_schedule (cfg : config) (repr_float : Q -> str)
  (lyrics : list entry) (offset : Q) (start_time : option Q)
  (speed_multiplier : Q) :
  ~ speed_multiplier == 0 -> lyrics <> [] ->
  yields (print_schedule cfg repr_float lyrics offset start_time
            speed_multiplier)
         (Ok tt)
         (schedule_preamble repr_float speed_multiplier
          ++ flat_map
               (fun line =>
                  schedule_block cfg
                    (baseline_of start_time
                     + (start line - first_start lyrics) / speed_multiplier
                     + offset, line))
               lyrics).
Proof.
  intros Hs Hne. unfold print_schedule.
  destruct lyrics as [|l0 rest]; [contradiction|].
  set (lyrics := l0 :: rest).
  eapply yields_eq.
  - eapply yields_bind; [apply yields_print|].
    eapply yields_bind; [apply yields_when, yields_print|].
    apply (yields_for_each _ _
             (fun line =>
                schedule_block cfg
                  (baseline_of start_time
                   + (start line - first_start lyrics) / speed_multiplier
                   + offset, line))).
    intros x _. apply yields_print_schedule_entry. exact Hs.
  - unfold schedule_preamble.
    destruct (Qeq_bool speed_multiplier 1.0); reflexivity.
Qed.

(* ================================================================== *)
(** * The body of the loop over the wrapped lines *)
(* ================================================================== *)

Lemma current_speed_behind (base_speed drift : Q) :
  0 < drift ->
  current_speed base_speed drift
  = Qmax (base_speed / Qmin 3.0 (1.0 + drift * 2.0)) 0.001.
Proof.
  intros Hd. unfold current_speed.
  destruct (Qlt_le_dec 0 drift) as [_|Hle]; [reflexivity|].
  exfalso. apply (Qlt_irrefl 0). eapply Qlt_le_trans; eassumption.
Qed.

Lemma yields_sleep (d : Q) :
  yields (sleep d)
         (if Qlt_le_dec d 0 then Raise ValueError else Ok tt)
         (if Qlt_le_dec d 0 then [] else [Sleep d]).
Proof.
  unfold sleep. destruct (Qlt_le_dec d 0); [apply yields_raise|].
  apply yields_emit.
Qed.

Lemma yields_animate_spans (wrapped_line color dim_color : str) (speed : Q)
  (effect : str) (spans : list (nat * nat)) (last_idx : nat) :
  yields (animate_spans wrapped_line color dim_color speed effect last_idx
            spans)
         (Ok (snd (span_calls wrapped_line color dim_color speed effect
                     last_idx spans)))
         (fst (span_calls wrapped_line color dim_color speed effect
                 last_idx spans)).
Proof.
  revert last_idx.
  induction spans as [|[a b] rest IH]; intros last_idx;
    cbn [animate_spans span_calls].
  - apply yields_ret.
  - specialize (IH b).
    destruct (span_calls wrapped_line color dim_color speed effect b rest)
      as [evs last] eqn:E.
    cbn [fst snd] in *.
    eapply yields_eq.
    + eapply yields_bind; [apply yields_when, yields_emit|].
      eapply yields_bind; [apply yields_emit|]. exact IH.
    + reflexivity.
Qed.

Lemma yields_line_calls (g : genre) (wrapped_line : str) (speed : Q) :
  yields
    (if startswith (s2l "-") (strip wrapped_line) then
       animate_text wrapped_line (DIM ++ color g) speed (effect g)
     else
       iobind (animate_spans wrapped_line (color g) (DIM ++ color g) speed
                 (effect g) 0 (paren_spans 0 None wrapped_line))
         (fun last_idx =>
            match paren_spans 0 None wrapped_line with
            | [] => animate_text wrapped_line (color g) speed (effect g)
            | _ => when (last_idx <? List.length wrapped_line)%nat
                     (animate_text (skipn last_idx wrapped_line) (color g)
                        speed (effect g))
            end))
    (Ok tt) (line_calls g wrapped_line speed).
Proof.
  unfold line_calls.
  destruct (startswith (s2l "-") (strip wrapped_line)); [apply yields_emit|].
  pose proof (yields_animate_spans wrapped_line (color g) (DIM ++ color g)
                speed (effect g) (paren_spans 0 None wrapped_line) 0) as Hs.
  destruct (span_calls wrapped_line (color g) (DIM ++ color g) speed
              (effect g) 0 (paren_spans 0 None wrapped_line))
    as [evs last] eqn:E.
  cbn [fst snd] in Hs.
  eapply yields_bind; [exact Hs|].
  destruct (paren_spans 0 None wrapped_line); [apply yields_emit|].
  apply yields_when, yields_emit.
Qed.

(** What one pass of the loop over the wrapped lines does, from the
    clock reading it starts with. *)
Lemma play_wrapped_line_trace (g : genre) (cfg : config)
  (base_speed playback_start abs_start : Q) (wrapped_line : str) (w : world) :
  let drift := current_drift (clock w (ticks w)) playback_start abs_start in
  exists r,
    play_wrapped_line g cfg base_speed playback_start abs_start wrapped_line w
    = (r, mkWorld (clock w) (S (ticks w))
            (out w ++ line_calls g wrapped_line
                        (current_speed base_speed drift)
                   ++ [Print [LF]]
                   ++ (if Qlt_le_dec (margin_between_lines cfg) 0 then []
                       else [Sleep (margin_between_lines cfg)]))).
Proof.
  intros drift. eexists.
  unfold play_wrapped_line, iobind at 1, monotonic.
  match goal with
  | |- ?c ?w' = _ =>
      assert (Hy : yields c
                (if Qlt_le_dec (margin_between_lines cfg) 0
                 then Raise ValueError else Ok tt)
                (line_calls g wrapped_line (current_speed base_speed drift)
                 ++ [Print [LF]]
                 ++ (if Qlt_le_dec (margin_between_lines cfg) 0 then []
                     else [Sleep (margin_between_lines cfg)])))
  end.
  { eapply yields_bind; [apply yields_line_calls|].
    eapply yields_bind; [apply (yields_print [])|].
    apply yields_sleep. }
  rewrite Hy. reflexivity.
Qed.

Lemma emitted_of_trace {A} (c : IO A) (w : world) (r : result A)
  (clk : nat -> Q) (n : nat) (evs : list event) :
  c w = (r, mkWorld clk n (out w ++ evs)) -> emitted c w = evs.
Proof.
  intros H. unfold emitted. rewrite H. cbn [snd out].
  rewrite skipn_app, skipn_all, Nat.sub_diag. reflexivity.
Qed.

Lemma line_calls_animates (g : genre) (wrapped_line : str) (speed : Q) :
  Exists (is_animate_at speed) (line_calls g wrapped_line speed).
Proof.
  unfold line_calls.
  destruct (startswith (s2l "-") (strip wrapped_line)).
  - constructor. repeat eexists.
  - destruct (paren_spans 0 None wrapped_line) as [|[a b] rest].
    + cbn. constructor. repeat eexists.
    + cbn [span_calls].
      destruct (span_calls wrapped_line (color g) (DIM ++ color g) speed
                  (effect g) b rest) as [evs last].
      apply Exists_app. left. apply Exists_app. right.
      constructor. repeat eexists.
Qed.

(* ================================================================== *)
(** * Word-timing exporter *)
(* ================================================================== *)

Lemma nth_error_combine_seq {A} (l : list A) (k i : nat) :
  nth_error (combine (seq i (List.length l)) l) k
  = option_map (fun x => ((i + k)%nat, x)) (nth_error l k).
Proof.
  revert k i. induction l as [|x l IH]; intros k i.
  - destruct k; reflexivity.
  - destruct k as [|k]; cbn [List.length seq combine nth_error option_map].
    + rewrite Nat.add_0_r. reflexivity.
    + rewrite IH. rewrite Nat.add_succ_r. reflexivity.
Qed.

Lemma nth_error_enumerate {A} (l : list A) (k : nat) :
  nth_error (enumerate l) k = option_map (fun x => (k, x)) (nth_error l k).
Proof. unfold enumerate. apply nth_error_combine_seq. Qed.

(** C7.  The exporter gives word [k] (from 0) of an entry the start
    [entry.start + k * step] and the end [start + step], where [step] is
    [max(0.0001, end - start)] divided by the number of words.  For the
    entries 0..2 "a" and 2..5 "b c" the second entry has the words "b"
    over 2.0..3.5 and "c" over 3.5..5.0, the step being 1.5. *)
Theorem export_word_timing :
  (forall (caption : entry) (k : nat) (w : word_timing),
      nth_error (caption_words caption) k = Some w ->
      let word_count := List.length (split_ws (text caption)) in
      let step := Qmax 0.0001 (end_ caption - start caption)
                  / inject_Z (Z.of_nat word_count) in
      nth_error (split_ws (text caption)) k = Some (word w)
      /\ w_start w = start caption + inject_Z (Z.of_nat k) * step
      /\ w_end w = w_start w + step)
  /\ (let lyrics := [mkEntry 0 2 (s2l "a"); mkEntry 2 5 (s2l "b c")] in
      map (fun c => map (fun w => (word w, Qred (w_start w), Qred (w_end w)))
                        (c_words c))
          (captions (export_result lyrics))
      = [ [(s2l "a", 0, 2)];
          [(s2l "b", 2, 7 # 2); (s2l "c", 7 # 2, 5)] ]
      /\ Qmax 0.0001 (5 - 2) / inject_Z (Z.of_nat 2) == 1.5).
Proof.
  split.
  - intros caption k w Hk word_count step.
    unfold caption_words in Hk.
    rewrite nth_error_map, nth_error_enumerate in Hk.
    destruct (nth_error (split_ws (text caption)) k) as [x|] eqn:Ex;
      [|discriminate Hk].
    cbn [option_map] in Hk.
    destruct (split_ws (text caption)) as [|w0 ws] eqn:Ews.
    { destruct k; discriminate Ex. }
    injection Hk as <-. cbn [word w_start w_end].
    repeat split; reflexivity.
  - cbv zeta. split; [vm_compute; reflexivity | reflexivity].
Qed.

Lemma export_word_timing_witness :
  let caption := mkEntry 2 5 (s2l "b c") in
  exists w : word_timing,
    nth_error (caption_words caption) 1 = Some w
    /\ nth_error (split_ws (text caption)) 1 = Some (word w)
    /\ w_start w == 3.5 /\ w_end w == 5.
Proof.
  intros caption.
  assert (Hw : nth_error (caption_words caption) 1
               = Some (nth 1 (caption_words caption)
                           (mkWord [] 0 0 [] []))) by reflexivity.
  destruct (proj1 export_word_timing caption 1%nat _ Hw) as (Hn & Hs & He).
  eexists. split; [exact Hw|]. split; [exact Hn|].
  split; [rewrite Hs | rewrite He, Hs]; reflexivity.
Defined.

(* ================================================================== *)
(** * Lyric parser *)
(* ================================================================== *)

Lemma append_to_last_placeholder (lyrics : list entry) (more : str) :
  Forall has_placeholder lyrics ->
  Forall has_placeholder (append_to_last lyrics more).
Proof.
  induction lyrics as [|e rest IH]; intros H; [constructor|].
  inversion H as [|? ? He Hrest]; subst.
  destruct rest as [|e' rest'].
  - cbn. repeat constructor. exact He.
  - change (append_to_last (e :: e' :: rest') more)
      with (e :: append_to_last (e' :: rest') more).
    constructor; [exact He | apply IH; exact Hrest].
Qed.

Lemma append_to_last_length (lyrics : list entry) (more : str) :
  List.length (append_to_last lyrics more) = List.length lyrics.
Proof.
  induction lyrics as [|e rest IH]; [reflexivity|].
  destruct rest as [|e' rest']; [reflexivity|].
  change (append_to_last (e :: e' :: rest') more)
    with (e :: append_to_last (e' :: rest') more).
  cbn [List.length]. rewrite IH. reflexivity.
Qed.

Lemma new_entry_placeholder (text : str) (t : str * str * str) :
  has_placeholder (new_entry text t).
Proof. reflexivity. Qed.

Lemma parse_line_placeholder (lyrics : list entry) (line : str) :
  Forall has_placeholder lyrics ->
  Forall has_placeholder (parse_line lyrics line).
Proof.
  intros H. unfold parse_line.
  destruct (strip line) as [|c l]; [exact H|].
  destruct (is_meta (c :: l)); [exact H|].
  destruct (findall_times (c :: l)) as [|t ts].
  - destruct lyrics as [|e rest]; [exact H|].
    destruct (strip (sub_times (c :: l))); [exact H|].
    apply append_to_last_placeholder. exact H.
  - apply Forall_app. split; [exact H|].
    apply Forall_forall. intros e He. apply in_map_iff in He.
    destruct He as (t' & <- & _). apply new_entry_placeholder.
Qed.

Lemma parse_lines_placeholder (lines : list str) (lyrics : list entry) :
  Forall has_placeholder lyrics ->
  Forall has_placeholder (fold_left parse_line lines lyrics).
Proof.
  revert lyrics. induction lines as [|l ls IH]; intros lyrics H; [exact H|].
  cbn [fold_left]. apply IH, parse_line_placeholder, H.
Qed.

(** The sort. *)
Lemma insert_by_start_perm (e : entry) (l : list entry) :
  Permutation (e :: l) (insert_by_start e l).
Proof.
  induction l as [|x l IH]; cbn [insert_by_start]; [reflexivity|].
  destruct (Qle_bool (start e) (start x)); [reflexivity|].
  rewrite perm_swap. constructor. exact IH.
Qed.

Lemma sort_by_start_perm (l : list entry) : Permutation l (sort_by_start l).
Proof.
  induction l as [|e l IH]; cbn; [constructor|].
  rewrite <- insert_by_start_perm. constructor. exact IH.
Qed.

Lemma insert_by_start_hd (a e : entry) (l : list entry) :
  starts_le a e -> HdRel starts_le a l ->
  HdRel starts_le a (insert_by_start e l).
Proof.
  intros Hae Hal. destruct l as [|x l]; cbn [insert_by_start].
  - constructor. exact Hae.
  - destruct (Qle_bool (start e) (start x)); constructor.
    + exact Hae.
    + inversion Hal; assumption.
Qed.

Lemma insert_by_start_sorted (e : entry) (l : list entry) :
  Sorted starts_le l -> Sorted starts_le (insert_by_start e l).
Proof.
  induction l as [|x l IH]; intros Hs; cbn [insert_by_start].
  - repeat constructor.
  - inversion Hs as [|? ? Hl Hx]; subst.
    destruct (Qle_bool (start e) (start x)) eqn:E.
    + constructor; [exact Hs|]. constructor.
      apply Qle_bool_iff. exact E.
    + constructor; [apply IH; exact Hl|].
      apply insert_by_start_hd; [|exact Hx].
      unfold starts_le. apply Qlt_le_weak, Qnot_le_lt.
      intros Hle. apply Qle_bool_iff in Hle. congruence.
Qed.

Lemma sort_by_start_sorted (l : list entry) :
  Sorted starts_le (sort_by_start l).
Proof.
  induction l as [|e l IH]; cbn; [constructor|].
  apply insert_by_start_sorted, IH.
Qed.

Lemma sort_by_start_placeholder (l : list entry) :
  Forall has_placeholder l -> Forall has_placeholder (sort_by_start l).
Proof.
  intros H. apply Forall_forall. intros e He.
  apply (Permutation_in _ (Permutation_sym (sort_by_start_perm l))) in He.
  revert e He. apply Forall_forall. exact H.
Qed.

(** The finalization pass. *)
Lemma update_ends_cons2 (e n : entry) (rest : list entry) :
  update_ends (e :: n :: rest)
  = mkEntry (start e) (start n) (text e) :: update_ends (n :: rest).
Proof. reflexivity. Qed.

Lemma estimate_last_cons2 (e n : entry) (rest : list entry) :
  estimate_last (e :: n :: rest) = e :: estimate_last (n :: rest).
Proof. reflexivity. Qed.

Lemma placeholder_not_before_start (e : entry) :
  has_placeholder e -> Qle_bool (end_ e) (start e) = false.
Proof.
  intros H. destruct (Qle_bool (end_ e) (start e)) eqn:E; [|reflexivity].
  apply Qle_bool_iff in E. rewrite H in E. exfalso.
  apply (Qlt_irrefl (start e)). eapply Qlt_le_trans; [|exact E].
  rewrite <- (Qplus_0_r (start e)) at 1.
  rewrite Qplus_lt_r. reflexivity.
Qed.

Lemma finalize_shape (l : list entry) :
  Forall has_placeholder l ->
  finalized l (estimate_last (update_ends l)).
Proof.
  induction l as [|e rest IH]; intros H; [constructor|].
  inversion H as [|? ? He Hrest]; subst.
  destruct rest as [|n rest'].
  - cbn. rewrite (placeholder_not_before_start e He). constructor.
  - rewrite update_ends_cons2.
    specialize (IH Hrest).
    destruct (update_ends (n :: rest')) as [|u us] eqn:Eu.
    { destruct rest'; discriminate Eu. }
    rewrite estimate_last_cons2. constructor. exact IH.
Qed.

Lemma finalized_last_entry {l out front : list entry} {e : entry} :
  finalized l out -> out = front ++ [e] ->
  exists front', l = front' ++ [e].
Proof.
  intros Hf. revert front.
  induction Hf as [|x|x n rest out Hf IH]; intros front Hout.
  - destruct front; discriminate Hout.
  - destruct front as [|y front]; [|destruct front; discriminate Hout].
    injection Hout as <-. exists []. reflexivity.
  - destruct front as [|y front].
    + injection Hout as _ Hout. inversion Hf; subst; discriminate.
    + injection Hout as _ Hout. destruct (IH front Hout) as [front' ->].
      exists (x :: front'). reflexivity.
Qed.

Lemma finalized_bounds {l out : list entry} :
  Sorted starts_le l -> Forall has_placeholder l -> finalized l out ->
  Forall (fun e => start e <= end_ e) out.
Proof.
  intros Hs Hp Hf.
  induction Hf as [|x|x n rest out Hf IH].
  - constructor.
  - repeat constructor. inversion Hp as [|? ? Hx _]; subst.
    rewrite Hx. rewrite <- (Qplus_0_r (start x)) at 1.
    apply Qplus_le_r. discriminate.
  - inversion Hs as [|? ? Hs' Hhd]; subst.
    inversion Hp as [|? ? _ Hp']; subst.
    constructor; [|apply IH; assumption].
    cbn [start end_]. inversion Hhd; subst. assumption.
Qed.

Lemma finalized_adjacent {l out front back : list entry} {e n : entry} :
  finalized l out -> out = front ++ e :: n :: back -> end_ e = start n.
Proof.
  intros Hf. revert front.
  induction Hf as [|x|x m rest out Hf IH]; intros front Hout.
  - destruct front; discriminate Hout.
  - destruct front as [|y front]; [discriminate Hout|].
    destruct front; discriminate Hout.
  - destruct front as [|y front].
    + injection Hout as <- Hout. cbn [end_]. subst out.
      inversion Hf; subst; reflexivity.
    + injection Hout as _ Hout. apply (IH front Hout).
Qed.

Lemma parse_lrc_text_finalized (raw : str) :
  let lyrics := sort_by_start
                  (fold_left parse_line (splitlines (strip raw)) []) in
  Sorted starts_le lyrics /\ Forall has_placeholder lyrics
  /\ finalized lyrics (parse_lrc_text raw).
Proof.
  intros lyrics.
  assert (Hp : Forall has_placeholder lyrics).
  { apply sort_by_start_placeholder, parse_lines_placeholder. constructor. }
  split; [apply sort_by_start_sorted|]. split; [exact Hp|].
  apply finalize_shape. exact Hp.
Qed.

Lemma placeholder_after_start (e : entry) :
  has_placeholder e -> start e < end_ e.
Proof.
  intros H. rewrite H. rewrite <- (Qplus_0_r (start e)) at 1.
  rewrite Qplus_lt_r. reflexivity.
Qed.

Lemma parse_lrc_text_last (raw : str) (front : list entry) {e : entry} :
  parse_lrc_text raw = front ++ [e] -> has_placeholder e.
Proof.
  intros Hout.
  destruct (parse_lrc_text_finalized raw) as (_ & Hp & Hf).
  destruct (finalized_last_entry Hf Hout) as [front' Hl].
  rewrite Hl in Hp. apply Forall_app in Hp. destruct Hp as [_ Hp].
  inversion Hp; assumption.
Qed.

Lemma estimate_last_app (front : list entry) (e : entry) :
  estimate_last (front ++ [e]) = front ++ estimate_last [e].
Proof.
  induction front as [|x front IH]; [reflexivity|].
  cbn [app]. destruct (front ++ [e]) as [|y ys] eqn:E.
  { destruct front; discriminate E. }
  rewrite estimate_last_cons2, IH. reflexivity.
Qed.

(** C1, as the code has it.  The finalization recomputes the end of the
    last entry as [start + max(2.0, len(text) * 0.1)] only when that end
    is not after the start (2.0 for a text of 20 characters, 5.0 for one
    of 50).  The last entry of a parsed sequence still carries the
    placeholder at that point, so its end stays [start + 3.0] whatever the
    length of its text. *)
Theorem last_entry_end (raw : str) :
  (forall (front : list entry) (e : entry),
      parse_lrc_text raw = front ++ [e] -> end_ e = start e + 3.0)
  /\ (forall (front : list entry) (e : entry),
         end_ e <= start e ->
         estimate_last (front ++ [e])
         = front ++ [mkEntry (start e)
                       (start e
                        + Qmax 2.0 (inject_Z (Z.of_nat (List.length (text e)))
                                    * 0.1))
                       (text e)])
  /\ Qmax 2.0 (inject_Z (Z.of_nat 20) * 0.1) == 2.0
  /\ Qmax 2.0 (inject_Z (Z.of_nat 50) * 0.1) == 5.0.
Proof.
  split; [|split; [|split; reflexivity]].
  - intros front e Hout. exact (parse_lrc_text_last raw front Hout).
  - intros front e Hle. rewrite estimate_last_app. cbn [estimate_last].
    apply Qle_bool_iff in Hle. rewrite Hle. reflexivity.
Qed.

Lemma last_entry_end_witness :
  (let e := hd (mkEntry 0 0 []) (parse_lrc_text (s2l "[00:10.00]la la")) in
   end_ e = start e + 3.0)
  /\ estimate_last ([] ++ [mkEntry 10 10 (s2l "la la")])
     = [] ++ [mkEntry 10 (10 + Qmax 2.0 (inject_Z (Z.of_nat 5) * 0.1))
                (s2l "la la")].
Proof.
  destruct (last_entry_end (s2l "[00:10.00]la la")) as (Hkeep & Hest & _).
  split.
  - apply (Hkeep []). vm_compute. reflexivity.
  - apply (Hest [] (mkEntry 10 10 (s2l "la la"))). discriminate.
Defined.

(** C1 as stated fails: a file whose only line has a text of 20
    characters gives one entry, from 10 to 13 seconds and not to 12; with
    a text of 50 characters the entry also ends at 13 and not at 15. *)
Lemma last_entry_end_not_estimated :
  (exists e : entry,
      parse_lrc_text (s2l "[00:10.00]abcdefghij0123456789") = [e]
      /\ List.length (text e) = 20%nat
      /\ end_ e == start e + 3.0
      /\ ~ end_ e == start e + 2.0)
  /\ (exists e : entry,
         parse_lrc_text
           (s2l "[00:10.00]abcdefghij0123456789abcdefghij0123456789abcdefghij")
         = [e]
         /\ List.length (text e) = 50%nat
         /\ end_ e == start e + 3.0
         /\ ~ end_ e == start e + 5.0).
Proof.
  split; eexists; (split; [vm_compute; reflexivity|]);
    (split; [reflexivity|]); (split; [reflexivity|]);
    intros H; vm_compute in H; discriminate H.
Qed.

(** C6, as the code has it.  After the finalization no entry ends before
    it starts; every entry but the last ends where the next one starts,
    so it ends after its start exactly when the next entry starts later;
    the last entry ends after its start. *)
Theorem entries_end_not_before_start (raw : str) :
  Forall (fun e => start e <= end_ e) (parse_lrc_text raw)
  /\ (forall (front back : list entry) (e n : entry),
         parse_lrc_text raw = front ++ e :: n :: back ->
         end_ e = start n /\ (start e < end_ e <-> start e < start n))
  /\ (forall (front : list entry) (e : entry),
         parse_lrc_text raw = front ++ [e] -> start e < end_ e).
Proof.
  destruct (parse_lrc_text_finalized raw) as (Hs & Hp & Hf).
  split; [|split].
  - exact (finalized_bounds Hs Hp Hf).
  - intros front back e n Hout.
    pose proof (finalized_adjacent Hf Hout) as Hadj.
    split; [exact Hadj|]. rewrite Hadj. reflexivity.
  - intros front e Hout. apply placeholder_after_start.
    exact (parse_lrc_text_last raw front Hout).
Qed.

Lemma entries_end_not_before_start_witness :
  let lyrics := parse_lrc_text (s2l "[00:01.00]hello[00:02.50]") in
  let e := nth 0 lyrics (mkEntry 0 0 []) in
  let n := nth 1 lyrics (mkEntry 0 0 []) in
  end_ e = start n /\ start n < end_ n.
Proof.
  intros lyrics e n.
  destruct (entries_end_not_before_start (s2l "[00:01.00]hello[00:02.50]"))
    as (_ & Hadj & Hlast).
  split.
  - apply (Hadj [] [] e n). vm_compute. reflexivity.
  - apply (Hlast [e] n). vm_compute. reflexivity.
Defined.

(** C6 as stated fails: two entries with the same timestamp make the
    first one end where it starts. *)
Lemma entry_end_equal_to_start :
  exists (e : entry) (rest : list entry),
    parse_lrc_text (s2l "[00:01.00][00:01.00]hi") = e :: rest
    /\ end_ e == start e /\ ~ start e < end_ e.
Proof.
  eexists. eexists. split; [vm_compute; reflexivity|].
  split; [reflexivity|]. intros H. vm_compute in H. discriminate H.
Qed.

(** Stripping and line splitting. *)
Lemma lstrip_by_snoc (p : ascii -> bool) (s : str) (c : ascii) :
  p c = false -> lstrip_by p (s ++ [c]) = lstrip_by p s ++ [c].
Proof.
  intros Hc. induction s as [|a s IH]; cbn [app lstrip_by].
  - rewrite Hc. reflexivity.
  - destruct (p a); [exact IH | reflexivity].
Qed.

Lemma rstrip_by_cons (p : ascii -> bool) (s : str) (c : ascii) :
  p c = false -> rstrip_by p (c :: s) = c :: rstrip_by p s.
Proof.
  intros Hc. unfold rstrip_by. cbn [rev].
  rewrite lstrip_by_snoc by exact Hc. rewrite rev_app_distr. reflexivity.
Qed.

Lemma lstrip_by_head (p : ascii -> bool) (s : str) :
  match lstrip_by p s with
  | [] => True
  | c :: _ => p c = false
  end.
Proof.
  induction s as [|a s IH]; cbn [lstrip_by]; [exact I|].
  destruct (p a) eqn:E; [exact IH | exact E].
Qed.

Lemma lstrip_by_idem (p : ascii -> bool) (s : str) :
  lstrip_by p (lstrip_by p s) = lstrip_by p s.
Proof.
  pose proof (lstrip_by_head p s) as H.
  destruct (lstrip_by p s) as [|c r]; [reflexivity|].
  cbn [lstrip_by]. rewrite H. reflexivity.
Qed.

Lemma strip_by_idem (p : ascii -> bool) (s : str) :
  strip_by p (strip_by p s) = strip_by p s.
Proof.
  unfold strip_by.
  pose proof (lstrip_by_head p s) as H.
  destruct (lstrip_by p s) as [|c r].
  - reflexivity.
  - rewrite (rstrip_by_cons p r c H). cbn [lstrip_by]. rewrite H.
    rewrite (rstrip_by_cons p _ c H). f_equal.
    unfold rstrip_by. rewrite rev_involutive, lstrip_by_idem. reflexivity.
Qed.

Lemma strip_idem (s : str) : strip (strip s) = strip s.
Proof. apply strip_by_idem. Qed.

Lemma lstrip_by_Forall (P : ascii -> Prop) (p : ascii -> bool) (s : str) :
  Forall P s -> Forall P (lstrip_by p s).
Proof.
  induction 1 as [|a s Ha Hs IH]; cbn [lstrip_by]; [constructor|].
  destruct (p a); [exact IH | constructor; assumption].
Qed.

Lemma strip_Forall (P : ascii -> Prop) (s : str) :
  Forall P s -> Forall P (strip s).
Proof.
  intros H. unfold strip, strip_by, rstrip_by.
  apply Forall_rev, lstrip_by_Forall, Forall_rev, lstrip_by_Forall, H.
Qed.

Lemma splitlines_aux_one_line (cur s : str) :
  Forall (fun c => is_linebreak c = false) s ->
  splitlines_aux cur false s
  = match rev cur ++ s with
    | [] => []
    | l => [l]
    end.
Proof.
  intros H. revert cur.
  induction H as [|c s Hc Hs IH]; intros cur; cbn [splitlines_aux].
  - rewrite app_nil_r. destruct cur as [|a cur]; [reflexivity|].
    destruct (rev (a :: cur)) eqn:E; [|reflexivity].
    apply (f_equal (@List.length ascii)) in E.
    rewrite length_rev in E. discriminate E.
  - cbn [andb]. rewrite Hc, IH. cbn [rev]. rewrite <- app_assoc.
    reflexivity.
Qed.

Lemma splitlines_one_line (s : str) :
  Forall (fun c => is_linebreak c = false) s ->
  splitlines s = match s with [] => [] | _ => [s] end.
Proof.
  intros H. unfold splitlines. rewrite (splitlines_aux_one_line [] s H).
  destruct s; reflexivity.
Qed.

Lemma finalized_start_text {l out : list entry} :
  finalized l out ->
  map (fun e => (start e, text e)) out = map (fun e => (start e, text e)) l.
Proof.
  induction 1 as [| |e n rest out Hf IH]; try reflexivity.
  cbn [map] in *. rewrite IH. reflexivity.
Qed.

Lemma parse_line_not_meta (lyrics : list entry) (line : str) :
  is_meta (strip line) = false ->
  findall_times (strip line) <> [] ->
  parse_line lyrics line
  = lyrics ++ map (new_entry (strip (sub_times (strip line))))
                  (findall_times (strip line)).
Proof.
  intros Hmeta Hts. unfold parse_line.
  destruct (strip line) as [|c l] eqn:E.
  - exfalso. apply Hts. reflexivity.
  - rewrite Hmeta.
    destruct (findall_times (c :: l)); [contradiction|]. reflexivity.
Qed.

Lemma parse_line_length (lyrics : list entry) (line : str) :
  is_meta (strip line) = false ->
  List.length (parse_line lyrics line)
  = (List.length lyrics + List.length (findall_times (strip line)))%nat.
Proof.
  intros Hmeta. unfold parse_line.
  destruct (strip line) as [|c l] eqn:E.
  - cbn. apply plus_n_O.
  - rewrite Hmeta.
    destruct (findall_times (c :: l)) as [|t ts].
    + cbn [List.length]. rewrite <- plus_n_O.
      destruct lyrics as [|e rest]; [reflexivity|].
      destruct (strip (sub_times (c :: l))); [reflexivity|].
      apply append_to_last_length.
    + rewrite length_app, length_map. reflexivity.
Qed.

Lemma parse_line_first (line : str) :
  is_meta (strip line) = false ->
  parse_line [] line
  = map (new_entry (strip (sub_times (strip line))))
        (findall_times (strip line)).
Proof.
  intros Hmeta.
  destruct (findall_times (strip line)) as [|t ts] eqn:E.
  - unfold parse_line. destruct (strip line) as [|c l]; [reflexivity|].
    rewrite Hmeta, E. reflexivity.
  - rewrite parse_line_not_meta; [rewrite E; reflexivity | exact Hmeta |].
    rewrite E. discriminate.
Qed.

(** C8.  The line "[00:01.00]hello[00:02.50]" gives exactly two entries,
    both with text "hello", starting at 1.00 and 2.50 seconds.  In
    general a lyric line (one that is not a metadata line) with n
    timestamps adds n entries to the list, one per timestamp and all with
    the line's text without the timestamps; a file made of that one line
    parses to those n entries. *)
Theorem timestamps_make_entries :
  (exists e1 e2 : entry,
      parse_lrc_text (s2l "[00:01.00]hello[00:02.50]") = [e1; e2]
      /\ text e1 = s2l "hello" /\ text e2 = s2l "hello"
      /\ start e1 == 1.00 /\ start e2 == 2.50)
  /\ (forall (lyrics : list entry) (line : str),
         is_meta (strip line) = false ->
         let stamps := findall_times (strip line) in
         let stripped := strip (sub_times (strip line)) in
         List.length (parse_line lyrics line)
         = (List.length lyrics + List.length stamps)%nat
         /\ (stamps <> [] ->
             parse_line lyrics line
             = lyrics ++ map (fun t => mkEntry (stamp_seconds t)
                                         (stamp_seconds t + 3.0) stripped)
                             stamps))
  /\ (forall raw : str,
         Forall (fun c => is_linebreak c = false) raw ->
         is_meta (strip raw) = false ->
         let stamps := findall_times (strip raw) in
         let stripped := strip (sub_times (strip raw)) in
         List.length (parse_lrc_text raw) = List.length stamps
         /\ Forall (fun e => text e = stripped) (parse_lrc_text raw)
         /\ Permutation (map start (parse_lrc_text raw))
                        (map stamp_seconds stamps)).
Proof.
  split; [|split].
  - eexists. eexists. split; [vm_compute; reflexivity|].
    repeat split; reflexivity.
  - intros lyrics line Hmeta stamps stripped. split.
    + apply parse_line_length. exact Hmeta.
    + intros Hne. apply parse_line_not_meta; assumption.
  - intros raw Hone Hmeta stamps stripped.
    destruct (parse_lrc_text_finalized raw) as (_ & _ & Hf).
    apply finalized_start_text in Hf.
    assert (Hl : fold_left parse_line (splitlines (strip raw)) []
                 = map (new_entry stripped) stamps).
    { rewrite (splitlines_one_line (strip raw) (strip_Forall _ raw Hone)).
      subst stamps stripped.
      rewrite <- (strip_idem raw) at 2 3.
      rewrite <- parse_line_first by (rewrite strip_idem; exact Hmeta).
      destruct (strip raw) as [|c l] eqn:E; reflexivity. }
    rewrite Hl in Hf.
    assert (Hperm : Permutation
                      (map (fun e => (start e, text e)) (parse_lrc_text raw))
                      (map (fun t => (stamp_seconds t, stripped)) stamps)).
    { rewrite Hf.
      rewrite <- (sort_by_start_perm (map (new_entry stripped) stamps)).
      rewrite map_map. reflexivity. }
    split; [|split].
    + apply Permutation_length in Hperm.
      rewrite !length_map in Hperm. exact Hperm.
    + apply Forall_forall. intros e He.
      apply (in_map (fun e => (start e, text e))) in He.
      apply (Permutation_in _ Hperm) in He.
      apply in_map_iff in He. destruct He as (t & Ht & _).
      injection Ht as _ Ht. symmetry. exact Ht.
    + apply (Permutation_map fst) in Hperm.
      rewrite !map_map in Hperm. exact Hperm.
Qed.

Lemma timestamps_make_entries_witness :
  let line := s2l "  [00:01.00]hello [00:02.50] " in
  List.length (parse_line [] line) = 2%nat
  /\ parse_line [] line
     = [] ++ map (fun t => mkEntry (stamp_seconds t) (stamp_seconds t + 3.0)
                             (s2l "hello"))
                 (findall_times (strip line))
  /\ Forall (fun e => text e = s2l "hello") (parse_lrc_text line).
Proof.
  intros line.
  destruct timestamps_make_entries as (_ & Hstep & Hfile).
  destruct (Hstep [] line) as [Hlen Heq]; [reflexivity|].
  destruct (Hfile line) as (_ & Htext & _).
  - repeat constructor.
  - reflexivity.
  - split; [exact Hlen|]. split; [|exact Htext].
    apply Heq. discriminate.
Defined.

(* ================================================================== *)
(** * Genre selection *)
(* ================================================================== *)

Lemma yields_genre_listing (cfg : config) :
  yields (genre_listing cfg) (Ok tt)
         (map (fun kg => Print ((s2l "  " ++ ljust 20 " " (fst kg) ++
                                 s2l " - " ++ description (snd kg)) ++ [LF]))
              (genres cfg)).
Proof.
  unfold genre_listing. rewrite <- flat_map_singleton.
  apply yields_for_each. intros [key genre_data] _. apply yields_print.
Qed.

(** C9, as the code has it.  The name looked up is [genre_key]: the
    selected name in lower case, or the configured default genre when no
    name or an empty one is given.  When it is not a key of the genre
    mapping, [main] prints the error, then every genre name of the mapping
    with its description, and exits with status 1; nothing else is
    written, no clock is read and no other genre is used. *)
Theorem unknown_genre_lists_and_exits (py_float : str -> result Q)
  (repr_float : Q -> str) (read_file : str -> read_outcome)
  (a : args) (cfg : config) :
  lookup_genre (genre_key a cfg) (genres cfg) = None ->
  yields (main py_float repr_float read_file a cfg)
         (Raise (SystemExit 1))
         (Print ((RED ++ s2l "[ERROR] Genre '" ++ genre_key a cfg ++
                  s2l "' tidak ditemukan." ++ RESET ++ [LF]) ++ [LF])
          :: Print ((YELLOW ++ s2l "Genre yang tersedia:" ++ RESET) ++ [LF])
          :: map (fun kg => Print ((s2l "  " ++ ljust 20 " " (fst kg) ++
                                    s2l " - " ++ description (snd kg))
                                   ++ [LF]))
                 (genres cfg)).
Proof.
  intros Hnone. unfold main. rewrite Hnone.
  eapply yields_eq.
  - eapply yields_bind; [apply yields_print|].
    eapply yields_bind; [apply yields_print|].
    eapply yields_bind; [apply yields_genre_listing|].
    apply yields_raise.
  - cbn [app]. rewrite app_nil_r. reflexivity.
Qed.

Lemma unknown_genre_lists_and_exits_witness :
  let a := mkArgs (s2l "song.lrc") (Some (s2l "Polka")) true None None None
             None None None false in
  fst (run (main (fun _ => Raise ValueError) (fun _ => s2l "1.0")
              (fun _ => FileText (s2l "[00:01.00]la")) a DEFAULT_CONFIG)
           (fun _ => 0))
  = Raise (SystemExit 1).
Proof.
  intros a.
  rewrite (yields_run _ _ _ (fun _ => 0)
             (unknown_genre_lists_and_exits (fun _ => Raise ValueError)
                (fun _ => s2l "1.0") (fun _ => FileText (s2l "[00:01.00]la"))
                a DEFAULT_CONFIG eq_refl)).
  reflexivity.
Defined.

(** C9 as stated fails: "POP" is not a key of the default genre mapping,
    and the empty name is not one either, yet with either of them the
    program runs to its end; "POP" is looked up as "pop", and the empty
    name silently stands for the default genre. *)
Lemma genre_not_in_mapping_accepted :
  let run_with (g : str) :=
    run (main (fun _ => Raise ValueError) (fun _ => s2l "1.0")
           (fun _ => FileText (s2l "[00:01.00]la"))
           (mkArgs (s2l "song.lrc") (Some g) false None None None None None
              None false)
           DEFAULT_CONFIG)
        (fun _ => 0) in
  lookup_genre (s2l "POP") (genres DEFAULT_CONFIG) = None
  /\ fst (run_with (s2l "POP")) = Ok tt
  /\ lookup_genre [] (genres DEFAULT_CONFIG) = None
  /\ fst (run_with []) = Ok tt.
Proof. vm_compute. repeat split; reflexivity. Qed.

(* ================================================================== *)
(** * Time codec *)
(* ================================================================== *)

(** Arithmetic of the formatter. *)
Ltac q_lra :=
  rewrite ?inject_Z_plus, ?inject_Z_mult in *;
  change (inject_Z 0) with 0 in *; change (inject_Z 1) with 1 in *;
  change (inject_Z 60) with 60 in *; change (inject_Z 100) with 100 in *;
  unfold Qdiv in *;
  change (/ 100) with (1 # 100) in *; change (/ 60) with (1 # 60) in *;
  Lqa.lra.

Lemma Qfloor_unique (q : Q) (z : Z) :
  inject_Z z <= q -> q < inject_Z (z + 1) -> Qfloor q = z.
Proof.
  intros Hlo Hhi.
  pose proof (Qfloor_le q) as Hf1. pose proof (Qlt_floor q) as Hf2.
  assert (H1 : (z < Qfloor q + 1)%Z).
  { rewrite Zlt_Qlt. eapply Qle_lt_trans; eassumption. }
  assert (H2 : (Qfloor q < z + 1)%Z).
  { rewrite Zlt_Qlt. eapply Qle_lt_trans; eassumption. }
  lia.
Qed.

Lemma trunc_nonneg (q : Q) : 0 <= q -> trunc q = Qfloor q.
Proof.
  intros Hq. destruct q as [n d]. unfold trunc, Qfloor. cbn [Qnum Qden].
  apply Z.quot_div_nonneg; [|reflexivity].
  unfold Qle in Hq. cbn in Hq. lia.
Qed.

Lemma trunc_inject_Z (z : Z) : trunc (inject_Z z) = z.
Proof. unfold trunc. cbn. apply Z.quot_1_r. Qed.

Lemma py_round_near (y : Q) :
  0 <= y -> y < 100 ->
  (0 <= py_round y <= 100)%Z
  /\ - (1 # 2) <= inject_Z (py_round y) - y <= 1 # 2.
Proof.
  intros Hy0 Hy1.
  pose proof (Qfloor_le y) as Hf1. pose proof (Qlt_floor y) as Hf2.
  assert (Hfl : (0 <= Qfloor y < 100)%Z).
  { split.
    - assert (H : (0 < Qfloor y + 1)%Z); [|lia].
      rewrite Zlt_Qlt. eapply Qle_lt_trans; eassumption.
    - rewrite Zlt_Qlt. eapply Qle_lt_trans; eassumption. }
  rewrite inject_Z_plus in Hf2. change (inject_Z 1) with 1 in Hf2.
  unfold py_round.
  destruct (Qcompare_spec (y - inject_Z (Qfloor y)) (1 # 2)) as [He|Hl|Hg].
  - destruct (Z.even (Qfloor y)).
    + split; [lia|]. split; q_lra.
    + split; [lia|]. rewrite inject_Z_plus. change (inject_Z 1) with 1.
      split; q_lra.
  - split; [lia|]. split; q_lra.
  - split; [lia|]. rewrite inject_Z_plus. change (inject_Z 1) with 1.
    split; q_lra.
Qed.

Lemma seconds_to_lrc_time_fields (sec : Q) :
  seconds_to_lrc_time sec
  = let '(minutes, seconds, centiseconds) := lrc_fields sec in
    fmt_02d minutes ++ s2l ":" ++ fmt_02d seconds ++ s2l "." ++
    fmt_02d centiseconds.
Proof. reflexivity. Qed.

Lemma lrc_fields_spec (x : Q) :
  0 <= x ->
  let '(m, s, c) := lrc_fields x in
  (0 <= m)%Z /\ (0 <= s < 60)%Z /\ (0 <= c < 100)%Z
  /\ - (1 # 200) <= inject_Z (m * 60 + s) + inject_Z c / 100 - x <= 1 # 200.
Proof.
  intros Hx. unfold lrc_fields.
  destruct (Qlt_le_dec x 0) as [Hneg|_].
  { exfalso. apply (Qlt_irrefl 0). eapply Qle_lt_trans; eassumption. }
  unfold pymod, floordiv. rewrite trunc_inject_Z.
  set (m := Qfloor (x / 60)).
  pose proof (Qfloor_le (x / 60)) as Hm1.
  pose proof (Qlt_floor (x / 60)) as Hm2.
  fold m in Hm1, Hm2. rewrite inject_Z_plus in Hm2.
  change (inject_Z 1) with 1 in Hm2.
  assert (Hx60 : x == 60 * (x / 60)) by (field).
  assert (Hr0 : 0 <= x - 60 * inject_Z m) by q_lra.
  assert (Hr1 : x - 60 * inject_Z m < 60) by q_lra.
  rewrite (trunc_nonneg _ Hr0).
  set (s := Qfloor (x - 60 * inject_Z m)).
  pose proof (Qfloor_le (x - 60 * inject_Z m)) as Hs1.
  pose proof (Qlt_floor (x - 60 * inject_Z m)) as Hs2.
  fold s in Hs1, Hs2. rewrite inject_Z_plus in Hs2.
  change (inject_Z 1) with 1 in Hs2.
  assert (Hm : (0 <= m)%Z).
  { assert (H : (0 < m + 1)%Z); [|lia].
    rewrite Zlt_Qlt, inject_Z_plus. q_lra. }
  assert (Hs : (0 <= s < 60)%Z).
  { split.
    - assert (H : (0 < s + 1)%Z); [|lia].
      rewrite Zlt_Qlt, inject_Z_plus. q_lra.
    - rewrite Zlt_Qlt. q_lra. }
  rewrite (trunc_nonneg _ Hx).
  assert (HF : Qfloor x = (m * 60 + s)%Z).
  { apply Qfloor_unique.
    - rewrite inject_Z_plus, inject_Z_mult. q_lra.
    - rewrite !inject_Z_plus, inject_Z_mult. q_lra. }
  rewrite HF.
  set (f := x - inject_Z (m * 60 + s)).
  assert (Hf0 : 0 <= f).
  { unfold f. rewrite inject_Z_plus, inject_Z_mult. q_lra. }
  assert (Hf1 : f < 1).
  { unfold f. rewrite inject_Z_plus, inject_Z_mult. q_lra. }
  destruct (py_round_near (f * 100)) as [Hc Hnear]; [q_lra | q_lra |].
  set (c := py_round (f * 100)) in *.
  assert (HxF : x == inject_Z (m * 60 + s) + f) by (unfold f; ring).
  clearbody c. clearbody f.
  destruct (c =? 100)%Z eqn:Ec.
  - apply Z.eqb_eq in Ec. rewrite Ec in Hnear.
    destruct (s + 1 =? 60)%Z eqn:Es.
    + apply Z.eqb_eq in Es.
      split; [lia|]. split; [lia|]. split; [lia|].
      replace ((m + 1) * 60 + 0)%Z with (m * 60 + s + 1)%Z by lia.
      split; q_lra.
    + apply Z.eqb_neq in Es.
      split; [lia|]. split; [lia|]. split; [lia|].
      replace (m * 60 + (s + 1))%Z with (m * 60 + s + 1)%Z by lia.
      split; q_lra.
  - apply Z.eqb_neq in Ec.
    split; [lia|]. split; [lia|]. split; [lia|].
    split; q_lra.
Qed.

(** Decimal digits. *)
Lemma digit_char_facts (c : ascii) :
  is_digit c = true ->
  is_space c = false
  /\ Ascii.eqb c ":" = false /\ Ascii.eqb c "." = false
  /\ Ascii.eqb c "[" = false /\ Ascii.eqb c "]" = false
  /\ Ascii.eqb c "-" = false /\ Ascii.eqb c "+" = false.
Proof.
  destruct c as [[] [] [] [] [] [] [] []]; intros H;
    first [discriminate H | repeat split; reflexivity].
Qed.

Lemma digit_char_ok (d : Z) :
  (0 <= d < 10)%Z ->
  is_digit (digit_char d) = true /\ digit_val (digit_char d) = d.
Proof.
  intros Hd.
  assert (H : (d = 0 \/ d = 1 \/ d = 2 \/ d = 3 \/ d = 4 \/ d = 5 \/ d = 6
               \/ d = 7 \/ d = 8 \/ d = 9)%Z) by lia.
  repeat (destruct H as [-> | H]; [split; reflexivity|]).
  subst d. split; reflexivity.
Qed.

Lemma digits_value_snoc (ds : str) (c : ascii) :
  digits_value (ds ++ [c]) = (digits_value ds * 10 + digit_val c)%Z.
Proof. unfold digits_value. rewrite fold_left_app. reflexivity. Qed.

Lemma dec_digits_numeral (fuel : nat) (n : Z) :
  (0 <= n < 2 ^ Z.of_nat fuel)%Z -> (1 <= fuel)%nat ->
  numeral (dec_digits fuel n) n
  /\ ((n < 10)%Z -> List.length (dec_digits fuel n) = 1%nat)
  /\ ((10 <= n < 100)%Z -> List.length (dec_digits fuel n) = 2%nat).
Proof.
  revert n. induction fuel as [|f IH]; intros n Hn Hf; [lia|].
  cbn [dec_digits]. destruct (n <? 10)%Z eqn:E.
  - apply Z.ltb_lt in E.
    destruct (digit_char_ok n) as [Hd Hv]; [lia|].
    split; [|split; [reflexivity | lia]].
    split; [discriminate|]. split; [repeat constructor; exact Hd|].
    cbn. exact Hv.
  - apply Z.ltb_ge in E.
    assert (Hpow : (2 ^ Z.of_nat (S f) = 2 * 2 ^ Z.of_nat f)%Z).
    { rewrite Nat2Z.inj_succ, Z.pow_succ_r by lia. reflexivity. }
    assert (Hf1 : (1 <= f)%nat).
    { destruct f; [|lia]. cbn in Hn. lia. }
    assert (Hq : (0 <= n / 10 < 2 ^ Z.of_nat f)%Z).
    { split; [apply Z.div_pos; lia|].
      apply Z.div_lt_upper_bound; lia. }
    destruct (IH (n / 10)%Z Hq Hf1) as ((Hne & Hall & Hval) & Hl1 & _).
    destruct (digit_char_ok (n mod 10)) as [Hd Hv].
    { apply Z.mod_pos_bound. lia. }
    split; [|split].
    + split; [intros H; apply app_eq_nil in H; destruct H; discriminate|].
      split.
      * apply Forall_app. split; [exact Hall | repeat constructor; exact Hd].
      * rewrite digits_value_snoc, Hval, Hv.
        pose proof (Z.div_mod n 10). lia.
    + lia.
    + intros Hn2. rewrite length_app, Hl1; [reflexivity|].
      apply Z.div_lt_upper_bound; lia.
Qed.

Lemma str_of_nonneg_numeral (n : Z) :
  (0 <= n)%Z ->
  numeral (str_of_nonneg n) n
  /\ ((n < 10)%Z -> List.length (str_of_nonneg n) = 1%nat)
  /\ ((10 <= n < 100)%Z -> List.length (str_of_nonneg n) = 2%nat).
Proof.
  intros Hn. unfold str_of_nonneg. apply dec_digits_numeral; [|lia].
  split; [exact Hn|].
  rewrite Nat2Z.inj_succ, Z2Nat.id by apply Z.log2_nonneg.
  destruct (Z.eq_dec n 0) as [->|Hnz]; [reflexivity|].
  apply Z.log2_spec. lia.
Qed.

Lemma digits_value_zeros (k : nat) (ds : str) :
  digits_value (repeat "0"%char k ++ ds) = digits_value ds.
Proof.
  unfold digits_value. rewrite fold_left_app. f_equal.
  induction k as [|k IH]; [reflexivity|]. cbn. exact IH.
Qed.

Lemma fmt_02d_numeral (n : Z) :
  (0 <= n)%Z ->
  numeral (fmt_02d n) n
  /\ ((n < 100)%Z -> List.length (fmt_02d n) = 2%nat).
Proof.
  intros Hn. unfold fmt_02d.
  destruct (n <? 0)%Z eqn:E; [apply Z.ltb_lt in E; lia|].
  destruct (str_of_nonneg_numeral n Hn) as ((Hne & Hall & Hval) & Hl1 & Hl2).
  unfold rjust. split.
  - split; [|split].
    + intros H. apply app_eq_nil in H. destruct H as [_ H]. contradiction.
    + apply Forall_app. split; [|exact Hall].
      apply Forall_forall. intros c Hc. apply repeat_spec in Hc.
      subst c. reflexivity.
    + rewrite digits_value_zeros. exact Hval.
  - intros H100. rewrite length_app, repeat_length.
    destruct (Z_lt_le_dec n 10) as [H10|H10].
    + rewrite (Hl1 H10). reflexivity.
    + rewrite Hl2 by lia. reflexivity.
Qed.

(** Parsing a numeral. *)
Lemma strip_by_inner (p : ascii -> bool) (a b : ascii) (m : str) :
  p a = false -> p b = false ->
  strip_by p (a :: m ++ [b]) = a :: m ++ [b].
Proof.
  intros Ha Hb. unfold strip_by. cbn [lstrip_by]. rewrite Ha.
  unfold rstrip_by.
  change (a :: m ++ [b]) with ((a :: m) ++ [b]).
  rewrite rev_app_distr. cbn [rev app lstrip_by]. rewrite Hb.
  change (b :: rev m ++ [a]) with ([b] ++ (rev m ++ [a])).
  rewrite rev_app_distr, rev_app_distr, rev_involutive. reflexivity.
Qed.

Lemma strip_by_single (p : ascii -> bool) (a : ascii) :
  p a = false -> strip_by p [a] = [a].
Proof. intros Ha. unfold strip_by, rstrip_by. cbn. rewrite Ha. cbn. now rewrite Ha. Qed.

Lemma strip_by_ends (p : ascii -> bool) (s : str) :
  s <> [] ->
  (forall a r, s = a :: r -> p a = false) ->
  (forall r b, s = r ++ [b] -> p b = false) ->
  strip_by p s = s.
Proof.
  intros Hne Hhd Hlast. destruct s as [|a r]; [contradiction|].
  destruct (exists_last (l := a :: r)) as (r' & b & E); [discriminate|].
  destruct r' as [|a' r''].
  - cbn in E. injection E as -> ->. apply strip_by_single.
    apply (Hhd b []). reflexivity.
  - cbn in E. injection E as <- ->. apply strip_by_inner.
    + apply (Hhd a (r'' ++ [b])). reflexivity.
    + apply (Hlast (a :: r'') b). reflexivity.
Qed.

Lemma int_digits_all (ds : str) :
  Forall (fun c => is_digit c = true) ds -> int_digits true ds = Some ds.
Proof.
  induction 1 as [|c ds Hc Hds IH]; [reflexivity|].
  cbn [int_digits]. rewrite Hc, IH. reflexivity.
Qed.

Lemma numeral_ends (ds : str) (n : Z) (P : ascii -> Prop) :
  numeral ds n ->
  (forall c, is_digit c = true -> P c) ->
  (forall a r, ds = a :: r -> P a) /\ (forall r b, ds = r ++ [b] -> P b).
Proof.
  intros (_ & Hall & _) HP. split.
  - intros a r ->. inversion Hall; subst. apply HP. assumption.
  - intros r b ->. apply Forall_app in Hall. destruct Hall as [_ Hb].
    inversion Hb; subst. apply HP. assumption.
Qed.

Lemma py_int_numeral (ds : str) (n : Z) : numeral ds n -> py_int ds = Ok n.
Proof.
  intros Hnum. pose proof Hnum as (Hne & Hall & Hval). unfold py_int.
  destruct (numeral_ends ds n (fun c => is_space c = false) Hnum)
    as [Hh Hl].
  { intros c Hc. apply (digit_char_facts c Hc). }
  unfold strip. rewrite (strip_by_ends is_space ds Hne Hh Hl).
  destruct ds as [|c r]; [contradiction|].
  inversion Hall as [|? ? Hc Hr]; subst.
  destruct (digit_char_facts c Hc) as (_ & _ & _ & _ & _ & Hminus & Hplus).
  rewrite Hminus, Hplus. cbn [int_digits]. rewrite Hc.
  rewrite (int_digits_all r Hr). reflexivity.
Qed.

(** Splitting at a separator. *)
Lemma split_on_none (sep : ascii) (s : str) :
  Forall (fun c => Ascii.eqb c sep = false) s -> split_on sep s = [s].
Proof.
  induction 1 as [|c s Hc Hs IH]; [reflexivity|].
  cbn [split_on]. rewrite Hc, IH. reflexivity.
Qed.

Lemma split_on_app (sep : ascii) (a b : str) :
  Forall (fun c => Ascii.eqb c sep = false) a ->
  split_on sep (a ++ sep :: b) = a :: split_on sep b.
Proof.
  induction 1 as [|c a Hc Ha IH]; cbn [app split_on].
  - rewrite Ascii.eqb_refl. reflexivity.
  - rewrite Hc, IH. reflexivity.
Qed.

Lemma contains_app_sep (sep : ascii) (a b : str) :
  contains sep (a ++ sep :: b) = true.
Proof.
  unfold contains. rewrite existsb_app. cbn [existsb].
  rewrite Ascii.eqb_refl. apply orb_true_iff. right. reflexivity.
Qed.

Lemma numeral_no_sep (ds : str) (n : Z) (sep : ascii) :
  numeral ds n -> is_digit sep = false ->
  Forall (fun c => Ascii.eqb c sep = false) ds.
Proof.
  intros (_ & Hall & _) Hsep. eapply Forall_impl; [|exact Hall].
  intros c Hc. cbn beta in Hc. destruct (Ascii.eqb_spec c sep); [|reflexivity].
  subst c. congruence.
Qed.

(** What the parser makes of three numerals set out as a timestamp. *)
Lemma lrc_time_to_seconds_numerals (py_float : str -> result Q)
  (mm ss cc : str) (m s c : Z) :
  numeral mm m -> numeral ss s -> numeral cc c -> List.length cc = 2%nat ->
  lrc_time_to_seconds py_float (mm ++ s2l ":" ++ ss ++ s2l "." ++ cc)
  = Ok (inject_Z (m * 60 + s) + inject_Z c / 100).
Proof.
  intros Hm Hs Hc Hlen.
  change (mm ++ s2l ":" ++ ss ++ s2l "." ++ cc)
    with (mm ++ ":"%char :: ss ++ "."%char :: cc).
  set (t := mm ++ ":"%char :: ss ++ "."%char :: cc).
  assert (Hshape : exists a mid b,
             t = a :: mid ++ [b] /\ is_digit a = true /\ is_digit b = true).
  { destruct Hm as (Hne & Hall & _). destruct mm as [|a mm']; [contradiction|].
    destruct Hc as (_ & Hallc & _).
    destruct cc as [|c1 [|c2 [|c3 cc']]]; try discriminate Hlen.
    exists a, (mm' ++ ":"%char :: ss ++ ["."%char; c1]), c2.
    split; [|split].
    - unfold t. cbn [app]. f_equal. rewrite <- !app_assoc. cbn [app].
      f_equal. f_equal. rewrite <- app_assoc. reflexivity.
    - inversion Hall; assumption.
    - inversion Hallc as [|? ? _ H2]; subst. inversion H2; assumption. }
  destruct Hshape as (a & mid & b & Ht & Ha & Hb).
  destruct (digit_char_facts a Ha) as (Has & _ & _ & Hao & Hac & _).
  destruct (digit_char_facts b Hb) as (Hbs & _ & _ & Hbo & Hbc & _).
  unfold lrc_time_to_seconds.
  assert (Hstrip : strip t = t).
  { rewrite Ht. apply strip_by_inner; assumption. }
  assert (Hstrip2 : strip_chars (s2l "[]") t = t).
  { rewrite Ht. apply strip_by_inner; cbn [s2l list_ascii_of_string existsb].
    - rewrite Hao, Hac. reflexivity.
    - rewrite Hbo, Hbc. reflexivity. }
  rewrite Hstrip, Hstrip2. unfold t at 1.
  rewrite contains_app_sep.
  assert (Hsplit : split_on ":" t = [mm; ss ++ "."%char :: cc]).
  { unfold t. rewrite split_on_app by (eapply numeral_no_sep; eauto).
    rewrite split_on_none; [reflexivity|].
    apply Forall_app. split; [eapply numeral_no_sep; eauto|].
    constructor; [reflexivity|]. eapply numeral_no_sep; eauto. }
  rewrite Hsplit. cbn [nth].
  rewrite (py_int_numeral mm m Hm). cbn [bind].
  rewrite contains_app_sep.
  rewrite split_on_app by (eapply numeral_no_sep; eauto).
  rewrite split_on_none by (eapply numeral_no_sep; eauto).
  rewrite (py_int_numeral ss s Hs). cbn [bind].
  rewrite Hlen. cbn [Nat.eqb].
  rewrite (py_int_numeral cc c Hc). reflexivity.
Qed.

(** C2.  For every x >= 0, formatting x and parsing the result gives a
    value within 0.01 seconds of x (within half a centisecond, in fact). *)
Theorem codec_round_trip (py_float : str -> result Q) (x : Q) :
  0 <= x ->
  exists v : Q,
    lrc_time_to_seconds py_float (seconds_to_lrc_time x) = Ok v
    /\ Qabs (v - x) <= 0.01.
Proof.
  intros Hx. rewrite seconds_to_lrc_time_fields.
  pose proof (lrc_fields_spec x Hx) as Hspec.
  destruct (lrc_fields x) as [[m s] c].
  destruct Hspec as (Hm & Hs & Hc & Hnear).
  destruct (fmt_02d_numeral m Hm) as [Hnm _].
  destruct (fmt_02d_numeral s) as [Hns _]; [lia|].
  destruct (fmt_02d_numeral c) as [Hnc Hlen]; [lia|].
  exists (inject_Z (m * 60 + s) + inject_Z c / 100). split.
  - apply lrc_time_to_seconds_numerals; try assumption. apply Hlen. lia.
  - apply Qabs_Qle_condition. split.
    + eapply Qle_trans; [|exact (proj1 Hnear)]. discriminate.
    + eapply Qle_trans; [exact (proj2 Hnear)|]. discriminate.
Qed.

Lemma codec_round_trip_witness :
  exists v : Q,
    lrc_time_to_seconds (fun _ => Raise ValueError)
      (seconds_to_lrc_time 83.456) = Ok v
    /\ Qabs (v - 83.456) <= 0.01.
Proof.
  apply (codec_round_trip (fun _ => Raise ValueError) 83.456). discriminate.
Defined.

(* ================================================================== *)
(** * More on the lyric parser *)
(* ================================================================== *)

Lemma sorted_by_starts (a b : list entry) :
  map start a = map start b -> Sorted starts_le a -> Sorted starts_le b.
Proof.
  revert b. induction a as [|x a IH]; intros b Hmap Hs.
  - destruct b; [constructor | discriminate Hmap].
  - destruct b as [|y b]; [discriminate Hmap|].
    cbn [map] in Hmap. injection Hmap as Hxy Hab.
    inversion Hs as [|? ? Hs' Hhd]; subst.
    constructor; [apply IH; assumption|].
    destruct a as [|x' a]; destruct b as [|y' b]; try discriminate Hab.
    + constructor.
    + cbn [map] in Hab. injection Hab as Hx'y' _.
      inversion Hhd; subst. constructor. unfold starts_le in *.
      rewrite <- Hxy, <- Hx'y'. assumption.
Qed.

Lemma finalized_starts {l out : list entry} :
  finalized l out -> map start out = map start l.
Proof.
  intros Hf. apply finalized_start_text in Hf.
  apply (f_equal (map fst)) in Hf. rewrite !map_map in Hf. exact Hf.
Qed.

Lemma starts_le_trans : Relations_1.Transitive starts_le.
Proof. intros a b c Hab Hbc. unfold starts_le in *. eapply Qle_trans; eassumption. Qed.

(** The entries [parse_lrc] returns are in ascending order of start:
    every entry starts no later than every entry after it. *)
Theorem parse_lrc_sorted (raw : str) :
  StronglySorted starts_le (parse_lrc_text raw).
Proof.
  apply Sorted_StronglySorted; [exact starts_le_trans|].
  destruct (parse_lrc_text_finalized raw) as (Hs & _ & Hf).
  eapply sorted_by_starts; [|exact Hs].
  symmetry. apply (finalized_starts Hf).
Qed.

(** The sort is stable: among the entries of any one start, the order of
    the list is kept. *)
Lemma insert_by_start_stable (q : Q) (e : entry) (l : list entry) :
  filter (fun x => Qeq_bool (start x) q) (insert_by_start e l)
  = filter (fun x => Qeq_bool (start x) q) (e :: l).
Proof.
  induction l as [|x l IH]; cbn [insert_by_start]; [reflexivity|].
  destruct (Qle_bool (start e) (start x)) eqn:E; [reflexivity|].
  cbn [filter] in *. rewrite IH.
  destruct (Qeq_bool (start e) q) eqn:Ee, (Qeq_bool (start x) q) eqn:Ex;
    try reflexivity.
  exfalso. apply Qeq_bool_iff in Ee, Ex.
  assert (Hle : start e <= start x) by (rewrite Ee, Ex; apply Qle_refl).
  apply Qle_bool_iff in Hle. congruence.
Qed.

Lemma sort_by_start_stable (q : Q) (l : list entry) :
  filter (fun x => Qeq_bool (start x) q) (sort_by_start l)
  = filter (fun x => Qeq_bool (start x) q) l.
Proof.
  induction l as [|e l IH]; [reflexivity|].
  unfold sort_by_start in *. cbn [fold_right].
  rewrite insert_by_start_stable. cbn [filter]. rewrite IH. reflexivity.
Qed.

Lemma filter_by_start_text (p : Q -> bool) (a b : list entry) :
  map (fun e => (start e, text e)) a = map (fun e => (start e, text e)) b ->
  map text (filter (fun e => p (start e)) a)
  = map text (filter (fun e => p (start e)) b).
Proof.
  revert b. induction a as [|x a IH]; intros [|y b] H; try discriminate H;
    [reflexivity|].
  cbn [map] in H. injection H as Hs Ht H.
  cbn [filter]. rewrite Hs. destruct (p (start y)); cbn [map].
  - rewrite Ht. f_equal. apply IH. exact H.
  - apply IH. exact H.
Qed.

(** Entries that carry the same start come out of [parse_lrc] in the
    order in which the file gives them: the texts at any one start are
    those the lines of the file produced for it, in that order. *)
Theorem parse_lrc_keeps_file_order (raw : str) (q : Q) :
  let in_file_order := fold_left parse_line (splitlines (strip raw)) [] in
  map text (filter (fun e => Qeq_bool (start e) q) (parse_lrc_text raw))
  = map text (filter (fun e => Qeq_bool (start e) q) in_file_order).
Proof.
  intros in_file_order.
  destruct (parse_lrc_text_finalized raw) as (_ & _ & Hf).
  rewrite (filter_by_start_text (fun s => Qeq_bool s q) _ _
             (finalized_start_text Hf)).
  fold in_file_order. rewrite sort_by_start_stable. reflexivity.
Qed.

Lemma equal_starts_example :
  map text (parse_lrc_text (s2l "[00:02.00]c" ++ LF :: s2l "[00:01.00]b"
                            ++ LF :: s2l "[00:01.00]a"))
  = [s2l "b"; s2l "a"; s2l "c"].
Proof. vm_compute. reflexivity. Qed.

Lemma parse_line_meta (lyrics : list entry) (line : str) :
  is_meta (strip line) = true -> parse_line lyrics line = lyrics.
Proof.
  intros Hmeta. unfold parse_line.
  destruct (strip line) as [|c l]; [reflexivity|].
  rewrite Hmeta. reflexivity.
Qed.

Lemma parse_line_count (lyrics : list entry) (line : str) :
  List.length (parse_line lyrics line)
  = (List.length lyrics + stamp_count line)%nat.
Proof.
  unfold stamp_count. destruct (is_meta (strip line)) eqn:E.
  - rewrite parse_line_meta by exact E. apply plus_n_O.
  - apply parse_line_length. exact E.
Qed.

Lemma parse_lines_count (lines : list str) (lyrics : list entry) :
  List.length (fold_left parse_line lines lyrics)
  = (List.length lyrics + list_sum (map stamp_count lines))%nat.
Proof.
  revert lyrics. induction lines as [|l ls IH]; intros lyrics.
  - cbn. apply plus_n_O.
  - cbn [fold_left map list_sum fold_right]. rewrite IH, parse_line_count.
    fold (list_sum (map stamp_count ls)).
    apply eq_sym, Nat.add_assoc.
Qed.

Lemma parse_lrc_text_keeps_length (raw : str) :
  List.length (parse_lrc_text raw)
  = List.length (fold_left parse_line (splitlines (strip raw)) []).
Proof.
  destruct (parse_lrc_text_finalized raw) as (_ & _ & Hf).
  apply finalized_starts in Hf.
  apply (f_equal (@List.length Q)) in Hf. rewrite !length_map in Hf.
  rewrite Hf. symmetry. apply Permutation_length, sort_by_start_perm.
Qed.

(** The number of entries [parse_lrc] returns is the number of timestamp
    matches on the lines of the file that are not metadata lines:
    continuation lines, blank lines and metadata lines add none, and no
    entry is lost. *)
Theorem parse_lrc_entry_count (raw : str) :
  List.length (parse_lrc_text raw)
  = list_sum (map stamp_count (splitlines (strip raw))).
Proof.
  rewrite parse_lrc_text_keeps_length, parse_lines_count.
  reflexivity.
Qed.

Lemma list_sum_zero (l : list nat) :
  list_sum l = 0%nat <-> Forall (fun n => n = 0%nat) l.
Proof.
  unfold list_sum. induction l as [|n l IH]; cbn [fold_right].
  - split; [constructor | reflexivity].
  - split.
    + intros H. constructor; [lia|]. apply IH. lia.
    + intros H. inversion H as [|? ? Hn Hl]; subst.
      apply IH in Hl. lia.
Qed.

(** [parse_lrc] returns the empty list exactly when no line of the file
    other than metadata lines carries a timestamp; an empty file is one
    such case. *)
Theorem parse_lrc_empty_iff (raw : str) :
  parse_lrc_text raw = []
  <-> Forall (fun line => stamp_count line = 0%nat) (splitlines (strip raw)).
Proof.
  rewrite <- (length_zero_iff_nil (parse_lrc_text raw)).
  rewrite parse_lrc_text_keeps_length, parse_lines_count.
  cbn [List.length Nat.add]. rewrite list_sum_zero, Forall_map.
  reflexivity.
Qed.

Lemma parse_lrc_empty_iff_witness :
  parse_lrc_text (s2l "[ti:Song][00:01.00]" ++ LF :: s2l "no stamp here") = [].
Proof.
  apply (proj2 (parse_lrc_empty_iff
                  (s2l "[ti:Song][00:01.00]" ++ LF :: s2l "no stamp here"))).
  assert (E : splitlines
                (strip (s2l "[ti:Song][00:01.00]" ++ LF :: s2l "no stamp here"))
              = [s2l "[ti:Song][00:01.00]"; s2l "no stamp here"])
    by (vm_compute; reflexivity).
  rewrite E.
  constructor; [vm_compute; reflexivity|].
  constructor; [vm_compute; reflexivity|].
  constructor.
Defined.

Lemma scan_times_no_match (s : str) :
  fst (scan_times 0 s) = [] -> snd (scan_times 0 s) = s.
Proof.
  induction s as [|c s IH]; [reflexivity|].
  cbn [scan_times].
  destruct (match_time (c :: s)) as [[[[m sec] ms] n]|].
  - destruct (scan_times (n - 1) s). discriminate.
  - destruct (scan_times 0 s) as [ts rest]. cbn [fst snd] in *.
    intros H. rewrite (IH H). reflexivity.
Qed.

Lemma append_to_last_snoc (front : list entry) (e : entry) (more : str) :
  append_to_last (front ++ [e]) more
  = front ++ [mkEntry (start e) (end_ e) (text e ++ LF :: more)].
Proof.
  induction front as [|x front IH]; [reflexivity|].
  cbn [app]. destruct (front ++ [e]) as [|y ys] eqn:E.
  { destruct front; discriminate E. }
  change (append_to_last (x :: y :: ys) more)
    with (x :: append_to_last (y :: ys) more).
  rewrite IH. reflexivity.
Qed.

(** A line without a timestamp that is neither blank nor a metadata line
    is a continuation: its stripped text is appended, after a line break,
    to the text of the entry added last, and nothing else changes; while
    the list is still empty such a line is dropped. *)
Theorem continuation_line (line : str) :
  strip line <> [] -> is_meta (strip line) = false ->
  findall_times (strip line) = [] ->
  parse_line [] line = []
  /\ forall (front : list entry) (e : entry),
       parse_line (front ++ [e]) line
       = front ++ [mkEntry (start e) (end_ e)
                     (text e ++ LF :: strip line)].
Proof.
  intros Hne Hmeta Hts.
  assert (Htext : strip (sub_times (strip line)) = strip line).
  { unfold sub_times. rewrite scan_times_no_match by exact Hts.
    apply strip_idem. }
  unfold parse_line. rewrite Htext.
  destruct (strip line) as [|c l] eqn:E; [contradiction|].
  rewrite Hmeta, Hts. split; [reflexivity|].
  intros front e. rewrite <- append_to_last_snoc.
  destruct (front ++ [e]) eqn:E'; [|reflexivity].
  destruct front; discriminate E'.
Qed.

Lemma continuation_line_witness :
  parse_line ([mkEntry 1 4 (s2l "la")] ++ [mkEntry 2 5 (s2l "li")])
             (s2l "  lo [x] ")
  = [mkEntry 1 4 (s2l "la")]
    ++ [mkEntry 2 5 (s2l "li" ++ LF :: s2l "lo [x]")].
Proof.
  destruct (continuation_line (s2l "  lo [x] ")) as [_ H];
    [discriminate | reflexivity | reflexivity |].
  apply (H [mkEntry 1 4 (s2l "la")] (mkEntry 2 5 (s2l "li"))).
Defined.

(** Matches of the timestamp pattern. *)
Lemma match_seconds_frac_shape (m : str) (len_m : nat) (s : str)
  (r : str * str * str * nat) :
  match_seconds_frac m len_m s = Some r ->
  exists sec ms rest,
    r = (m, sec, ms, (len_m + List.length sec + List.length ms + 4)%nat)
    /\ s = s2l ":" ++ sec ++ s2l "." ++ ms ++ s2l "]" ++ rest
    /\ Forall (fun c => is_digit c = true) sec
    /\ Forall (fun c => is_digit c = true) ms
    /\ List.length sec = 2%nat
    /\ (List.length ms = 2 \/ List.length ms = 3)%nat.
Proof.
  unfold match_seconds_frac.
  destruct s as [|c0 [|s1 [|s2 [|c1 [|f1 [|f2 r']]]]]]; try discriminate.
  destruct (Ascii.eqb_spec c0 ":"); [subst c0|discriminate].
  destruct (is_digit s1) eqn:Hs1; [|discriminate].
  destruct (is_digit s2) eqn:Hs2; [|discriminate].
  destruct (Ascii.eqb_spec c1 "."); [subst c1|discriminate].
  destruct (is_digit f1) eqn:Hf1; [|discriminate].
  destruct (is_digit f2) eqn:Hf2; [|discriminate].
  cbn [andb].
  destruct r' as [|c2 r'']; [discriminate|].
  destruct (Ascii.eqb_spec c2 "]").
  - subst c2. intros H. injection H as <-.
    exists [s1; s2], [f1; f2], r''.
    split; [f_equal; cbn [List.length]; lia|].
    split; [reflexivity|].
    split; [repeat constructor; assumption|].
    split; [repeat constructor; assumption|].
    split; [reflexivity | left; reflexivity].
  - destruct (is_digit c2) eqn:Hc2; [|discriminate].
    destruct r'' as [|c3 r3]; [discriminate|].
    destruct (Ascii.eqb_spec c3 "]"); [subst c3|discriminate].
    intros H. injection H as <-.
    exists [s1; s2], [f1; f2; c2], r3.
    split; [f_equal; cbn [List.length]; lia|].
    split; [reflexivity|].
    split; [repeat constructor; assumption|].
    split; [repeat constructor; assumption|].
    split; [reflexivity | right; reflexivity].
Qed.

Lemma match_time_shape (s : str) (m sec ms : str) (n : nat) :
  match_time s = Some (m, sec, ms, n) ->
  stamp_groups (m, sec, ms)
  /\ n = List.length (stamp_text (m, sec, ms))
  /\ exists rest, s = stamp_text (m, sec, ms) ++ rest.
Proof.
  unfold match_time.
  destruct s as [|c0 [|m1 r]]; try discriminate.
  destruct (Ascii.eqb_spec c0 "["); [subst c0|discriminate].
  destruct (is_digit m1) eqn:Hm1; [|discriminate].
  cbn [andb].
  destruct r as [|m2 r']; [discriminate|].
  destruct (is_digit m2) eqn:Hm2; intros H;
    apply match_seconds_frac_shape in H;
    destruct H as (sec' & ms' & rest & Hr & Hs & Hsec & Hms & Hl1 & Hl2);
    injection Hr as -> -> -> ->.
  - split; [|split].
    + cbn. repeat split; try assumption;
        try (repeat constructor; assumption);
        first [right; reflexivity | left; reflexivity].
    + unfold stamp_text. cbn [s2l list_ascii_of_string app List.length].
      repeat (rewrite length_app; cbn [List.length app]). lia.
    + exists rest. rewrite Hs. unfold stamp_text.
      cbn [s2l list_ascii_of_string app].
      repeat (rewrite <- app_assoc; cbn [app]). reflexivity.
  - split; [|split].
    + cbn. repeat split; try assumption;
        try (repeat constructor; assumption);
        first [right; reflexivity | left; reflexivity].
    + unfold stamp_text. cbn [s2l list_ascii_of_string app List.length].
      repeat (rewrite length_app; cbn [List.length app]). lia.
    + exists rest. rewrite Hs. unfold stamp_text.
      cbn [s2l list_ascii_of_string app].
      repeat (rewrite <- app_assoc; cbn [app]). reflexivity.
Qed.

Lemma scan_times_groups (s : str) (skip : nat) :
  Forall stamp_groups (fst (scan_times skip s)).
Proof.
  revert skip. induction s as [|c s IH]; intros skip; [constructor|].
  cbn [scan_times]. destruct skip as [|k]; [|apply IH].
  destruct (match_time (c :: s)) as [[[[m sec] ms] n]|] eqn:E.
  - specialize (IH (n - 1)%nat).
    destruct (scan_times (n - 1) s) as [ts rest]. cbn [fst] in *.
    constructor; [|exact IH].
    apply (match_time_shape _ _ _ _ _ E).
  - specialize (IH 0%nat).
    destruct (scan_times 0 s) as [ts rest]. exact IH.
Qed.

Lemma findall_times_groups (line : str) :
  Forall stamp_groups (findall_times line).
Proof. apply scan_times_groups. Qed.

(* ================================================================== *)
(** * More on the time codec *)
(* ================================================================== *)

Lemma lstrip_by_run (p : ascii -> bool) (pre t : str) :
  Forall (fun c => p c = true) pre ->
  lstrip_by p (pre ++ t) = lstrip_by p t.
Proof.
  induction 1 as [|c pre Hc Hpre IH]; [reflexivity|].
  cbn [app lstrip_by]. rewrite Hc. exact IH.
Qed.

Lemma lstrip_by_stop (p : ascii -> bool) (t : str) :
  (forall a r, t = a :: r -> p a = false) -> lstrip_by p t = t.
Proof.
  intros H. destruct t as [|a r]; [reflexivity|].
  cbn [lstrip_by]. rewrite (H a r eq_refl). reflexivity.
Qed.

Lemma strip_by_framed (p : ascii -> bool) (pre t post : str) :
  Forall (fun c => p c = true) pre ->
  Forall (fun c => p c = true) post ->
  t <> [] ->
  (forall a r, t = a :: r -> p a = false) ->
  (forall r b, t = r ++ [b] -> p b = false) ->
  strip_by p (pre ++ t ++ post) = t.
Proof.
  intros Hpre Hpost Hne Hhd Hlast. unfold strip_by.
  rewrite lstrip_by_run by exact Hpre.
  rewrite lstrip_by_stop.
  - unfold rstrip_by. rewrite rev_app_distr.
    rewrite lstrip_by_run by (apply Forall_rev; exact Hpost).
    rewrite lstrip_by_stop; [apply rev_involutive|].
    intros a r Hrev. apply (Hlast (rev r) a).
    rewrite <- (rev_involutive t), Hrev. reflexivity.
  - intros a r Har. destruct t as [|a' t']; [contradiction|].
    cbn [app] in Har. injection Har as <- _. apply (Hhd a' t'). reflexivity.
Qed.

Lemma strip_by_clean (p : ascii -> bool) (pre t post : str) :
  Forall (fun c => p c = true) pre ->
  Forall (fun c => p c = true) post ->
  Forall (fun c => p c = false) t ->
  t <> [] ->
  strip_by p (pre ++ t ++ post) = t.
Proof.
  intros Hpre Hpost Ht Hne. apply strip_by_framed; try assumption.
  - intros a r ->. inversion Ht; assumption.
  - intros r b ->. apply Forall_app in Ht. destruct Ht as [_ Hb].
    inversion Hb; assumption.
Qed.

(** What [lrc_time_to_seconds] makes of a timestamp with a fraction:
    surrounding whitespace and brackets are dropped, and the fraction
    counts as hundredths when it has two digits and as thousandths
    otherwise. *)
Lemma lrc_time_to_seconds_framed (py_float : str -> result Q)
  (ws1 br1 mm ss ff br2 ws2 : str) (m s f : Z) :
  Forall (fun c => is_space c = true) ws1 ->
  Forall (fun c => is_space c = true) ws2 ->
  Forall is_bracket br1 -> Forall is_bracket br2 ->
  numeral mm m -> numeral ss s -> numeral ff f ->
  lrc_time_to_seconds py_float
    (ws1 ++ (br1 ++ (mm ++ ":"%char :: ss ++ "."%char :: ff) ++ br2) ++ ws2)
  = Ok (inject_Z (m * 60 + s)
        + inject_Z f / (if (List.length ff =? 2)%nat then 100 else 1000)).
Proof.
  intros Hw1 Hw2 Hb1 Hb2 Hm Hs Hf.
  set (t := mm ++ ":"%char :: ss ++ "."%char :: ff).
  set (in_brackets := fun c : ascii => existsb (Ascii.eqb c) (s2l "[]")).
  assert (Hdig : forall ds n, numeral ds n ->
             Forall (fun c => is_space c = false) ds
             /\ Forall (fun c => in_brackets c = false) ds).
  { intros ds n (_ & Hall & _). split.
    - eapply Forall_impl; [|exact Hall]. intros c Hc.
      apply (digit_char_facts c Hc).
    - eapply Forall_impl; [|exact Hall]. intros c Hc.
      destruct (digit_char_facts c Hc) as (_ & _ & _ & Ho & Hc' & _).
      unfold in_brackets. cbn. rewrite Ho, Hc'. reflexivity. }
  destruct (Hdig mm m Hm) as [Hms Hmb].
  destruct (Hdig ss s Hs) as [Hss Hsb].
  destruct (Hdig ff f Hf) as [Hfs Hfb].
  assert (Htne : t <> []).
  { unfold t. destruct mm; discriminate. }
  assert (Hts : Forall (fun c => is_space c = false) t).
  { unfold t. apply Forall_app. split; [exact Hms|].
    constructor; [reflexivity|]. apply Forall_app. split; [exact Hss|].
    constructor; [reflexivity | exact Hfs]. }
  assert (Htb : Forall (fun c => in_brackets c = false) t).
  { unfold t. apply Forall_app. split; [exact Hmb|].
    constructor; [reflexivity|]. apply Forall_app. split; [exact Hsb|].
    constructor; [reflexivity | exact Hfb]. }
  assert (Hbr : forall br, Forall is_bracket br ->
             Forall (fun c => is_space c = false) br
             /\ Forall (fun c => in_brackets c = true) br).
  { intros br Hbr. split; (eapply Forall_impl; [|exact Hbr]);
      intros c [-> | ->]; reflexivity. }
  destruct (Hbr br1 Hb1) as [Hb1s Hb1b].
  destruct (Hbr br2 Hb2) as [Hb2s Hb2b].
  unfold lrc_time_to_seconds.
  assert (Hstrip : strip (ws1 ++ (br1 ++ t ++ br2) ++ ws2) = br1 ++ t ++ br2).
  { apply strip_by_clean; try assumption.
    - apply Forall_app. split; [exact Hb1s|].
      apply Forall_app. split; assumption.
    - intros H. apply app_eq_nil in H. destruct H as [_ H].
      apply app_eq_nil in H. destruct H as [H _]. contradiction. }
  rewrite Hstrip.
  assert (Hstrip2 : strip_chars (s2l "[]") (br1 ++ t ++ br2) = t).
  { apply (strip_by_clean in_brackets); assumption. }
  rewrite Hstrip2. unfold t at 1. rewrite contains_app_sep.
  assert (Hsplit : split_on ":" t = [mm; ss ++ "."%char :: ff]).
  { unfold t. rewrite split_on_app by (eapply numeral_no_sep; eauto).
    rewrite split_on_none; [reflexivity|].
    apply Forall_app. split; [eapply numeral_no_sep; eauto|].
    constructor; [reflexivity|]. eapply numeral_no_sep; eauto. }
  rewrite Hsplit. cbn [nth].
  rewrite (py_int_numeral mm m Hm). cbn [bind].
  rewrite contains_app_sep.
  rewrite split_on_app by (eapply numeral_no_sep; eauto).
  rewrite split_on_none by (eapply numeral_no_sep; eauto).
  rewrite (py_int_numeral ss s Hs). cbn [bind].
  rewrite (py_int_numeral ff f Hf). cbn [bind].
  destruct (List.length ff =? 2)%nat; reflexivity.
Qed.

(** [lrc_time_to_seconds] reads a timestamp "M:SS.f" whatever the
    whitespace and brackets around it, as [M * 60 + SS] plus the
    fraction; the fraction counts as hundredths when it has exactly two
    digits and as thousandths for any other number of digits, so that
    "1:02.5" is 62.005 seconds. *)
Theorem timestamp_fraction_scale (py_float : str -> result Q)
  (ws1 br1 mm ss ff br2 ws2 : str) (m s f : Z) :
  Forall (fun c => is_space c = true) ws1 ->
  Forall (fun c => is_space c = true) ws2 ->
  Forall is_bracket br1 -> Forall is_bracket br2 ->
  numeral mm m -> numeral ss s -> numeral ff f ->
  let t := ws1 ++ (br1 ++ (mm ++ s2l ":" ++ ss ++ s2l "." ++ ff) ++ br2)
           ++ ws2 in
  (List.length ff = 2%nat ->
   lrc_time_to_seconds py_float t
   = Ok (inject_Z (m * 60 + s) + inject_Z f / 100))
  /\ (List.length ff <> 2%nat ->
      lrc_time_to_seconds py_float t
      = Ok (inject_Z (m * 60 + s) + inject_Z f / 1000)).
Proof.
  intros Hw1 Hw2 Hb1 Hb2 Hm Hs Hf t.
  pose proof (lrc_time_to_seconds_framed py_float ws1 br1 mm ss ff br2 ws2
                m s f Hw1 Hw2 Hb1 Hb2 Hm Hs Hf) as H.
  change (lrc_time_to_seconds py_float t
          = Ok (inject_Z (m * 60 + s)
                + inject_Z f
                  / (if (List.length ff =? 2)%nat then 100 else 1000)))
    in H.
  split; intros Hlen; rewrite H.
  - rewrite Hlen. reflexivity.
  - apply Nat.eqb_neq in Hlen. rewrite Hlen. reflexivity.
Qed.

Lemma timestamp_fraction_scale_witness :
  lrc_time_to_seconds (fun _ => Raise ValueError)
    (s2l " " ++ (s2l "[" ++ (s2l "1" ++ s2l ":" ++ s2l "02" ++ s2l "."
                             ++ s2l "5") ++ s2l "]") ++ s2l " ")
  = Ok (inject_Z (1 * 60 + 2) + inject_Z 5 / 1000)
  /\ lrc_time_to_seconds (fun _ => Raise ValueError)
       ([] ++ ([] ++ (s2l "01" ++ s2l ":" ++ s2l "02" ++ s2l "."
                      ++ s2l "50") ++ []) ++ [])
     = Ok (inject_Z (1 * 60 + 2) + inject_Z 50 / 100).
Proof.
  assert (Hnum : forall ds n,
             ds <> [] -> forallb is_digit ds = true ->
             digits_value ds = n -> numeral ds n).
  { intros ds n Hne Hall Hv. split; [exact Hne|]. split; [|exact Hv].
    apply Forall_forall. intros c Hc.
    rewrite forallb_forall in Hall. apply Hall. exact Hc. }
  assert (Hsp : Forall (fun c => is_space c = true) (s2l " "))
    by (repeat constructor).
  assert (Hopen : Forall is_bracket (s2l "["))
    by (repeat constructor; left; reflexivity).
  assert (Hclose : Forall is_bracket (s2l "]"))
    by (repeat constructor; right; reflexivity).
  split.
  - destruct (timestamp_fraction_scale (fun _ => Raise ValueError)
                (s2l " ") (s2l "[") (s2l "1") (s2l "02") (s2l "5") (s2l "]")
                (s2l " ") 1 2 5 Hsp Hsp Hopen Hclose) as [_ H];
      try (apply Hnum; [discriminate | reflexivity | reflexivity]).
    apply H. discriminate.
  - destruct (timestamp_fraction_scale (fun _ => Raise ValueError)
                [] [] (s2l "01") (s2l "02") (s2l "50") [] [] 1 2 50
                (Forall_nil _) (Forall_nil _) (Forall_nil _) (Forall_nil _))
      as [H _];
      try (apply Hnum; [discriminate | reflexivity | reflexivity]).
    apply H. reflexivity.
Defined.

Lemma stamp_groups_numerals (m sec ms : str) :
  stamp_groups (m, sec, ms) ->
  numeral m (digits_value m) /\ numeral sec (digits_value sec)
  /\ numeral ms (digits_value ms).
Proof.
  intros (Hm & Hs & Hms & Hlm & Hls & Hlms).
  repeat split; try assumption; intros ->; cbn in *;
    first [discriminate | lia | destruct Hlm; discriminate
          | destruct Hlms; discriminate].
Qed.

(** The seconds the parser computes for a timestamp match are those the
    codec gives for the matched text: [parse_lrc] and
    [lrc_time_to_seconds] read a timestamp the same way. *)
Theorem parser_agrees_with_codec (py_float : str -> result Q) (s : str)
  (m sec ms : str) (n : nat) :
  match_time s = Some (m, sec, ms, n) ->
  firstn n s = stamp_text (m, sec, ms)
  /\ lrc_time_to_seconds py_float (firstn n s)
     = Ok (stamp_seconds (m, sec, ms)).
Proof.
  intros Hmatch.
  destruct (match_time_shape s m sec ms n Hmatch) as (Hg & Hn & rest & Hs).
  assert (Hfirst : firstn n s = stamp_text (m, sec, ms)).
  { rewrite Hs, Hn, firstn_app, Nat.sub_diag, firstn_all, firstn_O.
    apply app_nil_r. }
  split; [exact Hfirst|]. rewrite Hfirst.
  destruct (stamp_groups_numerals m sec ms Hg) as (Hm & Hsec & Hms).
  assert (E : stamp_text (m, sec, ms)
              = [] ++ (s2l "[" ++ (m ++ ":"%char :: sec ++ "."%char :: ms)
                       ++ s2l "]") ++ []).
  { unfold stamp_text. cbn [s2l list_ascii_of_string app].
    rewrite app_nil_r. f_equal. rewrite <- app_assoc. cbn [app].
    f_equal. f_equal. rewrite <- app_assoc. reflexivity. }
  rewrite E.
  rewrite (lrc_time_to_seconds_framed py_float [] (s2l "[") m sec ms
             (s2l "]") [] _ _ _ (Forall_nil _) (Forall_nil _)
             (Forall_cons _ (or_introl eq_refl) (Forall_nil _))
             (Forall_cons _ (or_intror eq_refl) (Forall_nil _))
             Hm Hsec Hms).
  unfold stamp_seconds.
  destruct (List.length ms =? 2)%nat; reflexivity.
Qed.

Lemma parser_agrees_with_codec_witness :
  let s := s2l "[03:25.50]la la" in
  firstn 10 s = stamp_text (s2l "03", s2l "25", s2l "50")
  /\ lrc_time_to_seconds (fun _ => Raise ValueError) (firstn 10 s)
     = Ok (stamp_seconds (s2l "03", s2l "25", s2l "50")).
Proof.
  intros s.
  apply (parser_agrees_with_codec (fun _ => Raise ValueError) s
           (s2l "03") (s2l "25") (s2l "50") 10).
  reflexivity.
Defined.

Lemma seconds_to_lrc_time_clamp (x : Q) :
  x < 0 -> seconds_to_lrc_time x = seconds_to_lrc_time 0.
Proof.
  intros Hx. unfold seconds_to_lrc_time.
  destruct (Qlt_le_dec x 0) as [_|Hle]; [reflexivity|].
  exfalso. apply (Qlt_irrefl 0). eapply Qle_lt_trans; eassumption.
Qed.

Lemma lrc_fields_on_grid (m s c : Z) :
  (0 <= m)%Z -> (0 <= s < 60)%Z -> (0 <= c < 100)%Z ->
  lrc_fields (inject_Z (m * 60 + s) + inject_Z c / 100) = (m, s, c).
Proof.
  intros Hm Hs Hc.
  set (x := inject_Z (m * 60 + s) + inject_Z c / 100).
  assert (Hc0 : 0 <= inject_Z c).
  { change 0 with (inject_Z 0). rewrite <- Zle_Qle. lia. }
  assert (Hms0 : 0 <= inject_Z (m * 60 + s)).
  { change 0 with (inject_Z 0). rewrite <- Zle_Qle. lia. }
  assert (Hx : 0 <= x).
  { unfold x. unfold Qdiv. change (/ 100) with (1 # 100). Lqa.lra. }
  pose proof (lrc_fields_spec x Hx) as Hspec.
  destruct (lrc_fields x) as [[m' s'] c'].
  destruct Hspec as (Hm' & Hs' & Hc' & Hlo & Hhi).
  set (z := ((m' * 60 + s') * 100 + c' - ((m * 60 + s) * 100 + c))%Z).
  assert (Hz : inject_Z z
               == 100 * (inject_Z (m' * 60 + s') + inject_Z c' / 100 - x)).
  { unfold z, x.
    unfold Z.sub.
    repeat (rewrite inject_Z_plus || rewrite inject_Z_opp
            || rewrite inject_Z_mult).
    change (inject_Z 100) with 100.
    change (inject_Z 60) with 60. field. }
  assert (Hz1 : (z < 1)%Z).
  { rewrite Zlt_Qlt, Hz. change (inject_Z 1) with 1. Lqa.lra. }
  assert (Hz2 : (-1 < z)%Z).
  { rewrite Zlt_Qlt, Hz. change (inject_Z (-1)) with (-1). Lqa.lra. }
  unfold z in Hz1, Hz2.
  assert (m' = m /\ s' = s /\ c' = c) as (-> & -> & ->) by lia.
  reflexivity.
Qed.

Lemma seconds_to_lrc_time_nonneg_fields (x : Q) :
  exists m s c : Z,
    (0 <= m)%Z /\ (0 <= s < 60)%Z /\ (0 <= c < 100)%Z
    /\ seconds_to_lrc_time x
       = fmt_02d m ++ s2l ":" ++ fmt_02d s ++ s2l "." ++ fmt_02d c
    /\ ((0 <= x) ->
        - (1 # 200) <= inject_Z (m * 60 + s) + inject_Z c / 100 - x
        <= 1 # 200)
    /\ (x <= 0 -> m = 0%Z /\ s = 0%Z /\ c = 0%Z).
Proof.
  destruct (Qlt_le_dec x 0) as [Hneg|Hpos].
  - exists 0%Z, 0%Z, 0%Z.
    split; [lia|]. split; [lia|]. split; [lia|].
    split; [rewrite (seconds_to_lrc_time_clamp x Hneg); reflexivity|].
    split; [|intros _; repeat split; reflexivity].
    intros H0. exfalso. apply (Qlt_irrefl 0).
    eapply Qle_lt_trans; eassumption.
  - pose proof (lrc_fields_spec x Hpos) as Hspec.
    rewrite seconds_to_lrc_time_fields.
    destruct (lrc_fields x) as [[m s] c].
    destruct Hspec as (Hm & Hs & Hc & Hnear).
    exists m, s, c.
    split; [exact Hm|]. split; [exact Hs|]. split; [exact Hc|].
    split; [reflexivity|]. split; [intros _; exact Hnear|].
    intros Hle.
    assert (Hx0 : x == 0) by (apply Qle_antisym; assumption).
    destruct Hnear as [Hlo Hhi].
    assert (Hz : (((m * 60 + s) * 100 + c) < 1)%Z); [|lia].
    rewrite Zlt_Qlt.
    repeat (rewrite inject_Z_plus || rewrite inject_Z_mult).
    rewrite inject_Z_plus, inject_Z_mult in Hhi.
    change (inject_Z 100) with 100. change (inject_Z 60) with 60.
    change (inject_Z 60) with 60 in Hhi. change (inject_Z 1) with 1.
    unfold Qdiv in Hhi. change (/ 100) with (1 # 100) in Hhi.
    Lqa.lra.
Qed.

Lemma rjust_length (w : nat) (fill : ascii) (s : str) :
  List.length (rjust w fill s) = Nat.max w (List.length s).
Proof. unfold rjust. rewrite length_app, repeat_length. lia. Qed.

Lemma two_digits (ds : str) (n : Z) :
  numeral ds n -> List.length ds = 2%nat ->
  exists d1 d2, ds = [d1; d2] /\ is_digit d1 = true /\ is_digit d2 = true.
Proof.
  intros (_ & Hall & _) Hlen.
  destruct ds as [|d1 [|d2 [|d3 ds]]]; try discriminate Hlen.
  exists d1, d2. split; [reflexivity|].
  inversion Hall as [|? ? H1 H2]; subst. inversion H2; subst.
  split; assumption.
Qed.

(** Whatever the number of seconds, [seconds_to_lrc_time] prints at
    least two minute digits, a colon, exactly two second digits below 60,
    a dot and exactly two centisecond digits: after the rollover the
    seconds never read 60 and the centiseconds never 100. *)
Theorem seconds_to_lrc_time_shape (x : Q) :
  exists (mm : str) (s1 s2 c1 c2 : ascii),
    seconds_to_lrc_time x
    = mm ++ [":"%char; s1; s2; "."%char; c1; c2]
    /\ Forall (fun c => is_digit c = true) (mm ++ [s1; s2; c1; c2])
    /\ (2 <= List.length mm)%nat
    /\ (digits_value [s1; s2] < 60)%Z.
Proof.
  destruct (seconds_to_lrc_time_nonneg_fields x)
    as (m & s & c & Hm & Hs & Hc & Hout & _).
  destruct (fmt_02d_numeral m Hm) as [Hnm _].
  destruct (fmt_02d_numeral s) as [Hns Hls]; [lia|].
  destruct (fmt_02d_numeral c) as [Hnc Hlc]; [lia|].
  destruct (two_digits (fmt_02d s) s Hns) as (s1 & s2 & Es & Hs1 & Hs2);
    [apply Hls; lia|].
  destruct (two_digits (fmt_02d c) c Hnc) as (c1 & c2 & Ec & Hc1 & Hc2);
    [apply Hlc; lia|].
  exists (fmt_02d m), s1, s2, c1, c2.
  split; [|split; [|split]].
  - rewrite Hout, Es, Ec. reflexivity.
  - apply Forall_app. split; [apply Hnm|]. repeat constructor; assumption.
  - unfold fmt_02d. destruct (m <? 0)%Z eqn:E; [apply Z.ltb_lt in E; lia|].
    rewrite rjust_length. lia.
  - rewrite <- Es. destruct Hns as (_ & _ & ->). lia.
Qed.

(** A duration that is negative or zero is printed as "00:00.00". *)
Theorem seconds_to_lrc_time_not_positive (x : Q) :
  x <= 0 -> seconds_to_lrc_time x = s2l "00:00.00".
Proof.
  intros Hx.
  destruct (seconds_to_lrc_time_nonneg_fields x)
    as (m & s & c & _ & _ & _ & Hout & _ & Hzero).
  destruct (Hzero Hx) as (-> & -> & ->).
  rewrite Hout. reflexivity.
Qed.

Lemma seconds_to_lrc_time_not_positive_witness :
  seconds_to_lrc_time (- (7 # 2)) = s2l "00:00.00".
Proof. apply seconds_to_lrc_time_not_positive. discriminate. Defined.

(** Formatting is stable under a round trip: what
    [seconds_to_lrc_time] prints is parsed by [lrc_time_to_seconds]
    without error, and printing the parsed value gives the same text
    again. *)
Theorem format_parse_format (py_float : str -> result Q) (x : Q) :
  exists v : Q,
    lrc_time_to_seconds py_float (seconds_to_lrc_time x) = Ok v
    /\ seconds_to_lrc_time v = seconds_to_lrc_time x.
Proof.
  destruct (seconds_to_lrc_time_nonneg_fields x)
    as (m & s & c & Hm & Hs & Hc & Hout & _).
  destruct (fmt_02d_numeral m Hm) as [Hnm _].
  destruct (fmt_02d_numeral s) as [Hns _]; [lia|].
  destruct (fmt_02d_numeral c) as [Hnc Hlen]; [lia|].
  exists (inject_Z (m * 60 + s) + inject_Z c / 100). split.
  - rewrite Hout. apply lrc_time_to_seconds_numerals; try assumption.
    apply Hlen. lia.
  - rewrite seconds_to_lrc_time_fields, lrc_fields_on_grid by assumption.
    symmetry. exact Hout.
Qed.

Lemma digit_val_range (c : ascii) :
  is_digit c = true -> (0 <= digit_val c <= 9)%Z.
Proof.
  destruct c as [[] [] [] [] [] [] [] []]; intros H;
    first [discriminate H | vm_compute; split; discriminate].
Qed.

Lemma stamp_seconds_range (t : str * str * str) :
  stamp_groups t -> 0 <= stamp_seconds t /\ stamp_seconds t < 6040.
Proof.
  destruct t as [[m s] ms]. intros (Hm & Hs & Hms & Hlm & Hls & Hlms).
  assert (HM : (0 <= digits_value m <= 99)%Z).
  { destruct m as [|a [|b [|c m]]]; cbn in Hlm; try lia.
    - inversion Hm as [|? ? Ha _]; subst.
      pose proof (digit_val_range a Ha). cbn. lia.
    - inversion Hm as [|? ? Ha Hm']; subst. inversion Hm' as [|? ? Hb _]; subst.
      pose proof (digit_val_range a Ha). pose proof (digit_val_range b Hb).
      cbn. lia. }
  assert (HS : (0 <= digits_value s <= 99)%Z).
  { destruct s as [|a [|b [|c s]]]; cbn in Hls; try lia.
    inversion Hs as [|? ? Ha Hs']; subst. inversion Hs' as [|? ? Hb _]; subst.
    pose proof (digit_val_range a Ha). pose proof (digit_val_range b Hb).
    cbn. lia. }
  unfold stamp_seconds.
  assert (Hq : forall z lo hi : Z, (lo <= z <= hi)%Z ->
                 inject_Z lo <= inject_Z z /\ inject_Z z <= inject_Z hi).
  { intros z lo hi [H1 H2]. rewrite <- !Zle_Qle. split; assumption. }
  destruct (Hq (digits_value m * 60 + digits_value s)%Z 0%Z 6039%Z)
    as [Hlo Hhi]; [lia|].
  change (inject_Z 0) with 0 in Hlo. change (inject_Z 6039) with 6039 in Hhi.
  destruct ms as [|a [|b [|c [|d ms]]]]; cbn in Hlms; try lia.
  - inversion Hms as [|? ? Ha Hms']; subst.
    inversion Hms' as [|? ? Hb _]; subst.
    pose proof (digit_val_range a Ha). pose proof (digit_val_range b Hb).
    destruct (Hq (digits_value [a; b]) 0%Z 99%Z) as [Hflo Hfhi];
      [cbn; lia|].
    change (inject_Z 0) with 0 in Hflo. change (inject_Z 99) with 99 in Hfhi.
    cbn [List.length Nat.eqb]. unfold Qdiv. change (/ 100) with (1 # 100).
    split; Lqa.lra.
  - inversion Hms as [|? ? Ha Hms']; subst.
    inversion Hms' as [|? ? Hb Hms'']; subst.
    inversion Hms'' as [|? ? Hc _]; subst.
    pose proof (digit_val_range a Ha). pose proof (digit_val_range b Hb).
    pose proof (digit_val_range c Hc).
    destruct (Hq (digits_value [a; b; c]) 0%Z 999%Z) as [Hflo Hfhi];
      [cbn; lia|].
    change (inject_Z 0) with 0 in Hflo.
    change (inject_Z 999) with 999 in Hfhi.
    cbn [List.length Nat.eqb]. unfold Qdiv. change (/ 1000) with (1 # 1000).
    split; Lqa.lra.
Qed.

Lemma append_to_last_starts (lyrics : list entry) (more : str) :
  map start (append_to_last lyrics more) = map start lyrics.
Proof.
  induction lyrics as [|e rest IH]; [reflexivity|].
  destruct rest as [|e' rest']; [reflexivity|].
  change (append_to_last (e :: e' :: rest') more)
    with (e :: append_to_last (e' :: rest') more).
  cbn [map] in *. rewrite IH. reflexivity.
Qed.

Lemma Forall_by_starts (P : Q -> Prop) (a b : list entry) :
  map start a = map start b ->
  Forall (fun e => P (start e)) a -> Forall (fun e => P (start e)) b.
Proof.
  intros Hmap Ha.
  rewrite <- (Forall_map start P) in *. rewrite <- Hmap. exact Ha.
Qed.

Lemma parse_line_start_range (lyrics : list entry) (line : str) :
  Forall start_in_range lyrics -> Forall start_in_range (parse_line lyrics line).
Proof.
  intros H. unfold parse_line.
  destruct (strip line) as [|c l]; [exact H|].
  destruct (is_meta (c :: l)); [exact H|].
  pose proof (findall_times_groups (c :: l)) as Hg.
  destruct (findall_times (c :: l)) as [|t ts].
  - destruct lyrics as [|e rest]; [exact H|].
    destruct (strip (sub_times (c :: l))); [exact H|].
    eapply (Forall_by_starts (fun q => 0 <= q /\ q < 6040)); [|exact H].
    symmetry. apply append_to_last_starts.
  - apply Forall_app. split; [exact H|].
    apply Forall_forall. intros e He. apply in_map_iff in He.
    destruct He as (t' & <- & Ht'). apply stamp_seconds_range.
    rewrite Forall_forall in Hg. apply Hg. exact Ht'.
Qed.

(** Every entry [parse_lrc] returns starts at a time from 0 up to, but
    not including, 6040 seconds: the pattern allows at most 99 minutes
    and does not limit the seconds to 59, so "[99:99.999]" is the
    latest start a file can give. *)
Theorem parse_lrc_start_range (raw : str) :
  Forall (fun e => 0 <= start e /\ start e < 6040) (parse_lrc_text raw).
Proof.
  destruct (parse_lrc_text_finalized raw) as (_ & _ & Hf).
  apply finalized_starts in Hf.
  eapply (Forall_by_starts (fun q => 0 <= q /\ q < 6040));
    [symmetry; exact Hf|].
  apply Forall_forall. intros e He.
  apply (Permutation_in _ (Permutation_sym (sort_by_start_perm _))) in He.
  revert e He. apply Forall_forall.
  generalize (splitlines (strip raw)) as lines.
  assert (Hgen : forall lines lyrics,
             Forall start_in_range lyrics ->
             Forall start_in_range (fold_left parse_line lines lyrics)).
  { induction lines as [|l ls IH]; intros lyrics H; [exact H|].
    cbn [fold_left]. apply IH, parse_line_start_range, H. }
  intros lines. apply Hgen. constructor.
Qed.

(* ================================================================== *)
(** * Text wrapper *)
(* ================================================================== *)

Lemma split_ws_aux_space (cur a b : str) (c : ascii) :
  is_space c = true ->
  split_ws_aux cur (a ++ c :: b) = split_ws_aux cur a ++ split_ws_aux [] b.
Proof.
  intros Hc. revert cur.
  induction a as [|x a IH]; intros cur; cbn [app split_ws_aux].
  - rewrite Hc. destruct cur; reflexivity.
  - destruct (is_space x).
    + destruct cur; rewrite IH; reflexivity.
    + apply IH.
Qed.

Lemma split_ws_aux_no_space (cur w : str) :
  Forall (fun c => is_space c = false) w ->
  split_ws_aux cur w = match rev cur ++ w with [] => [] | l => [l] end.
Proof.
  intros H. revert cur.
  induction H as [|c w Hc Hw IH]; intros cur; cbn [split_ws_aux].
  - rewrite app_nil_r. destruct cur as [|a cur]; [reflexivity|].
    destruct (rev (a :: cur)) eqn:E; [|reflexivity].
    apply (f_equal (@List.length ascii)) in E.
    rewrite length_rev in E. discriminate E.
  - rewrite Hc, IH. cbn [rev]. rewrite <- app_assoc. reflexivity.
Qed.

Lemma split_ws_word (w : str) : is_word w -> split_ws w = [w].
Proof.
  intros [Hne Hw]. unfold split_ws. rewrite split_ws_aux_no_space by exact Hw.
  cbn [rev app]. destruct w; [contradiction | reflexivity].
Qed.

Lemma split_ws_aux_words (s cur : str) :
  Forall (fun c => is_space c = false) cur ->
  Forall is_word (split_ws_aux cur s).
Proof.
  revert cur. induction s as [|c s IH]; intros cur Hcur; cbn [split_ws_aux].
  - destruct cur as [|a cur]; [constructor|].
    repeat constructor.
    + intros E. apply (f_equal (@List.length ascii)) in E.
      rewrite length_rev in E. discriminate E.
    + apply Forall_rev. exact Hcur.
  - destruct (is_space c) eqn:Hc.
    + destruct cur as [|a cur]; [apply IH; constructor|].
      constructor; [|apply IH; constructor].
      split; [|apply Forall_rev; exact Hcur].
      intros E. apply (f_equal (@List.length ascii)) in E.
      rewrite length_rev in E. discriminate E.
    + apply IH. constructor; assumption.
Qed.

Lemma split_ws_words (s : str) : Forall is_word (split_ws s).
Proof. apply split_ws_aux_words. constructor. Qed.

Lemma split_ws_candidate (current_line word : str) :
  is_word word ->
  split_ws (current_line ++ s2l " " ++ word) = split_ws current_line ++ [word].
Proof.
  intros Hw. unfold split_ws. cbn [s2l list_ascii_of_string app].
  rewrite split_ws_aux_space by reflexivity.
  fold (split_ws word). rewrite (split_ws_word word Hw). reflexivity.
Qed.

Lemma wrap_words_keeps_words (width : Z) (words : list str)
  (current_line : str) :
  Forall is_word words ->
  flat_map split_ws (wrap_words width current_line words)
  = split_ws current_line ++ words.
Proof.
  intros Hwords. revert current_line.
  induction Hwords as [|word rest Hw Hrest IH]; intros current_line;
    cbn [wrap_words].
  - rewrite app_nil_r. destruct current_line; [reflexivity|].
    cbn [flat_map]. apply app_nil_r.
  - destruct current_line as [|c cur].
    + destruct (len word <=? width)%Z; rewrite IH, (split_ws_word word Hw);
        reflexivity.
    + set (cl := c :: cur).
      destruct (len (cl ++ s2l " " ++ word) <=? width)%Z.
      * rewrite IH, split_ws_candidate by exact Hw.
        rewrite <- app_assoc. reflexivity.
      * cbn [flat_map]. rewrite IH, (split_ws_word word Hw). reflexivity.
Qed.

(** Wrapping never drops, adds or reorders words: the words of the
    wrapped lines, read in order, are the words of the lines of the text,
    whatever the width. *)
Theorem wrap_text_keeps_words (text : str) (width : Z) :
  flat_map split_ws (wrap_text text width)
  = flat_map split_ws (split_on LF text).
Proof.
  unfold wrap_text.
  induction (split_on LF text) as [|line lines IH]; [reflexivity|].
  cbn [flat_map]. rewrite flat_map_app, IH. f_equal.
  destruct (len line <=? width)%Z.
  - cbn [flat_map]. apply app_nil_r.
  - rewrite wrap_words_keeps_words by apply split_ws_words. reflexivity.
Qed.

Lemma wrap_words_fit (width : Z) (words : list str) (current_line : str) :
  Forall is_word words ->
  current_line = [] \/ (len current_line <= width)%Z \/ is_word current_line ->
  Forall (fun l => l <> [] /\ ((len l <= width)%Z \/ is_word l))
         (wrap_words width current_line words).
Proof.
  intros Hwords. revert current_line.
  induction Hwords as [|word rest Hw Hrest IH]; intros current_line Hcur;
    cbn [wrap_words].
  - destruct current_line as [|c cur]; [constructor|].
    constructor; [|constructor]. split; [discriminate|].
    destruct Hcur as [Hcur|Hcur]; [discriminate Hcur | exact Hcur].
  - destruct current_line as [|c cur].
    + destruct (len word <=? width)%Z; apply IH; right; right; exact Hw.
    + set (cl := c :: cur) in *.
      destruct (len (cl ++ s2l " " ++ word) <=? width)%Z eqn:E.
      * apply IH. right. left. apply Z.leb_le. exact E.
      * constructor; [|apply IH; right; right; exact Hw].
        split; [discriminate|].
        destruct Hcur as [Hcur|Hcur]; [discriminate Hcur | exact Hcur].
Qed.

(** Every line [wrap_text] returns fits in the width, unless it is a
    single word, which is then longer than the width and left whole. *)
Theorem wrap_text_fits (text : str) (width : Z) :
  Forall (fun l => (len l <= width)%Z \/ is_word l) (wrap_text text width).
Proof.
  unfold wrap_text. apply Forall_flat_map, Forall_forall. intros line _.
  destruct (len line <=? width)%Z eqn:E.
  - constructor; [|constructor]. left. apply Z.leb_le. exact E.
  - eapply Forall_impl; [|apply wrap_words_fit].
    + intros l [_ H]. exact H.
    + apply split_ws_words.
    + left. reflexivity.
Qed.

(* ================================================================== *)
(** * More on the timing transform and the scheduler *)
(* ================================================================== *)

(** In the schedule printer and in the realtime scheduler alike, the
    first entry is scheduled at the start time plus the offset (at the
    offset alone when no start time is given), whatever its own
    timestamp and whatever the multiplier. *)
Theorem first_entry_at_baseline (e : entry) (rest : list entry)
  (offset : Q) (start_time : option Q) (speed_multiplier : Q) :
  ~ speed_multiplier == 0 ->
  exists a : Q,
    absolute_start (first_start (e :: rest)) (baseline_of start_time) offset
      speed_multiplier e = Ok a
    /\ adjusted_start (first_start (e :: rest)) (baseline_of start_time)
         offset speed_multiplier e = Ok a
    /\ a == baseline_of start_time + offset.
Proof.
  intros Hs. eexists. split; [|split].
  - apply absolute_start_ok. exact Hs.
  - apply absolute_start_ok. exact Hs.
  - cbn [first_start]. field. exact Hs.
Qed.

Lemma first_entry_at_baseline_witness :
  exists a : Q,
    absolute_start (first_start [mkEntry 12 15 (s2l "la")]) (baseline_of (Some 3))
      (1 # 2) 2 (mkEntry 12 15 (s2l "la")) = Ok a
    /\ a == 3 + (1 # 2).
Proof.
  destruct (first_entry_at_baseline (mkEntry 12 15 (s2l "la")) [] (1 # 2)
              (Some 3) 2) as (a & Ha & _ & Heq); [discriminate|].
  exists a. split; [exact Ha | exact Heq].
Defined.

Lemma relative_start_mono (first_time speed_multiplier x y : Q) :
  0 < speed_multiplier -> x <= y ->
  (x - first_time) / speed_multiplier <= (y - first_time) / speed_multiplier.
Proof.
  intros Hs Hxy. unfold Qdiv. apply Qmult_le_compat_r.
  - Lqa.lra.
  - apply Qlt_le_weak, Qinv_lt_0_compat. exact Hs.
Qed.

Lemma targets_sorted (first_time baseline offset speed_multiplier : Q)
  (lyrics : list entry) :
  0 < speed_multiplier -> StronglySorted starts_le lyrics ->
  StronglySorted Qle
    (map (fun line => baseline + (start line - first_time) / speed_multiplier
                      + offset) lyrics).
Proof.
  intros Hs Hsorted.
  induction Hsorted as [|e l Hl IH He]; cbn [map]; constructor.
  - exact IH.
  - apply Forall_map. eapply Forall_impl; [|exact He].
    intros n Hn. cbn beta.
    pose proof (relative_start_mono first_time speed_multiplier
                  (start e) (start n) Hs Hn).
    Lqa.lra.
Qed.

(** For a parsed file and a positive multiplier, the starts the
    scheduler aims at are defined for every entry, never decrease along
    the list, and none of them lies before the start time plus the
    offset. *)
Theorem parsed_targets_ascend (raw : str) (offset : Q)
  (start_time : option Q) (speed_multiplier : Q) :
  0 < speed_multiplier ->
  let lyrics := parse_lrc_text raw in
  exists targets : list Q,
    map (absolute_start (first_start lyrics) (baseline_of start_time) offset
           speed_multiplier) lyrics
    = map Ok targets
    /\ StronglySorted Qle targets
    /\ Forall (fun t => baseline_of start_time + offset <= t) targets.
Proof.
  intros Hs lyrics.
  assert (Hnz : ~ speed_multiplier == 0).
  { intros H. rewrite H in Hs. discriminate Hs. }
  assert (Hsorted : StronglySorted starts_le lyrics).
  { apply Sorted_StronglySorted; [exact starts_le_trans|].
    destruct (parse_lrc_text_finalized raw) as (Hsrt & _ & Hf).
    eapply sorted_by_starts; [|exact Hsrt].
    symmetry. apply (finalized_starts Hf). }
  exists (map (fun line => baseline_of start_time
                           + (start line - first_start lyrics)
                             / speed_multiplier + offset) lyrics).
  split; [|split].
  - rewrite map_map. apply map_ext. intros line.
    apply absolute_start_ok. exact Hnz.
  - apply targets_sorted; assumption.
  - apply Forall_map.
    destruct lyrics as [|e rest] eqn:E; [constructor|].
    cbn [first_start].
    assert (Hall : Forall (fun n => start e <= start n) (e :: rest)).
    { inversion Hsorted; subst. constructor; [apply Qle_refl | assumption]. }
    eapply Forall_impl; [|exact Hall]. intros n Hn. cbn beta.
    pose proof (relative_start_mono (start e) speed_multiplier
                  (start e) (start n) Hs Hn) as Hmono.
    assert (Hzero : (start e - start e) / speed_multiplier == 0)
      by (field; exact Hnz).
    rewrite Hzero in Hmono. Lqa.lra.
Qed.

Lemma parsed_targets_ascend_witness :
  exists targets : list Q,
    map (absolute_start
           (first_start (parse_lrc_text (s2l "[00:02.00]b[00:01.00]")))
           (baseline_of None) 0 2)
        (parse_lrc_text (s2l "[00:02.00]b[00:01.00]"))
    = map Ok targets
    /\ StronglySorted Qle targets.
Proof.
  destruct (parsed_targets_ascend (s2l "[00:02.00]b[00:01.00]") 0 None 2)
    as (targets & Hmap & Hsorted & _); [reflexivity|].
  exists targets. split; assumption.
Defined.

(** The delay the drift compensation chooses, for a base delay that is
    not negative: never less than a third of the base delay, and never
    more than the base delay or the floor of 0.001 s, whichever is
    larger.  So a base delay below the floor is lengthened, not
    shortened, when the scheduler is behind. *)
Theorem current_speed_range (base_speed drift : Q) :
  0 <= base_speed ->
  base_speed / 3 <= current_speed base_speed drift
  /\ current_speed base_speed drift <= Qmax base_speed 0.001
  /\ (drift <= 0 -> current_speed base_speed drift = base_speed)
  /\ (0 < drift -> 0.001 <= current_speed base_speed drift).
Proof.
  intros Hb. unfold current_speed.
  assert (Hthird : base_speed / 3 <= base_speed).
  { unfold Qdiv. change (/ 3) with (1 # 3). Lqa.lra. }
  destruct (Qlt_le_dec 0 drift) as [Hd|Hd].
  - set (catchup := Qmin 3.0 (1.0 + drift * 2.0)).
    assert (Hc : 1 <= catchup /\ catchup <= 3).
    { unfold catchup. split.
      - apply Q.min_glb; [discriminate | Lqa.lra].
      - eapply Qle_trans; [apply Q.le_min_l | discriminate]. }
    destruct Hc as [Hc1 Hc3].
    assert (Hcpos : 0 < catchup) by Lqa.lra.
    assert (Hlo : base_speed / 3 <= base_speed / catchup).
    { apply Qle_shift_div_l; [exact Hcpos|].
      unfold Qdiv. change (/ 3) with (1 # 3).
      setoid_replace (base_speed * (1 # 3) * catchup)
        with (catchup * (base_speed * (1 # 3))) by ring.
      eapply Qle_trans.
      - apply Qmult_le_compat_r; [exact Hc3 | Lqa.lra].
      - Lqa.lra. }
    assert (Hhi : base_speed / catchup <= base_speed).
    { apply Qle_shift_div_r; [exact Hcpos|].
      setoid_replace (base_speed * catchup) with (catchup * base_speed)
        by ring.
      rewrite <- (Qmult_1_l base_speed) at 1.
      apply Qmult_le_compat_r; assumption. }
    split; [|split; [|split]].
    + eapply Qle_trans; [exact Hlo | apply Q.le_max_l].
    + apply Q.max_le_compat_r. exact Hhi.
    + intros Hle. exfalso. apply (Qlt_irrefl 0).
      exact (Qlt_le_trans _ _ _ Hd Hle).
    + intros _. apply Q.le_max_r.
  - split; [exact Hthird|]. split; [apply Q.le_max_l|].
    split; [reflexivity|].
    intros Hlt. exfalso. apply (Qlt_irrefl 0).
    eapply Qlt_le_trans; eassumption.
Qed.

Lemma current_speed_range_witness :
  0.0005 / 3 <= current_speed 0.0005 2
  /\ current_speed 0.0005 2 <= Qmax 0.0005 0.001
  /\ 0.001 <= current_speed 0.0005 2.
Proof.
  destruct (current_speed_range 0.0005 2) as (Hlo & Hhi & _ & Hfloor);
    [discriminate|].
  repeat split; [exact Hlo | exact Hhi | apply Hfloor; reflexivity].
Defined.

(** The parenthesised spans. *)
Lemma paren_spans_in_order (s : str) (pos : nat) (opened : option nat)
  (lo : nat) :
  match opened with
  | None => (lo <= pos)%nat
  | Some i => (lo <= i /\ i < pos)%nat
  end ->
  spans_in_order lo (paren_spans pos opened s) (pos + List.length s).
Proof.
  revert pos opened lo.
  induction s as [|c s IH]; intros pos opened lo H; cbn [paren_spans].
  - constructor. cbn [List.length]. destruct opened; lia.
  - cbn [List.length]. rewrite Nat.add_succ_r.
    change (S (pos + List.length s)) with (S pos + List.length s)%nat.
    destruct opened as [i|].
    + destruct (Ascii.eqb c ")").
      * constructor; [lia | lia | lia |]. apply IH. lia.
      * apply IH. lia.
    + destruct (Ascii.eqb c "("); apply IH; lia.
Qed.

Lemma slice_then_rest (s : str) (a b : nat) :
  (a <= b)%nat -> slice s a b ++ skipn b s = skipn a s.
Proof.
  intros Hab. unfold slice.
  replace b with ((b - a) + a)%nat at 2 by lia.
  rewrite <- skipn_skipn. apply firstn_skipn.
Qed.

Lemma span_calls_text (wrapped_line color dim_color : str) (speed : Q)
  (effect : str) (last_idx : nat) (spans : list (nat * nat)) :
  spans_in_order last_idx spans (List.length wrapped_line) ->
  let '(evs, last) :=
    span_calls wrapped_line color dim_color speed effect last_idx spans in
  List.concat (map event_text evs) ++ skipn last wrapped_line
  = skipn last_idx wrapped_line
  /\ (last <= List.length wrapped_line)%nat.
Proof.
  intros H. induction H as [lo hi Hle|lo a b hi rest Hla Hab Hbh Hrest IH];
    cbn [span_calls].
  - split; [reflexivity | exact Hle].
  - destruct (span_calls wrapped_line color dim_color speed effect b rest)
      as [evs last].
    destruct IH as [IH Hlast]. split; [|exact Hlast].
    rewrite map_app, concat_app. cbn [map List.concat event_text].
    rewrite <- !app_assoc, IH, slice_then_rest by exact Hab.
    destruct (lo <? a)%nat eqn:E.
    + cbn [map List.concat event_text]. rewrite app_nil_r.
      apply slice_then_rest. exact Hla.
    + apply Nat.ltb_ge in E. assert (a = lo) as -> by lia. reflexivity.
Qed.

Lemma line_calls_text (g : genre) (wrapped_line : str) (speed : Q) :
  List.concat (map event_text (line_calls g wrapped_line speed)) = wrapped_line.
Proof.
  unfold line_calls.
  destruct (startswith (s2l "-") (strip wrapped_line)).
  { cbn. apply app_nil_r. }
  pose proof (paren_spans_in_order wrapped_line 0 None 0 (Nat.le_refl 0))
    as Hord.
  cbn [Nat.add] in Hord.
  pose proof (span_calls_text wrapped_line (color g) (DIM ++ color g) speed
                (effect g) 0 (paren_spans 0 None wrapped_line) Hord) as Ht.
  destruct (span_calls wrapped_line (color g) (DIM ++ color g) speed
              (effect g) 0 (paren_spans 0 None wrapped_line))
    as [evs last] eqn:E.
  destruct Ht as [Ht Hlast]. cbn [skipn] in Ht.
  rewrite map_app, concat_app.
  destruct (paren_spans 0 None wrapped_line) as [|sp rest].
  - cbn [span_calls] in E. injection E as <- <-.
    cbn. apply app_nil_r.
  - destruct (last <? List.length wrapped_line)%nat eqn:El.
    + cbn [map List.concat event_text]. rewrite app_nil_r. exact Ht.
    + apply Nat.ltb_ge in El. cbn [map List.concat]. rewrite app_nil_r.
      rewrite skipn_all2 in Ht by exact El. rewrite app_nil_r in Ht.
      exact Ht.
Qed.

(** Splitting a wrapped line at its parenthesised spans loses nothing:
    the texts handed to [animate_text] for the line, put together in the
    order of the calls, are the line itself, character for character. *)
Theorem wrapped_line_text_preserved (g : genre) (cfg : config)
  (base_speed playback_start abs_start : Q) (wrapped_line : str) (w : world) :
  List.concat (map event_text
            (emitted (play_wrapped_line g cfg base_speed playback_start
                        abs_start wrapped_line) w))
  = wrapped_line.
Proof.
  destruct (play_wrapped_line_trace g cfg base_speed playback_start abs_start
              wrapped_line w) as [r Htrace].
  apply emitted_of_trace in Htrace. rewrite Htrace.
  rewrite !map_app, !concat_app, line_calls_text.
  destruct (Qlt_le_dec (margin_between_lines cfg) 0); cbn; apply app_nil_r.
Qed.

(* ================================================================== *)
(** * More on the word-timing exporter and the time display *)
(* ================================================================== *)

Lemma caption_words_words (caption : entry) :
  map word (caption_words caption) = split_ws (text caption).
Proof.
  unfold caption_words, enumerate. rewrite map_map.
  match goal with
  | |- context [Qmax ?a ?b / ?n] =>
      set (step := match split_ws (text caption) with
                   | [] => Qmax a b
                   | _ :: _ => Qmax a b / n
                   end)
  end.
  clearbody step. generalize 0%nat as i.
  induction (split_ws (text caption)) as [|x l IH]; intros i; [reflexivity|].
  cbn [List.length seq combine map word]. f_equal. apply IH.
Qed.

(** The export has one caption per entry, in order and with the entry's
    text; its flat word list is the per-caption word lists put end to
    end, and the words in it are the whitespace-separated words of the
    whole lyric, in order. *)
Theorem export_structure (lyrics : list entry) :
  let r := export_result lyrics in
  map c_text (captions r) = map text lyrics
  /\ words r = flat_map c_words (captions r)
  /\ map word (words r) = flat_map (fun e => split_ws (text e)) lyrics.
Proof.
  cbn [export_result captions words]. split; [|split].
  - rewrite map_map. reflexivity.
  - induction lyrics as [|e l IH]; [reflexivity|].
    cbn [flat_map map c_words]. rewrite IH. reflexivity.
  - induction lyrics as [|e l IH]; [reflexivity|].
    cbn [flat_map]. rewrite map_app, IH, caption_words_words. reflexivity.
Qed.

Lemma minutes_seconds_of (x : Q) :
  0 <= x ->
  let m := trunc (floordiv x 60) in
  let s := trunc (pymod x 60) in
  (0 <= m)%Z /\ (0 <= s < 60)%Z /\ (m * 60 + s)%Z = Qfloor x.
Proof.
  intros Hx. unfold pymod, floordiv. rewrite trunc_inject_Z.
  set (m := Qfloor (x / 60)).
  pose proof (Qfloor_le (x / 60)) as Hm1.
  pose proof (Qlt_floor (x / 60)) as Hm2.
  fold m in Hm1, Hm2. rewrite inject_Z_plus in Hm2.
  change (inject_Z 1) with 1 in Hm2.
  unfold Qdiv in Hm1, Hm2. change (/ 60) with (1 # 60) in Hm1, Hm2.
  assert (Hr0 : 0 <= x - 60 * inject_Z m) by Lqa.lra.
  assert (Hr1 : x - 60 * inject_Z m < 60) by Lqa.lra.
  rewrite (trunc_nonneg _ Hr0).
  set (s := Qfloor (x - 60 * inject_Z m)).
  pose proof (Qfloor_le (x - 60 * inject_Z m)) as Hs1.
  pose proof (Qlt_floor (x - 60 * inject_Z m)) as Hs2.
  fold s in Hs1, Hs2. rewrite inject_Z_plus in Hs2.
  change (inject_Z 1) with 1 in Hs2.
  cbv zeta.
  assert (Hm : (0 <= m)%Z).
  { assert (H : (0 < m + 1)%Z); [|lia].
    rewrite Zlt_Qlt, inject_Z_plus.
    change (inject_Z 0) with 0. change (inject_Z 1) with 1. Lqa.lra. }
  assert (Hs : (0 <= s < 60)%Z).
  { split.
    - assert (H : (0 < s + 1)%Z); [|lia].
      rewrite Zlt_Qlt, inject_Z_plus.
      change (inject_Z 0) with 0. change (inject_Z 1) with 1. Lqa.lra.
    - rewrite Zlt_Qlt. change (inject_Z 60) with 60. Lqa.lra. }
  split; [exact Hm|]. split; [exact Hs|].
  symmetry. apply Qfloor_unique.
  - rewrite inject_Z_plus, inject_Z_mult. change (inject_Z 60) with 60.
    Lqa.lra.
  - rewrite !inject_Z_plus, inject_Z_mult. change (inject_Z 60) with 60.
    change (inject_Z 1) with 1. Lqa.lra.
Qed.

(** For a time that is not negative once the configured start offset is
    added, [format_time_display] shows the whole seconds of that time,
    rounded down, as minutes and seconds below 60: 59.999 s is shown as
    "00:59", where [seconds_to_lrc_time] rounds it to "01:00.00". *)
Theorem format_time_display_floor (seconds : Q) (cfg : config) :
  let total := seconds + (lrc_start_minute cfg * 60 + lrc_start_second cfg) in
  0 <= total ->
  exists m s : Z,
    format_time_display seconds cfg = fmt_02d m ++ s2l ":" ++ fmt_02d s
    /\ (0 <= m)%Z /\ (0 <= s < 60)%Z /\ (m * 60 + s)%Z = Qfloor total
    /\ List.length (fmt_02d s) = 2%nat.
Proof.
  intros total Htotal.
  destruct (minutes_seconds_of total Htotal) as (Hm & Hs & Hfloor).
  exists (trunc (floordiv total 60)), (trunc (pymod total 60)).
  split; [reflexivity|]. split; [exact Hm|]. split; [exact Hs|].
  split; [exact Hfloor|].
  apply (fmt_02d_numeral (trunc (pymod total 60))); lia.
Qed.

Lemma format_time_display_floor_witness :
  format_time_display 59.999 DEFAULT_CONFIG = s2l "00:59"
  /\ seconds_to_lrc_time 59.999 = s2l "01:00.00".
Proof.
  destruct (format_time_display_floor 59.999 DEFAULT_CONFIG)
    as (m & s & Hout & Hm & Hs & Hfloor & _); [discriminate|].
  split; [|reflexivity].
  rewrite Hout.
  assert (Hf : Qfloor (59.999 + (lrc_start_minute DEFAULT_CONFIG * 60
                                 + lrc_start_second DEFAULT_CONFIG)) = 59%Z)
    by reflexivity.
  rewrite Hf in Hfloor.
  assert (m = 0%Z /\ s = 59%Z) as [-> ->] by lia.
  reflexivity.
Defined.

(* ================================================================== *)
(** * Character effects and progress bars *)
(* ================================================================== *)

(** Whatever the effect, the index and the random glitch symbol,
    [apply_effect] gives either the character alone or three characters:
    a first strike, a backspace, and the character, so that the
    character is what is left on the screen.  Only "shake",
    "heavy_shake", "glitch" and "vibrate" ever give three. *)
Theorem apply_effect_leaves_char (char : ascii) (effect : str) (index : Z)
  (choice : ascii) :
  (apply_effect char effect index choice = [char]
   \/ exists first, apply_effect char effect index choice
                    = [first; BS; char])
  /\ (effect_is effect "shake" = false ->
      effect_is effect "heavy_shake" = false ->
      effect_is effect "glitch" = false ->
      effect_is effect "vibrate" = false ->
      apply_effect char effect index choice = [char]).
Proof.
  unfold apply_effect. split.
  - destruct (effect_is effect "shake" || effect_is effect "heavy_shake").
    { destruct (index mod 3 =? 0)%Z; [right; eexists | left]; reflexivity. }
    destruct (effect_is effect "glitch").
    { destruct (index mod 5 =? 0)%Z; [right; eexists | left]; reflexivity. }
    destruct (effect_is effect "vibrate"); [|left; reflexivity].
    destruct (index mod 4 =? 0)%Z; [right; eexists | left]; reflexivity.
  - intros -> -> -> ->. reflexivity.
Qed.

Lemma apply_effect_leaves_char_witness :
  apply_effect "a" (s2l "wave") 3 "!" = ["a"%char].
Proof.
  apply (apply_effect_leaves_char "a" (s2l "wave") 3 "!"); reflexivity.
Defined.

Lemma progress_range (step steps : Z) :
  (1 <= steps)%Z -> (0 <= step <= steps)%Z ->
  0 <= progress_of step steps /\ progress_of step steps <= 1.
Proof.
  intros Hsteps Hstep. unfold progress_of.
  assert (Hpos : 0 < inject_Z steps).
  { change 0 with (inject_Z 0). rewrite <- Zlt_Qlt. lia. }
  split.
  - apply Qle_shift_div_l; [exact Hpos|]. rewrite Qmult_0_l.
    change 0 with (inject_Z 0). rewrite <- Zle_Qle. lia.
  - apply Qle_shift_div_r; [exact Hpos|]. rewrite Qmult_1_l.
    rewrite <- Zle_Qle. lia.
Qed.

Lemma trunc_scaled_range (p : Q) (k : Z) :
  (0 <= k)%Z -> 0 <= p -> p <= 1 ->
  (0 <= trunc (p * inject_Z k) <= k)%Z.
Proof.
  intros Hk Hp0 Hp1.
  assert (Hkq : 0 <= inject_Z k).
  { change 0 with (inject_Z 0). rewrite <- Zle_Qle. exact Hk. }
  assert (H0 : 0 <= p * inject_Z k) by (apply Qmult_le_0_compat; assumption).
  assert (H1 : p * inject_Z k <= inject_Z k).
  { rewrite <- (Qmult_1_l (inject_Z k)) at 2.
    apply Qmult_le_compat_r; assumption. }
  rewrite (trunc_nonneg _ H0). split.
  - rewrite <- (Qfloor_Z 0). apply Qfloor_resp_le. exact H0.
  - rewrite <- (Qfloor_Z k) at 2. apply Qfloor_resp_le. exact H1.
Qed.

Lemma trunc_scaled_one (p : Q) (k : Z) :
  (0 <= k)%Z -> p == 1 -> trunc (p * inject_Z k) = k.
Proof.
  intros Hk Hp.
  assert (E : p * inject_Z k == inject_Z k) by (rewrite Hp; ring).
  assert (H0 : 0 <= p * inject_Z k).
  { rewrite E. change 0 with (inject_Z 0). rewrite <- Zle_Qle. exact Hk. }
  rewrite (trunc_nonneg _ H0), (Qfloor_comp _ _ E). apply Qfloor_Z.
Qed.

(** The progress bar of both cosmetic routines is always exactly 20
    cells wide and its percentage lies between 0 and 100: it starts
    empty at 0% and its last frame is full at 100%. *)
Theorem bar_width_constant (step steps : Z) :
  (1 <= steps)%Z -> (0 <= step <= steps)%Z ->
  List.length (bar_of step steps) = 20%nat
  /\ (0 <= percentage_of step steps <= 100)%Z
  /\ (step = 0%Z ->
      bar_of step steps = repeat "-"%char 20
      /\ percentage_of step steps = 0%Z)
  /\ (step = steps ->
      bar_of step steps = full_bar /\ percentage_of step steps = 100%Z).
Proof.
  intros Hsteps Hstep.
  destruct (progress_range step steps Hsteps Hstep) as [Hp0 Hp1].
  pose proof (trunc_scaled_range (progress_of step steps) 20
                ltac:(lia) Hp0 Hp1) as Hfilled.
  pose proof (trunc_scaled_range (progress_of step steps) 100
                ltac:(lia) Hp0 Hp1) as Hpct.
  split; [|split; [|split]].
  - unfold bar_of, bar_width. rewrite length_app, !repeat_length. lia.
  - exact Hpct.
  - intros ->.
    assert (Hz : progress_of 0 steps == 0).
    { unfold progress_of. change (inject_Z 0) with 0. unfold Qdiv.
      apply Qmult_0_l. }
    assert (Ht : forall k, trunc (progress_of 0 steps * inject_Z k) = 0%Z).
    { intros k.
      assert (E : progress_of 0 steps * inject_Z k == inject_Z 0)
        by (rewrite Hz; ring).
      assert (H0 : 0 <= progress_of 0 steps * inject_Z k)
        by (rewrite E; discriminate).
      rewrite (trunc_nonneg _ H0), (Qfloor_comp _ _ E). apply Qfloor_Z. }
    split.
    + unfold bar_of, bar_width. rewrite Ht. reflexivity.
    + apply (Ht 100%Z).
  - intros ->.
    assert (Hone : progress_of steps steps == 1).
    { unfold progress_of. field. intros H.
      apply (inject_Z_injective steps 0) in H. lia. }
    split.
    + unfold bar_of, bar_width.
      rewrite (trunc_scaled_one _ 20 ltac:(lia) Hone).
      cbn [Z.sub Z.add Z.opp Z.to_nat repeat]. apply app_nil_r.
    + apply (trunc_scaled_one _ 100 ltac:(lia) Hone).
Qed.

Lemma bar_width_constant_witness :
  List.length (bar_of 2 3) = 20%nat /\ (0 <= percentage_of 2 3 <= 100)%Z.
Proof.
  destruct (bar_width_constant 2 3) as (Hlen & Hpct & _); [lia | lia |].
  split; assumption.
Defined.

(* ================================================================== *)
(** * More on the program *)
(* ================================================================== *)

Lemma yields_optional_time (py_float : str -> result Q) (o : option str)
  (v : option Q) :
  time_option py_float o v -> yields (optional_time py_float o) (Ok v) [].
Proof.
  unfold time_option, optional_time. destruct (truthy o) as [t|].
  - intros (q & Hq & ->). rewrite Hq.
    eapply yields_eq; [eapply yields_bind; [apply yields_lift|apply yields_ret]|].
    reflexivity.
  - intros ->. apply yields_ret.
Qed.

(** A malformed offset or start time is not reported by [main]: with a
    known genre, the error of the time parser leaves [main] as it is,
    before anything has been written. *)
Theorem malformed_time_propagates (py_float : str -> result Q)
  (repr_float : Q -> str) (read_file : str -> read_outcome)
  (a : args) (cfg : config) (g : genre) (t : str) (e : exn) :
  lookup_genre (genre_key a cfg) (genres cfg) = Some g ->
  truthy (a_offset a) = Some t ->
  parse_time_input py_float t = Raise e ->
  yields (main py_float repr_float read_file a cfg) (Raise e) [].
Proof.
  intros Hg Ht He. unfold main. rewrite Hg.
  apply yields_bind_raise. unfold optional_time. rewrite Ht, He.
  apply yields_bind_raise. apply yields_lift.
Qed.

Lemma malformed_time_propagates_witness :
  run (main (fun _ => Raise ValueError) (fun _ => s2l "1.0")
         (fun _ => FileText (s2l "[00:01.00]la"))
         (mkArgs (s2l "song.lrc") (Some (s2l "pop")) false
            (Some (s2l "1:xx")) None None None None None false)
         DEFAULT_CONFIG)
      (fun _ => 0)
  = (Raise ValueError, []).
Proof.
  apply yields_run.
  apply (malformed_time_propagates _ _ _ _ _
           (mkGenre (esc "[95m") 0.02 (s2l "bounce")
              (s2l "Pop — bright, per-word bounce"))
           (s2l "1:xx") ValueError); reflexivity.
Defined.

(** A speed multiplier that is zero or negative is rejected before the
    file is opened: with a known genre and well-formed time arguments,
    [main] writes the error message, nothing else, and exits with
    status 1. *)
Theorem nonpositive_speed_rejected (py_float : str -> result Q)
  (repr_float : Q -> str) (read_file : str -> read_outcome)
  (a : args) (cfg : config) (g : genre) (off st : option Q) (v : Q) :
  lookup_genre (genre_key a cfg) (genres cfg) = Some g ->
  time_option py_float (a_offset a) off ->
  time_option py_float (a_start a) st ->
  a_speed a = Some v -> v <= 0 ->
  yields (main py_float repr_float read_file a cfg)
         (Raise (SystemExit 1))
         [Print ((RED ++ s2l "[ERROR] Speed multiplier harus > 0" ++ RESET)
                 ++ [LF])].
Proof.
  intros Hg Hoff Hst Hv Hle. unfold main. rewrite Hg, Hv.
  eapply yields_eq.
  - eapply yields_bind; [apply (yields_optional_time _ _ _ Hoff)|].
    eapply yields_bind; [apply (yields_optional_time _ _ _ Hst)|].
    apply yields_bind_raise.
    destruct (Qlt_le_dec 0 v) as [Hpos|_].
    { exfalso. apply (Qlt_irrefl 0). exact (Qlt_le_trans _ _ _ Hpos Hle). }
    eapply yields_bind; [apply yields_print | apply yields_raise].
  - reflexivity.
Qed.

Lemma nonpositive_speed_rejected_witness :
  run (main (fun _ => Raise ValueError) (fun _ => s2l "0.0")
         (fun _ => FileText (s2l "[00:01.00]la"))
         (mkArgs (s2l "song.lrc") None true None None None None None
            (Some 0) true)
         DEFAULT_CONFIG)
      (fun _ => 0)
  = (Raise (SystemExit 1),
     [Print ((RED ++ s2l "[ERROR] Speed multiplier harus > 0" ++ RESET)
             ++ [LF])]).
Proof.
  apply yields_run.
  apply (nonpositive_speed_rejected _ _ _ _ _
           (mkGenre (esc "[93m") 0.012 (s2l "shake")
              (s2l "Hip Hop — smooth, rhythmic, punchy"))
           None None 0); try reflexivity.
  discriminate.
Defined.

Ltac main_opening Hoff Hst Hpos :=
  eapply yields_bind; [apply (yields_optional_time _ _ _ Hoff)|];
  eapply yields_bind; [apply (yields_optional_time _ _ _ Hst)|];
  eapply yields_bind;
  [ let Hle := fresh "Hle" in
    destruct (Qlt_le_dec 0 (speed_of _)) as [_|Hle];
    [ apply yields_ret
    | exfalso; apply (Qlt_irrefl 0); exact (Qlt_le_trans _ _ _ Hpos Hle) ]
  | ];
  eapply yields_bind; [apply yields_when, yields_emit|];
  eapply yields_bind; [apply yields_emit|].

(** When the file cannot be read, or holds no timestamped line, [main]
    shows the banner if asked and the loading bar, prints one error
    message and exits with status 1: no lyric is typed, nothing is
    exported and the completion bar is not shown. *)
Theorem unusable_file_exits (py_float : str -> result Q)
  (repr_float : Q -> str) (read_file : str -> read_outcome)
  (a : args) (cfg : config) (g : genre) (off st : option Q) :
  lookup_genre (genre_key a cfg) (genres cfg) = Some g ->
  time_option py_float (a_offset a) off ->
  time_option py_float (a_start a) st ->
  0 < speed_of a ->
  (match read_file (a_file a) with
   | FileText raw => parse_lrc_text raw = []
   | _ => True
   end) ->
  exists message : str,
    yields (main py_float repr_float read_file a cfg)
           (Raise (SystemExit 1))
           (opening a cfg ++ [Print message]).
Proof.
  intros Hg Hoff Hst Hpos Hfile. unfold main. rewrite Hg.
  fold (speed_of a).
  destruct (read_file (a_file a)) as [raw| |msg] eqn:Hread.
  - eexists. eapply yields_eq.
    + main_opening Hoff Hst Hpos.
      unfold parse_lrc. rewrite Hread, Hfile.
      eapply yields_bind; [apply yields_ret|].
      apply yields_bind_raise.
      eapply yields_bind; [apply yields_print | apply yields_raise].
    + unfold opening. cbn [app]. rewrite <- !app_assoc. reflexivity.
  - eexists. eapply yields_eq.
    + main_opening Hoff Hst Hpos.
      unfold parse_lrc. rewrite Hread.
      apply yields_bind_raise.
      eapply yields_bind; [apply yields_print | apply yields_raise].
    + unfold opening. cbn [app]. rewrite <- !app_assoc. reflexivity.
  - eexists. eapply yields_eq.
    + main_opening Hoff Hst Hpos.
      unfold parse_lrc. rewrite Hread.
      apply yields_bind_raise.
      eapply yields_bind; [apply yields_print | apply yields_raise].
    + unfold opening. cbn [app]. rewrite <- !app_assoc. reflexivity.
Qed.

Lemma unusable_file_exits_witness :
  exists message : str,
    run (main (fun _ => Raise ValueError) (fun _ => s2l "1.0")
           (fun _ => FileText (s2l "[ti:Song]"))
           (mkArgs (s2l "song.lrc") None true None None None None
              (Some (s2l "out.json")) None false)
           DEFAULT_CONFIG)
        (fun _ => 0)
    = (Raise (SystemExit 1),
       [AnimateLoading (s2l "TokTune @username") 300; Print message]).
Proof.
  destruct (unusable_file_exits (fun _ => Raise ValueError)
              (fun _ => s2l "1.0") (fun _ => FileText (s2l "[ti:Song]"))
              (mkArgs (s2l "song.lrc") None true None None None None
                 (Some (s2l "out.json")) None false)
              DEFAULT_CONFIG
              (mkGenre (esc "[93m") 0.012 (s2l "shake")
                 (s2l "Hip Hop — smooth, rhythmic, punchy"))
              None None) as [message H];
    [ reflexivity | reflexivity | reflexivity | reflexivity | reflexivity | ].
  exists message. apply yields_run. exact H.
Defined.

Lemma schedule_block_quiet (cfg : config) (tl : Q * entry) :
  Forall is_quiet (schedule_block cfg tl).
Proof.
  destruct tl as [t line]. unfold schedule_block.
  constructor; [exact I|]. apply Forall_app. split.
  - apply Forall_map, Forall_forall. intros x _. exact I.
  - repeat constructor.
Qed.

(** Without [--realtime] and without an export, a run on a usable file
    is a static report: besides the banner and the two cosmetic bars,
    [main] only prints, namely what [print_schedule] prints for the
    parsed entries; it reads no clock, never sleeps, types no lyric and
    ends normally. *)
Theorem schedule_mode_is_static (py_float : str -> result Q)
  (repr_float : Q -> str) (read_file : str -> read_outcome)
  (a : args) (cfg : config) (g : genre) (off st : option Q) (raw : str) :
  lookup_genre (genre_key a cfg) (genres cfg) = Some g ->
  time_option py_float (a_offset a) off ->
  time_option py_float (a_start a) st ->
  0 < speed_of a ->
  read_file (a_file a) = FileText raw -> parse_lrc_text raw <> [] ->
  a_realtime a = false -> truthy (a_export_json a) = None ->
  exists sched : list event,
    yields (print_schedule cfg repr_float (parse_lrc_text raw)
              (match off with Some v => v | None => 0.0 end) st (speed_of a))
           (Ok tt) sched
    /\ Forall is_quiet sched
    /\ yields (main py_float repr_float read_file a cfg) (Ok tt)
         (opening a cfg ++ sched
          ++ [AnimateCompletion
                (trunc (match a_auto_close a with
                        | Some v => v
                        | None => loading_ending cfg
                        end * 1000))]).
Proof.
  intros Hg Hoff Hst Hpos Hread Hne Hmode Hexp.
  assert (Hnz : ~ speed_of a == 0).
  { intros H. rewrite H in Hpos. discriminate Hpos. }
  pose proof (yields_print_schedule cfg repr_float (parse_lrc_text raw)
                (match off with Some v => v | None => 0.0 end) st (speed_of a)
                Hnz Hne) as Hsched.
  eexists. split; [exact Hsched|]. split.
  - apply Forall_app. split.
    + unfold schedule_preamble. constructor; [exact I|].
      destruct (Qeq_bool (speed_of a) 1.0); repeat constructor.
    + apply Forall_flat_map, Forall_forall. intros line _.
      apply schedule_block_quiet.
  - unfold main. rewrite Hg. fold (speed_of a).
    eapply yields_eq.
    + main_opening Hoff Hst Hpos.
      unfold parse_lrc. rewrite Hread.
      eapply yields_bind; [apply yields_ret|].
      eapply yields_bind.
      { destruct (parse_lrc_text raw); [contradiction | apply yields_ret]. }
      rewrite Hexp, Hmode.
      eapply yields_bind; [apply yields_ret|].
      eapply yields_bind; [exact Hsched | apply yields_emit].
    + unfold opening. cbn [app]. rewrite <- !app_assoc. reflexivity.
Qed.

Lemma schedule_mode_is_static_witness :
  fst (run (main (fun _ => Raise ValueError) (fun _ => s2l "2.0")
              (fun _ => FileText (s2l "[00:01.00]hello[00:02.50]"))
              (mkArgs (s2l "song.lrc") (Some (s2l "Pop")) false None None
                 None None None (Some 2) false)
              DEFAULT_CONFIG)
           (fun _ => 0))
  = Ok tt.
Proof.
  destruct (schedule_mode_is_static (fun _ => Raise ValueError)
              (fun _ => s2l "2.0")
              (fun _ => FileText (s2l "[00:01.00]hello[00:02.50]"))
              (mkArgs (s2l "song.lrc") (Some (s2l "Pop")) false None None
                 None None None (Some 2) false)
              DEFAULT_CONFIG
              (mkGenre (esc "[95m") 0.02 (s2l "bounce")
                 (s2l "Pop — bright, per-word bounce"))
              None None (s2l "[00:01.00]hello[00:02.50]"))
    as (sched & _ & _ & Hmain);
    [ reflexivity | reflexivity | reflexivity | reflexivity | reflexivity
    | discriminate | reflexivity | reflexivity | ].
  rewrite (yields_run _ _ _ (fun _ => 0) Hmain). reflexivity.
Defined.

(* ================================================================== *)
(** * More on the animation delay *)
(* ================================================================== *)

Ltac decide_effects :=
  repeat match goal with
         | |- context [effect_is (s2l ?a) ?b] =>
             let v := eval vm_compute in (effect_is (s2l a) b) in
             change (effect_is (s2l a) b) with v
         end;
  cbn [orb].

(** The delay factor of each effect, for a positive base delay: the
    random factor of "bounce" lies between 0.8 and 1.2 and that of
    "glitch" between 0.5 and 1.5, bounds included; the sine effects stay
    within their amplitude around the base delay, 0.3 for "wave", 0.2 for
    "swing" and "reggae_wave", 0.15 for "vibrate" and 0.25 for "salsa";
    "shake" and "heavy_shake" halve the delay of every third character
    and leave the others alone. *)
Theorem delay_by_effect (base_speed : R) (char_index : Z) (rnd : R) :
  (0 < base_speed)%R -> (0 <= rnd <= 1)%R ->
  let delay (e : string) :=
    get_animation_delay (s2l e) base_speed char_index rnd in
  (0.8 * base_speed <= delay "bounce"%string <= 1.2 * base_speed)%R
  /\ (0.5 * base_speed <= delay "glitch"%string <= 1.5 * base_speed)%R
  /\ (0.7 * base_speed <= delay "wave"%string <= 1.3 * base_speed)%R
  /\ (0.8 * base_speed <= delay "swing"%string <= 1.2 * base_speed)%R
  /\ (0.85 * base_speed <= delay "vibrate"%string <= 1.15 * base_speed)%R
  /\ (0.75 * base_speed <= delay "salsa"%string <= 1.25 * base_speed)%R
  /\ (0.8 * base_speed <= delay "reggae_wave"%string <= 1.2 * base_speed)%R
  /\ delay "shake"%string = delay "heavy_shake"%string
  /\ ((char_index mod 3 = 0)%Z -> delay "shake"%string = (base_speed * 0.5)%R)
  /\ ((char_index mod 3 <> 0)%Z -> delay "shake"%string = base_speed).
Proof.
  intros Hb [Hr0 Hr1] delay. unfold delay, get_animation_delay.
  decide_effects.
  repeat match goal with
         | |- context [sin ?x] =>
             let s := fresh "s" in
             let Hs := fresh "Hs" in
             pose proof (SIN_bound x) as Hs; set (s := sin x) in *;
             clearbody s
         end.
  repeat split; try Lra.nra.
  - intros H. apply Z.eqb_eq in H. rewrite H. reflexivity.
  - intros H. apply Z.eqb_neq in H. rewrite H. reflexivity.
Qed.

Lemma delay_by_effect_witness :
  (0.8 * 0.02 <= get_animation_delay (s2l "bounce") 0.02 7 0.5 <= 1.2 * 0.02)%R
  /\ get_animation_delay (s2l "shake") 0.02 9 0.5 = (0.02 * 0.5)%R.
Proof.
  split.
  - apply (delay_by_effect 0.02 7 0.5); Lra.lra.
  - apply (delay_by_effect 0.02 9 0.5); [Lra.lra | Lra.lra | reflexivity].
Defined.

Lemma lower_char_idem (c : ascii) : lower_char (lower_char c) = lower_char c.
Proof. destruct c as [[] [] [] [] [] [] [] []]; reflexivity. Qed.

Lemma lower_idem (s : str) : lower (lower s) = lower s.
Proof.
  unfold lower. rewrite map_map. apply map_ext. exact lower_char_idem.
Qed.

(** The genre looked up is always in lower case, so genre selection
    ignores the case of the name given; and a genre that the
    configuration lists under a name with an upper-case letter can never
    be selected, whatever is typed. *)
Theorem genre_key_lower_case (a : args) (cfg : config) :
  lower (genre_key a cfg) = genre_key a cfg
  /\ (forall a' : args,
         option_map lower (truthy (a_genre a'))
         = option_map lower (truthy (a_genre a)) ->
         genre_key a' cfg = genre_key a cfg)
  /\ (forall key : str, lower key <> key -> genre_key a cfg <> key).
Proof.
  split; [|split].
  - unfold genre_key. apply lower_idem.
  - intros a' H. unfold genre_key.
    destruct (truthy (a_genre a')) as [g'|], (truthy (a_genre a)) as [g|];
      cbn [option_map] in H; try discriminate H; [|reflexivity].
    injection H as H. exact H.
  - intros key Hkey E. apply Hkey. rewrite <- E.
    unfold genre_key. apply lower_idem.
Qed.

Lemma genre_key_lower_case_witness :
  genre_key (mkArgs [] (Some (s2l "HipHop")) false None None None None None
               None false) DEFAULT_CONFIG
  = genre_key (mkArgs [] (Some (s2l "hiphop")) false None None None None None
                 None false) DEFAULT_CONFIG
  /\ genre_key (mkArgs [] (Some (s2l "HipHop")) false None None None None
                  None None false) DEFAULT_CONFIG
     <> s2l "HipHop".
Proof.
  destruct (genre_key_lower_case
              (mkArgs [] (Some (s2l "hiphop")) false None None None None None
                 None false) DEFAULT_CONFIG) as (_ & Hsame & _).
  destruct (genre_key_lower_case
              (mkArgs [] (Some (s2l "HipHop")) false None None None None None
                 None false) DEFAULT_CONFIG) as (_ & _ & Hnever).
  split.
  - apply Hsame. reflexivity.
  - apply Hnever. discriminate.
Defined.

(* ================================================================== *)
(** * Runs of the realtime scheduler *)
(* ================================================================== *)

Lemma typed_app (a b : list event) : typed (a ++ b) = typed a ++ typed b.
Proof. unfold typed. rewrite map_app, concat_app. reflexivity. Qed.

Lemma world_eta (w : world) : mkWorld (clock w) (ticks w) (out w) = w.
Proof. destruct w; reflexivity. Qed.

Lemma leads_yields {A} (c : IO A) (a : A) (evs : list event) (w : world) :
  yields c (Ok a) evs -> leads c w a 0 evs.
Proof. intros H. unfold leads. rewrite H, Nat.add_0_r. reflexivity. Qed.

Lemma leads_bind {A B} (c : IO A) (k : A -> IO B) (w : world) (a : A) (b : B)
  (n1 n2 : nat) (e1 e2 : list event) :
  leads c w a n1 e1 ->
  leads (k a) (mkWorld (clock w) (ticks w + n1) (out w ++ e1)) b n2 e2 ->
  leads (iobind c k) w b (n1 + n2) (e1 ++ e2).
Proof.
  unfold leads, iobind. intros -> ->. cbn [clock ticks out].
  rewrite Nat.add_assoc, app_assoc. reflexivity.
Qed.

Lemma leads_monotonic (w : world) : leads monotonic w (clock w (ticks w)) 1 [].
Proof.
  unfold leads, monotonic. rewrite Nat.add_1_r, app_nil_r. reflexivity.
Qed.

Lemma leads_emitted {A} (c : IO A) (w : world) (a : A) (n : nat)
  (evs : list event) :
  leads c w a n evs -> emitted c w = evs.
Proof. intros H. exact (emitted_of_trace c w _ _ _ _ H). Qed.

Lemma leads_unique {A} (c : IO A) (w : world) (a a' : A) (n n' : nat)
  (e e' : list event) :
  leads c w a n e -> leads c w a' n' e' -> e = e'.
Proof.
  intros H H'. apply leads_emitted in H. apply leads_emitted in H'.
  congruence.
Qed.

Lemma plays_of_yields (c : IO unit) (evs : list event) :
  yields c (Ok tt) evs -> Forall no_negative_wait evs -> plays c 0 (typed evs).
Proof.
  intros Hy Hf w. exists evs. split; [apply leads_yields; exact Hy|].
  split; [reflexivity | exact Hf].
Qed.

Lemma plays_ret : plays (ret tt) 0 [].
Proof. apply (plays_of_yields _ [] (yields_ret tt)). constructor. Qed.

Lemma plays_print (s : str) : plays (print s) 0 [].
Proof.
  apply (plays_of_yields _ _ (yields_print s)). repeat constructor.
Qed.

Lemma plays_bind (c k : IO unit) (n1 n2 : nat) (t1 t2 : str) :
  plays c n1 t1 -> plays k n2 t2 ->
  plays (iobind c (fun _ => k)) (n1 + n2) (t1 ++ t2).
Proof.
  intros Hc Hk w.
  destruct (Hc w) as (e1 & L1 & T1 & F1).
  destruct (Hk (mkWorld (clock w) (ticks w + n1) (out w ++ e1)))
    as (e2 & L2 & T2 & F2).
  exists (e1 ++ e2). split; [exact (leads_bind _ _ _ _ _ _ _ _ _ L1 L2)|].
  split; [rewrite typed_app, T1, T2; reflexivity|].
  apply Forall_app. split; assumption.
Qed.

Lemma plays_sleep (d : Q) : 0 <= d -> plays (sleep d) 0 [].
Proof.
  intros Hd. unfold sleep. destruct (Qlt_le_dec d 0) as [Hneg|_].
  - exfalso. apply (Qlt_irrefl 0). exact (Qle_lt_trans _ _ _ Hd Hneg).
  - apply (plays_of_yields _ _ (yields_emit (Sleep d))).
    constructor; [exact Hd | constructor].
Qed.

Lemma plays_wait (d : Q) :
  plays (when (if Qlt_le_dec 0 d then true else false) (sleep d)) 0 [].
Proof.
  destruct (Qlt_le_dec 0 d) as [Hd|_]; [|apply plays_ret].
  apply plays_sleep, Qlt_le_weak, Hd.
Qed.

Lemma plays_for_each {A} (l : list A) (body : A -> IO unit)
  (cost : A -> nat) (txt : A -> str) :
  (forall x, plays (body x) (cost x) (txt x)) ->
  plays (for_each l body) (list_sum (map cost l)) (List.concat (map txt l)).
Proof.
  intros Hbody. induction l as [|x l IH];
    cbn [for_each map list_sum fold_right List.concat].
  - apply plays_ret.
  - apply plays_bind; [apply Hbody | exact IH].
Qed.

Lemma for_each_app {A} (l1 l2 : list A) (body : A -> IO unit) (w : world) :
  for_each (l1 ++ l2) body w
  = iobind (for_each l1 body) (fun _ => for_each l2 body) w.
Proof.
  revert w. induction l1 as [|x l1 IH]; intros w; cbn [app for_each].
  - reflexivity.
  - unfold iobind at 1 2 3. destruct (body x w) as [[[]|e] w'].
    + rewrite IH. reflexivity.
    + reflexivity.
Qed.

Lemma for_each_flat_map {A B} (f : A -> list B) (body : B -> IO unit)
  (l : list A) (w : world) :
  for_each l (fun x => for_each (f x) body) w
  = for_each (flat_map f l) body w.
Proof.
  revert w. induction l as [|x l IH]; intros w; cbn [for_each flat_map].
  - reflexivity.
  - rewrite for_each_app. unfold iobind.
    destruct (for_each (f x) body w) as [[[]|e] w']; [apply IH | reflexivity].
Qed.

Lemma list_sum_ones {A} (l : list A) :
  list_sum (map (fun _ => 1%nat) l) = List.length l.
Proof.
  induction l as [|x l IH]; [reflexivity|].
  unfold list_sum in *. cbn [map fold_right List.length Nat.add].
  rewrite IH. reflexivity.
Qed.

(** Where a loop stands when it comes to one of its items. *)
Lemma for_each_focus {A} (body : A -> IO unit) (cost : A -> nat)
  (txt : A -> str) (l1 : list A) (x : A) (l2 : list A) (w : world) :
  (forall y, plays (body y) (cost y) (txt y)) ->
  exists (e1 e2 e3 : list event) (n : nat),
    leads (for_each (l1 ++ x :: l2) body) w tt n (e1 ++ e2 ++ e3)
    /\ leads (body x)
             (mkWorld (clock w) (ticks w + list_sum (map cost l1))
                (out w ++ e1))
             tt (cost x) e2
    /\ typed e1 = List.concat (map txt l1)
    /\ typed e3 = List.concat (map txt l2)
    /\ Forall no_negative_wait e1 /\ Forall no_negative_wait e3.
Proof.
  intros Hbody.
  destruct (plays_for_each l1 body cost txt Hbody w) as (e1 & L1 & T1 & F1).
  set (w1 := mkWorld (clock w) (ticks w + list_sum (map cost l1))
               (out w ++ e1)) in *.
  destruct (Hbody x w1) as (e2 & L2 & _ & _).
  set (w2 := mkWorld (clock w1) (ticks w1 + cost x) (out w1 ++ e2)) in *.
  destruct (plays_for_each l2 body cost txt Hbody w2) as (e3 & L3 & T3 & F3).
  exists e1, e2, e3,
    (list_sum (map cost l1) + (cost x + list_sum (map cost l2)))%nat.
  split; [|split; [exact L2|repeat split; assumption]].
  unfold leads. rewrite for_each_app. unfold iobind at 1.
  unfold leads in L1. rewrite L1. cbn [for_each]. unfold iobind.
  unfold leads in L2. fold w1. rewrite L2.
  unfold leads in L3. fold w2. rewrite L3.
  cbn [clock ticks out w1 w2]. rewrite !Nat.add_assoc, <- !app_assoc.
  reflexivity.
Qed.

Lemma span_calls_all (R : event -> Prop) (wrapped_line color dim_color : str)
  (speed : Q) (effect : str) (spans : list (nat * nat)) (last_idx : nat) :
  (forall t c, R (AnimateText t c speed effect)) ->
  Forall R (fst (span_calls wrapped_line color dim_color speed effect
                   last_idx spans)).
Proof.
  intros HR. revert last_idx.
  induction spans as [|[a b] rest IH]; intros last_idx; cbn [span_calls].
  - constructor.
  - specialize (IH b).
    destruct (span_calls wrapped_line color dim_color speed effect b rest)
      as [evs last].
    cbn [fst] in *. apply Forall_app. split.
    + destruct (last_idx <? a)%nat; [|constructor].
      constructor; [apply HR | constructor].
    + constructor; [apply HR | exact IH].
Qed.

Lemma line_calls_all (R : event -> Prop) (g : genre) (wrapped_line : str)
  (speed : Q) :
  (forall t c, R (AnimateText t c speed (effect g))) ->
  Forall R (line_calls g wrapped_line speed).
Proof.
  intros HR. unfold line_calls.
  destruct (startswith (s2l "-") (strip wrapped_line)).
  - constructor; [apply HR | constructor].
  - pose proof (span_calls_all R wrapped_line (color g) (DIM ++ color g)
                  speed (effect g) (paren_spans 0 None wrapped_line) 0 HR)
      as Hs.
    destruct (span_calls wrapped_line (color g) (DIM ++ color g) speed
                (effect g) 0 (paren_spans 0 None wrapped_line))
      as [evs last].
    cbn [fst] in Hs. apply Forall_app. split; [exact Hs|].
    destruct (paren_spans 0 None wrapped_line).
    + constructor; [apply HR | constructor].
    + destruct (last <? List.length wrapped_line)%nat; [|constructor].
      constructor; [apply HR | constructor].
Qed.

Lemma line_calls_not_empty (g : genre) (wrapped_line : str) (speed : Q) :
  line_calls g wrapped_line speed <> [].
Proof.
  intros E. pose proof (line_calls_animates g wrapped_line speed) as H.
  rewrite E in H. inversion H.
Qed.

Lemma current_speed_nonneg (base_speed drift : Q) :
  0 <= base_speed -> 0 <= current_speed base_speed drift.
Proof.
  intros Hb. unfold current_speed.
  destruct (Qlt_le_dec 0 drift); [|exact Hb].
  cbv zeta. eapply Qle_trans; [|apply Q.le_max_r]. discriminate.
Qed.

(** One pass of the loop over the wrapped lines, from the clock reading
    it starts with. *)
Lemma play_wrapped_line_leads (g : genre) (cfg : config)
  (base_speed playback_start abs_start : Q) (wrapped_line : str) (w : world) :
  0 <= margin_between_lines cfg ->
  leads (play_wrapped_line g cfg base_speed playback_start abs_start
           wrapped_line) w tt 1
        (line_calls g wrapped_line
           (current_speed base_speed
              ((clock w (ticks w) - playback_start) - abs_start))
         ++ [Print [LF]; Sleep (margin_between_lines cfg)]).
Proof.
  intros Hm. unfold play_wrapped_line.
  eapply (leads_bind _ _ _ _ _ 1 0 []); [apply leads_monotonic|].
  apply leads_yields.
  apply (yields_eq _ _ (line_calls g wrapped_line
                          (current_speed base_speed
                             (current_drift (clock w (ticks w))
                                playback_start abs_start))
                        ++ [Print ([] ++ [LF])]
                        ++ [Sleep (margin_between_lines cfg)]));
    [|reflexivity].
  eapply yields_bind; [apply yields_line_calls|].
  eapply yields_bind; [apply (yields_print [])|].
  pose proof (yields_sleep (margin_between_lines cfg)) as Hs.
  destruct (Qlt_le_dec (margin_between_lines cfg) 0) as [Hneg|_];
    [|exact Hs].
  exfalso. apply (Qlt_irrefl 0). exact (Qle_lt_trans _ _ _ Hm Hneg).
Qed.

Lemma plays_play_wrapped_line (g : genre) (cfg : config)
  (base_speed playback_start abs_start : Q) (wrapped_line : str) :
  0 <= margin_between_lines cfg -> 0 <= base_speed ->
  plays (play_wrapped_line g cfg base_speed playback_start abs_start
           wrapped_line) 1 wrapped_line.
Proof.
  intros Hm Hb w. eexists.
  split; [apply play_wrapped_line_leads; exact Hm|]. split.
  - rewrite typed_app. unfold typed at 1. rewrite line_calls_text.
    apply app_nil_r.
  - apply Forall_app. split.
    + apply line_calls_all. intros t c. apply current_speed_nonneg, Hb.
    + constructor; [exact I|]. constructor; [exact Hm | constructor].
Qed.

Lemma typed_entry_opening (cfg : config) (target elapsed : Q) :
  typed (entry_opening cfg target elapsed) = [].
Proof.
  unfold entry_opening.
  destruct (Qlt_le_dec 0 (target - elapsed)), (show_time_display cfg);
    reflexivity.
Qed.

Lemma entry_opening_waits (cfg : config) (target elapsed : Q) :
  Forall no_negative_wait (entry_opening cfg target elapsed).
Proof.
  unfold entry_opening. apply Forall_app. split.
  - destruct (Qlt_le_dec 0 (target - elapsed)) as [Hd|_]; [|constructor].
    constructor; [apply Qlt_le_weak, Hd | constructor].
  - destruct (show_time_display cfg); repeat constructor.
Qed.

(** What the scheduler does on reaching an entry, before the first
    sub-line. *)
Lemma entry_opening_leads (cfg : config) (playback_start target : Q)
  (k : IO unit) (w : world) (n : nat) (evs : list event) :
  leads k (mkWorld (clock w) (ticks w + 1)
             (out w ++ entry_opening cfg target
                         (clock w (ticks w) - playback_start)))
        tt n evs ->
  leads (iobind monotonic (fun now =>
           let elapsed := (now - playback_start)%Q in
           let wait_time := (target - elapsed)%Q in
           iobind (when (if Qlt_le_dec 0 wait_time then true else false)
                     (sleep wait_time))
             (fun _ =>
                iobind (when (show_time_display cfg)
                          (print (GRAY ++ s2l "[" ++
                                  format_time_display target cfg ++
                                  s2l "]" ++ RESET)))
                  (fun _ => k))))
        w tt (1 + n)
        (entry_opening cfg target (clock w (ticks w) - playback_start)
         ++ evs).
Proof.
  intros Hk.
  apply (leads_bind _ _ _ _ _ 1 n [] _ (leads_monotonic w)).
  cbv zeta.
  set (now := clock w (ticks w)) in *.
  set (w1 := mkWorld (clock w) (ticks w + 1) (out w ++ [])).
  assert (L : leads
                (iobind (when (if Qlt_le_dec 0 (target - (now - playback_start))
                               then true else false)
                           (sleep (target - (now - playback_start))))
                   (fun _ =>
                      when (show_time_display cfg)
                        (print (GRAY ++ s2l "[" ++
                                format_time_display target cfg ++
                                s2l "]" ++ RESET))))
                w1 tt 0
                (entry_opening cfg target (now - playback_start))).
  { apply leads_yields. unfold entry_opening.
    eapply yields_bind.
    - destruct (Qlt_le_dec 0 (target - (now - playback_start))) as [Hd|Hd].
      + cbn [when].
        pose proof (yields_sleep (target - (now - playback_start))) as Hs.
        destruct (Qlt_le_dec (target - (now - playback_start)) 0) as [Hn|_];
          [|exact Hs].
        exfalso. apply (Qlt_irrefl 0). exact (Qlt_trans _ _ _ Hd Hn).
      + apply yields_ret.
    - apply yields_when, yields_print. }
  unfold leads in *. unfold iobind in L |- *.
  destruct (when (if Qlt_le_dec 0 (target - (now - playback_start))
                  then true else false)
              (sleep (target - (now - playback_start))) w1)
    as [[[]|e] w2]; [|discriminate L].
  destruct (when (show_time_display cfg)
              (print (GRAY ++ s2l "[" ++ format_time_display target cfg ++
                      s2l "]" ++ RESET)) w2)
    as [[[]|e] w3]; [|discriminate L].
  injection L as ->.
  cbn [clock ticks out w1] in *.
  rewrite Nat.add_0_r, app_nil_r in *. rewrite Hk.
  rewrite <- app_assoc. reflexivity.
Qed.

(** The end of the loop body over the entries: the empty line and the
    margin before the next entry. *)
Lemma plays_entry_closing (cfg : config)
  (first_time baseline offset speed_multiplier playback_start : Q)
  (next : option entry) :
  ~ speed_multiplier == 0 ->
  plays (iobind (print [])
           (fun _ =>
              match next with
              | Some next_line =>
                  iobind (lift (absolute_start first_time baseline offset
                                  speed_multiplier next_line))
                    (fun next_absolute_start =>
                       iobind monotonic
                         (fun now =>
                            let elapsed := (now - playback_start)%Q in
                            let remaining :=
                              (next_absolute_start - elapsed)%Q in
                            let extra_sleep :=
                              Qmin (block_margin cfg) (Qmax 0.0 remaining) in
                            when (if Qlt_le_dec 0 extra_sleep
                                  then true else false)
                                 (sleep extra_sleep)))
              | None =>
                  when (if Qlt_le_dec 0 (block_margin cfg)
                        then true else false)
                       (sleep (block_margin cfg))
              end))
        (match next with Some _ => 1 | None => 0 end) [].
Proof.
  intros Hs.
  apply (plays_bind (print []) _ 0 _ [] [] (plays_print [])).
  destruct next as [next_line|]; [|apply plays_wait].
  rewrite absolute_start_ok by exact Hs.
  intros w.
  set (extra := Qmin (block_margin cfg)
                  (Qmax 0.0
                     (baseline + (start next_line - first_time)
                                 / speed_multiplier + offset
                      - (clock w (ticks w) - playback_start)))).
  destruct (plays_wait extra (mkWorld (clock w) (ticks w + 1) (out w ++ [])))
    as (evs & L & T & F).
  exists evs. split; [|split; assumption].
  apply (leads_bind _ _ w _ _ 0 1 [] evs (leads_yields _ _ _ w
                                            (yields_lift _))).
  cbn [clock ticks out]. rewrite Nat.add_0_r, app_nil_r, world_eta.
  rewrite <- (app_nil_l evs).
  apply (leads_bind _ _ w _ _ 1 0 [] evs (leads_monotonic w)).
  exact L.
Qed.

Lemma iobind_ext {A B} (c c' : IO A) (k : A -> IO B) (w : world) :
  c w = c' w -> iobind c k w = iobind c' k w.
Proof. intros H. unfold iobind. rewrite H. reflexivity. Qed.

(** The loop body over the entries, cut after what it does on reaching
    the entry. *)
Lemma play_entry_split (g : genre) (cfg : config)
  (first_time baseline offset speed_multiplier : Q) (wrap_w : Z)
  (base_speed playback_start : Q) (line : entry) (next : option entry)
  (w : world) (n : nat) (evs : list event) :
  let target :=
    baseline + (start line - first_time) / speed_multiplier + offset in
  ~ speed_multiplier == 0 ->
  leads (iobind
           (for_each (sub_lines wrap_w line)
              (play_wrapped_line g cfg base_speed playback_start target))
           (fun _ =>
              iobind (print [])
                (fun _ =>
                   match next with
                   | Some next_line =>
                       iobind (lift (absolute_start first_time baseline
                                       offset speed_multiplier next_line))
                         (fun next_absolute_start =>
                            iobind monotonic
                              (fun now =>
                                 let elapsed := (now - playback_start)%Q in
                                 let remaining :=
                                   (next_absolute_start - elapsed)%Q in
                                 let extra_sleep :=
                                   Qmin (block_margin cfg)
                                        (Qmax 0.0 remaining) in
                                 when (if Qlt_le_dec 0 extra_sleep
                                       then true else false)
                                      (sleep extra_sleep)))
                   | None =>
                       when (if Qlt_le_dec 0 (block_margin cfg)
                             then true else false)
                            (sleep (block_margin cfg))
                   end)))
        (mkWorld (clock w) (ticks w + 1)
           (out w ++ entry_opening cfg target
                       (clock w (ticks w) - playback_start)))
        tt n evs ->
  leads (play_entry g cfg first_time baseline offset speed_multiplier wrap_w
           base_speed playback_start line next)
        w tt (1 + n)
        (entry_opening cfg target (clock w (ticks w) - playback_start)
         ++ evs).
Proof.
  intros target Hs Hk. unfold play_entry.
  rewrite absolute_start_ok by exact Hs. fold target.
  unfold leads. unfold iobind at 1. unfold lift at 1. cbv beta iota.
  apply (entry_opening_leads cfg playback_start target _ w n evs).
  unfold leads in *. rewrite <- Hk. apply iobind_ext.
  apply for_each_flat_map.
Qed.

Section Entry.

Variable g : genre.
Variable cfg : config.
Variables first_time baseline offset speed_multiplier : Q.
Variable wrap_w : Z.
Variables base_speed playback_start : Q.

Hypothesis margin_ok : 0 <= margin_between_lines cfg.
Hypothesis multiplier_ok : ~ speed_multiplier == 0.
Hypothesis base_ok : 0 <= base_speed.

(** One pass of the loop over the entries. *)
Lemma play_entry_leads (line : entry) (next : option entry) (w : world) :
  let target :=
    baseline + (start line - first_time) / speed_multiplier + offset in
  exists post : list event,
    leads (play_entry g cfg first_time baseline offset speed_multiplier
             wrap_w base_speed playback_start line next)
          w tt
          (1 + (List.length (sub_lines wrap_w line)
                + match next with Some _ => 1 | None => 0 end))
          (entry_opening cfg target (clock w (ticks w) - playback_start)
           ++ post)
    /\ typed post = List.concat (sub_lines wrap_w line)
    /\ Forall no_negative_wait post.
Proof.
  intros target.
  pose proof (plays_bind _ _ _ _ _ _
                (plays_for_each (sub_lines wrap_w line)
                   (play_wrapped_line g cfg base_speed playback_start target)
                   (fun _ => 1%nat) (fun x => x)
                   (fun x => plays_play_wrapped_line g cfg base_speed
                               playback_start target x margin_ok base_ok))
                (plays_entry_closing cfg first_time baseline offset
                   speed_multiplier playback_start next multiplier_ok))
    as Hbody.
  rewrite list_sum_ones, map_id, app_nil_r in Hbody.
  destruct (Hbody (mkWorld (clock w) (ticks w + 1)
                     (out w ++ entry_opening cfg target
                                 (clock w (ticks w) - playback_start))))
    as (post & L & T & F).
  exists post. split; [|split; assumption].
  apply play_entry_split; assumption.
Qed.

(** The same pass, seen from one of the sub-lines of the entry. *)
Lemma play_entry_focus (line : entry) (next : option entry)
  (sb : list str) (wrapped_line : str) (sa : list str) (w : world) :
  let target :=
    baseline + (start line - first_time) / speed_multiplier + offset in
  let now := clock w (ticks w + 1 + List.length sb) in
  sub_lines wrap_w line = sb ++ wrapped_line :: sa ->
  exists (e1 e3 : list event) (n : nat),
    leads (play_entry g cfg first_time baseline offset speed_multiplier
             wrap_w base_speed playback_start line next)
          w tt n
          ((entry_opening cfg target (clock w (ticks w) - playback_start)
            ++ e1)
           ++ line_calls g wrapped_line
                (current_speed base_speed ((now - playback_start) - target))
           ++ ([Print [LF]; Sleep (margin_between_lines cfg)] ++ e3))
    /\ typed e1 = List.concat sb
    /\ typed e3 = List.concat sa
    /\ Forall no_negative_wait e1 /\ Forall no_negative_wait e3.
Proof.
  intros target now Hsub.
  set (w1 := mkWorld (clock w) (ticks w + 1)
               (out w ++ entry_opening cfg target
                           (clock w (ticks w) - playback_start))).
  destruct (for_each_focus
              (play_wrapped_line g cfg base_speed playback_start target)
              (fun _ => 1%nat) (fun x => x) sb wrapped_line sa w1
              (fun x => plays_play_wrapped_line g cfg base_speed
                          playback_start target x margin_ok base_ok))
    as (e1 & e2 & e3 & n & Lloop & Lline & T1 & T3 & F1 & F3).
  rewrite map_id in T1, T3. rewrite list_sum_ones in Lline.
  pose proof (play_wrapped_line_leads g cfg base_speed playback_start target
                wrapped_line
                (mkWorld (clock w1) (ticks w1 + List.length sb)
                   (out w1 ++ e1)) margin_ok) as Lline'.
  pose proof (leads_unique _ _ _ _ _ _ _ _ Lline Lline') as E2.
  cbn [clock ticks out w1] in E2. fold now in E2.
  destruct (plays_entry_closing cfg first_time baseline offset
              speed_multiplier playback_start next multiplier_ok
              (mkWorld (clock w1) (ticks w1 + n)
                 (out w1 ++ e1 ++ e2 ++ e3)))
    as (ec & Lc & Tc & Fc).
  match type of Lc with
  | leads ?c _ _ _ _ =>
      pose proof (leads_bind _ (fun _ => c) _ _ _ _ _ _ _ Lloop Lc) as L
  end.
  rewrite <- Hsub in L.
  apply (play_entry_split g cfg first_time baseline offset speed_multiplier
           wrap_w base_speed playback_start line next w _ _ multiplier_ok)
    in L.
  exists e1, (e3 ++ ec),
    (1 + (n + match next with Some _ => 1 | None => 0 end))%nat.
  split; [|split; [exact T1|split; [|split; [exact F1|]]]].
  - fold target in L. rewrite E2 in L.
    rewrite <- !app_assoc in L |- *. cbn [app] in L |- *.
    rewrite <- !app_assoc in L. exact L.
  - rewrite typed_app, T3, Tc. apply app_nil_r.
  - apply Forall_app. split; assumption.
Qed.

Lemma plays_play_entry (line : entry) (next : option entry) :
  plays (play_entry g cfg first_time baseline offset speed_multiplier wrap_w
           base_speed playback_start line next)
        (1 + (List.length (sub_lines wrap_w line)
              + match next with Some _ => 1 | None => 0 end))
        (List.concat (sub_lines wrap_w line)).
Proof.
  intros w. destruct (play_entry_leads line next w) as (post & L & T & F).
  eexists. split; [exact L|]. split.
  - rewrite typed_app, typed_entry_opening. exact T.
  - apply Forall_app. split; [apply entry_opening_waits | exact F].
Qed.

Lemma lines_text_cons (line : entry) (rest : list entry) :
  lines_text wrap_w (line :: rest)
  = List.concat (sub_lines wrap_w line) ++ lines_text wrap_w rest.
Proof. unfold lines_text. cbn [flat_map]. apply concat_app. Qed.

Lemma plays_play_entries (lyrics : list entry) :
  exists n : nat,
    plays (play_entries g cfg first_time baseline offset speed_multiplier
             wrap_w base_speed playback_start lyrics)
          n (lines_text wrap_w lyrics).
Proof.
  induction lyrics as [|line rest [n IH]]; cbn [play_entries].
  - exists 0%nat. apply plays_ret.
  - eexists. rewrite lines_text_cons.
    apply plays_bind; [apply plays_play_entry | exact IH].
Qed.

(** The loop over the entries, seen from one of them. *)
Lemma play_entries_focus (before : list entry) (line : entry)
  (after : list entry) (w : world) :
  exists (e1 e2 e3 : list event) (n m : nat),
    leads (play_entries g cfg first_time baseline offset speed_multiplier
             wrap_w base_speed playback_start (before ++ line :: after))
          w tt n (e1 ++ e2 ++ e3)
    /\ leads (play_entry g cfg first_time baseline offset speed_multiplier
                wrap_w base_speed playback_start line (hd_error after))
             (mkWorld (clock w) (ticks w + readings wrap_w before)
                (out w ++ e1))
             tt m e2
    /\ typed e1 = lines_text wrap_w before
    /\ typed e3 = lines_text wrap_w after
    /\ Forall no_negative_wait e1 /\ Forall no_negative_wait e3.
Proof.
  revert w. induction before as [|b bs IH]; intros w.
  - cbn [app play_entries].
    destruct (plays_play_entry line (hd_error after) w)
      as (e2 & L2 & _ & _).
    destruct (plays_play_entries after) as [n Hafter].
    destruct (Hafter (mkWorld (clock w)
                        (ticks w
                         + (1 + (List.length (sub_lines wrap_w line)
                                 + match hd_error after with
                                   | Some _ => 1
                                   | None => 0
                                   end)))
                        (out w ++ e2)))
      as (e3 & L3 & T3 & F3).
    exists [], e2, e3. eexists. eexists.
    split; [|split; [|repeat split; try assumption; constructor]].
    + cbn [app].
      match type of L3 with
      | leads ?c _ _ _ _ =>
          exact (leads_bind _ (fun _ => c) _ _ _ _ _ _ _ L2 L3)
      end.
    + unfold readings. cbn [map list_sum fold_right].
      rewrite Nat.add_0_r, app_nil_r, world_eta. exact L2.
  - cbn [app play_entries].
    assert (Hnext : exists nx, hd_error (bs ++ line :: after) = Some nx).
    { destruct bs; eexists; reflexivity. }
    destruct Hnext as [nx Hnext]. rewrite Hnext.
    destruct (plays_play_entry b (Some nx) w) as (eb & Lb & Tb & Fb).
    destruct (IH (mkWorld (clock w)
                    (ticks w + (1 + (List.length (sub_lines wrap_w b) + 1)))
                    (out w ++ eb)))
      as (e1 & e2 & e3 & n & m & L & L2 & T1 & T3 & F1 & F3).
    cbn [clock ticks out] in L2.
    exists (eb ++ e1), e2, e3. eexists. exists m.
    split; [|split; [|split; [|split; [exact T3|split; [|exact F3]]]]].
    + match type of L with
      | leads ?c _ _ _ _ =>
          pose proof (leads_bind _ (fun _ => c) _ _ _ _ _ _ _ Lb L) as L'
      end.
      rewrite <- app_assoc. exact L'.
    + replace (ticks w + readings wrap_w (b :: bs))%nat
        with (ticks w + (1 + (List.length (sub_lines wrap_w b) + 1))
              + readings wrap_w bs)%nat
        by (unfold readings, list_sum; cbn [map fold_right]; lia).
      rewrite app_assoc. exact L2.
    + rewrite typed_app, Tb, T1. symmetry. apply lines_text_cons.
    + apply Forall_app. split; assumption.
Qed.

End Entry.

Lemma play_realtime_unfold (g : genre) (cfg : config) (lyrics : list entry)
  (offset : Q) (start_time : option Q) (wrap_width_arg : option Z)
  (speed_multiplier : Q) (w : world) :
  ~ speed_multiplier == 0 -> lyrics <> [] ->
  play_realtime g cfg lyrics offset start_time wrap_width_arg
    speed_multiplier w
  = play_entries g cfg (first_start lyrics) (baseline_of start_time) offset
      speed_multiplier
      (match wrap_width_arg with Some x => x | None => wrap_width cfg end)
      (speed g / speed_multiplier) (clock w (ticks w)) lyrics
      (mkWorld (clock w) (S (ticks w)) (out w)).
Proof.
  intros Hs Hne. unfold play_realtime.
  destruct lyrics as [|l0 rest]; [contradiction|].
  rewrite py_div_ok by exact Hs. reflexivity.
Qed.

Lemma base_speed_nonneg (g : genre) (speed_multiplier : Q) :
  0 < speed_multiplier -> 0 <= speed g -> 0 <= speed g / speed_multiplier.
Proof.
  intros Hs Hg. apply Qle_shift_div_l; [exact Hs|].
  rewrite Qmult_0_l. exact Hg.
Qed.

Lemma positive_not_zero (q : Q) : 0 < q -> ~ q == 0.
Proof. intros Hq E. rewrite E in Hq. discriminate Hq. Qed.

(** A run of [play_realtime], seen from one of the entries. *)
Lemma play_realtime_focus (g : genre) (cfg : config)
  (before : list entry) (line : entry) (after : list entry)
  (offset : Q) (start_time : option Q) (wrap_width_arg : option Z)
  (speed_multiplier : Q) (w : world) :
  let lyrics := before ++ line :: after in
  let wrap_w :=
    match wrap_width_arg with Some x => x | None => wrap_width cfg end in
  0 < speed_multiplier -> 0 <= speed g -> 0 <= margin_between_lines cfg ->
  exists (e1 e2 e3 : list event) (m : nat),
    emitted (play_realtime g cfg lyrics offset start_time wrap_width_arg
               speed_multiplier) w
    = e1 ++ e2 ++ e3
    /\ leads (play_entry g cfg (first_start lyrics) (baseline_of start_time)
                offset speed_multiplier wrap_w (speed g / speed_multiplier)
                (clock w (ticks w)) line (hd_error after))
             (mkWorld (clock w) (ticks w + 1 + readings wrap_w before)
                (out w ++ e1))
             tt m e2
    /\ typed e1 = lines_text wrap_w before
    /\ typed e3 = lines_text wrap_w after.
Proof.
  intros lyrics wrap_w Hs Hg Hm.
  pose proof (positive_not_zero _ Hs) as Hnz.
  pose proof (base_speed_nonneg g speed_multiplier Hs Hg) as Hb.
  destruct (play_entries_focus g cfg (first_start lyrics)
              (baseline_of start_time) offset speed_multiplier wrap_w
              (speed g / speed_multiplier) (clock w (ticks w)) Hm Hnz Hb
              before line after (mkWorld (clock w) (S (ticks w)) (out w)))
    as (e1 & e2 & e3 & n & m & L & L2 & T1 & T3 & _ & _).
  cbn [clock ticks out] in L, L2.
  exists e1, e2, e3, m. split; [|split; [|split; assumption]].
  - unfold emitted. rewrite play_realtime_unfold;
      [|exact Hnz|subst lyrics; destruct before; discriminate].
    unfold leads in L. subst lyrics wrap_w. rewrite L. cbn [snd out].
    rewrite skipn_app, skipn_all, Nat.sub_diag. reflexivity.
  - replace (ticks w + 1 + readings wrap_w before)%nat
      with (S (ticks w) + readings wrap_w before)%nat by lia.
    exact L2.
Qed.

Lemma line_calls_at (g : genre) (wrapped_line : str) (speed : Q) :
  Forall (is_animate_at speed) (line_calls g wrapped_line speed).
Proof.
  apply line_calls_all. intros t c. exists t, c, (effect g). reflexivity.
Qed.






(** C4.  In a run of [play_realtime] with a positive multiplier (the genre
    delay and the line margin not being negative, so that the run gets to
    the sub-line), take a wrapped sub-line of an entry.  The clock is read
    immediately before the sub-line is typed: once at the start of the
    playback, then for the entries before, once on reaching the entry and
    once for each earlier sub-line of it.  The drift is the time elapsed
    at that reading since the start of the playback, minus the absolute
    start of the entry.  When the drift is positive, the sub-line is typed
    by [animate_text] calls, at least one, which all get the delay
    [max(base_speed / min(3.0, 1.0 + drift * 2.0), 0.001)], where
    [base_speed] is the genre delay divided by the multiplier.  At a drift
    of one second the catch-up factor is 3.0 and the delay is
    [max(base_speed / 3.0, 0.001)]. *)
Theorem drift_compensation (g : genre) (cfg : config)
  (before : list entry) (line : entry) (after : list entry)
  (sb : list str) (wrapped_line : str) (sa : list str)
  (offset : Q) (start_time : option Q) (wrap_width_arg : option Z)
  (speed_multiplier : Q) (w : world) :
  let lyrics := before ++ line :: after in
  let wrap_w :=
    match wrap_width_arg with Some x => x | None => wrap_width cfg end in
  let base_speed := speed g / speed_multiplier in
  let playback_start := clock w (ticks w) in
  let now :=
    clock w (ticks w + 1 + readings wrap_w before + 1 + List.length sb) in
  let target :=
    baseline_of start_time
    + (start line - first_start lyrics) / speed_multiplier + offset in
  let drift := (now - playback_start) - target in
  let delay := Qmax (base_speed / Qmin 3.0 (1.0 + drift * 2.0)) 0.001 in
  0 < speed_multiplier -> 0 <= speed g -> 0 <= margin_between_lines cfg ->
  sub_lines wrap_w line = sb ++ wrapped_line :: sa ->
  0 < drift ->
  exists pre calls post : list event,
    emitted (play_realtime g cfg lyrics offset start_time wrap_width_arg
               speed_multiplier) w
    = pre ++ calls ++ post
    /\ typed pre = lines_text wrap_w before ++ List.concat sb
    /\ typed calls = wrapped_line
    /\ typed post = List.concat sa ++ lines_text wrap_w after
    /\ calls <> []
    /\ Forall (is_animate_at delay) calls
    /\ (drift == 1 ->
        Qmin 3.0 (1.0 + drift * 2.0) == 3.0
        /\ delay == Qmax (base_speed / 3.0) 0.001).
Proof.
  intros lyrics wrap_w base_speed playback_start now target drift delay
         Hs Hg Hm Hsub Hd.
  pose proof (positive_not_zero _ Hs) as Hnz.
  pose proof (base_speed_nonneg g speed_multiplier Hs Hg) as Hb.
  destruct (play_realtime_focus g cfg before line after offset start_time
              wrap_width_arg speed_multiplier w Hs Hg Hm)
    as (e1 & e2 & e3 & m & E & L2 & T1 & T3).
  fold lyrics wrap_w in E, L2, T1, T3.
  destruct (play_entry_focus g cfg (first_start lyrics)
              (baseline_of start_time) offset speed_multiplier wrap_w
              (speed g / speed_multiplier) (clock w (ticks w)) Hm Hnz Hb
              line (hd_error after) sb wrapped_line sa
              (mkWorld (clock w) (ticks w + 1 + readings wrap_w before)
                 (out w ++ e1)) Hsub)
    as (s1 & s3 & n & L & S1 & S3 & _ & _).
  pose proof (leads_unique _ _ _ _ _ _ _ _ L2 L) as E2.
  cbn [clock ticks out] in E2.
  fold base_speed playback_start now target drift in E2.
  rewrite (current_speed_behind base_speed drift Hd) in E2. fold delay in E2.
  exists (e1 ++ entry_opening cfg target
                  (clock w (ticks w + 1 + readings wrap_w before)
                   - playback_start) ++ s1),
         (line_calls g wrapped_line delay),
         (([Print [LF]; Sleep (margin_between_lines cfg)] ++ s3) ++ e3).
  split; [|split; [|split; [|split; [|split; [|split]]]]].
  - rewrite E, E2. rewrite <- !app_assoc. reflexivity.
  - rewrite !typed_app, typed_entry_opening, T1, S1. reflexivity.
  - apply line_calls_text.
  - rewrite !typed_app, S3, T3. reflexivity.
  - apply line_calls_not_empty.
  - apply line_calls_at.
  - intros H1.
    assert (Hcatch : Qmin 3.0 (1.0 + drift * 2.0) == 3.0).
    { rewrite H1. reflexivity. }
    split; [exact Hcatch|].
    subst delay. rewrite Hcatch. reflexivity.
Qed.

Lemma drift_compensation_witness :
  let g := mkGenre (esc "[93m") 0.012 (s2l "shake") (s2l "Hip Hop") in
  let lyrics := [mkEntry 0 2 (s2l "la (la)"); mkEntry 2 5 (s2l "li lo")] in
  let w := mkWorld (fun n => if (n =? 5)%nat then 3 else 0) 0 [] in
  exists pre calls post : list event,
    emitted (play_realtime g DEFAULT_CONFIG lyrics 0 None None 1) w
    = pre ++ calls ++ post
    /\ typed pre = s2l "la (la)"
    /\ typed calls = s2l "li lo"
    /\ calls <> []
    /\ Forall (fun e => exists t c ef delay,
                   e = AnimateText t c delay ef /\ delay == 0.004) calls.
Proof.
  intros g lyrics w.
  destruct (drift_compensation g DEFAULT_CONFIG
              [mkEntry 0 2 (s2l "la (la)")] (mkEntry 2 5 (s2l "li lo")) []
              [] (s2l "li lo") [] 0 None None 1 w)
    as (pre & calls & post & E & Tpre & Tcalls & _ & Hne & Hall & Hone);
    [reflexivity | discriminate | discriminate | reflexivity | reflexivity |].
  destruct Hone as [_ Hthird]; [reflexivity|].
  exists pre, calls, post.
  split; [exact E|]. split; [exact Tpre|]. split; [exact Tcalls|].
  split; [exact Hne|].
  refine (Forall_impl _ _ Hall).
  intros e (t & c & ef & ->). exists t, c, ef. eexists.
  split; [reflexivity|].
  eapply Qeq_trans; [exact Hthird | vm_compute; reflexivity].
Defined.


